(** * Megakolmio: a shallow embedding of the triangle-puzzle solver

    The development follows [megakolmio.c]: nine triangular cards are put on
    nine board positions, filled in the order 0..8, and every adjacent pair
    has to show interlocking edges.  The C program keeps a board in a
    [GameState], derives new boards with [first] and [next] (both work on a
    copy made by [replicate]) and walks the resulting tree in [solve].

    The file has three models and then their properties:
    - the program on values: a [GameState] is a record whose slots hold the
      placements themselves;
    - module [Heap], the program on a store: objects live at addresses, a
      slot holds an address, and [malloc], [free] and the writes through
      pointers are explicit; it is shown to do what the program on values
      does;
    - module [Cpp], the places where [megakolmio.cpp] reads differently:
      the neighbour table is a hash map, [matchesNeighbor] looks it up
      with [operator[]], [isSolved] iterates over it, and [solve] and
      [main] carry it along.

    Conventions of the embedding:
    - [sint] ([unsigned char]) is [N]; arithmetic is done in [Z], as C does
      it in [int], and brought back with [to_sint] (reduction modulo 256);
    - a [const Card*] is [option N]: NULL, or the index [i] of [&Deck[i]],
      so that pointer equality is equality of indices;
    - an array is a list, a [for] loop over its indices a recursion over
      the list; reading or writing outside the nine slots of
      [cardsOnBoard], or through NULL, is undefined behaviour and ends the
      run with [Fault];
    - [printf] appends to the standard output kept in the [World], [exit]
      ends the run with [Exited]. *)

From Stdlib Require Import NArith ZArith Ascii String DecimalString List Lia.
From stdpp Require Import base tactics option list numbers strings gmap.

Local Open Scope N_scope.

(** ** Machine integers *)

Definition sint : Type := N.

Definition to_sint (z : Z) : sint := Z.to_N (z mod 256).

(** ** Static tables *)

Definition NMAP_SIZE : N := 9.

(** A row of [NEIGHBORMAP]: first position, second position, common edge. *)
Definition nmap_row : Type := (sint * sint * sint)%type.

Definition NMAP_FIRST (r : nmap_row) : sint := r.1.1.
Definition NMAP_SECOND (r : nmap_row) : sint := r.1.2.
Definition NMAP_COMMON_EDGE (r : nmap_row) : sint := r.2.

Definition NEIGHBORMAP : list nmap_row :=
  [ (0, 1, 0);
    (0, 2, 1);
    (0, 6, 2);
    (1, 5, 2);
    (2, 3, 2);
    (3, 4, 0);
    (3, 7, 1);
    (4, 5, 1);
    (5, 8, 0) ].

Definition PRINTORDER : list sint := [6; 2; 0; 1; 7; 3; 4; 5; 8].

Definition EDGES_IN_CARD : N := 3.

(** [name] holds the two characters of the card's name; [output] prints
    them with [%s] (the array has no room for a terminating zero: in the C
    file the zero byte that ends the print is the padding between [name]
    and [edges], in the C++ file [mName] is a [std::string]). *)
Record Card : Type := mkCard {
  name : string;
  edges : list string
}.

Definition Deck : list Card :=
  [ mkCard "P1" ["FH"; "FB"; "DH"];
    mkCard "P2" ["DH"; "FB"; "RB"];
    mkCard "P3" ["DH"; "FB"; "FH"];
    mkCard "P4" ["DH"; "DB"; "FB"];
    mkCard "P5" ["DH"; "RB"; "DB"];
    mkCard "P6" ["RB"; "FB"; "RH"];
    mkCard "P7" ["FB"; "RH"; "FH"];
    mkCard "P8" ["RH"; "DH"; "RB"];
    mkCard "P9" ["FB"; "DB"; "DH"] ]%string.

Definition CARDS_IN_DECK : N := 9.

(** [const Card*]: NULL or the address of [Deck[i]]. *)
Definition CardPtr : Type := option N.

Record PlayedCard : Type := mkPlayedCard {
  rotation : sint;
  position : sint;
  card : CardPtr
}.

Record GameState : Type := mkGameState {
  nextOnBoard : sint;
  topOfTheDeck : sint;
  cardsOnBoard : list (option PlayedCard)
}.

#[global] Instance PlayedCard_eq_dec : EqDecision PlayedCard.
Proof. solve_decision. Defined.

#[global] Instance GameState_eq_dec : EqDecision GameState.
Proof. solve_decision. Defined.

(** ** Effects

    A call either returns, or the process has called [exit], or it has run
    into undefined behaviour (a NULL or out-of-bounds access), which the
    model reports as [Fault] and does not continue.  [OutOfFuel] belongs to
    the model only: [solve] is defined by recursion on a fuel. *)

Inductive outcome (A : Type) : Type :=
  | Ret (a : A)
  | Exited
  | Fault
  | OutOfFuel.

Arguments Ret {A} a.
Arguments Exited {A}.
Arguments Fault {A}.
Arguments OutOfFuel {A}.

Definition outcome_bind {A B} (m : outcome A) (k : A → outcome B) : outcome B :=
  match m with
  | Ret a => k a
  | Exited => Exited
  | Fault => Fault
  | OutOfFuel => OutOfFuel
  end.

(** What the process has done so far: the bytes written to standard output,
    and (a ghost field, not part of the program) the boards that [output]
    was called on, in order. *)
Record World : Type := mkWorld {
  stdout : string;
  reported : list GameState
}.

Definition io (A : Type) : Type := World → World * outcome A.

Definition io_ret {A} (a : A) : io A := λ w, (w, Ret a).

Definition io_bind {A B} (m : io A) (k : A → io B) : io B :=
  λ w, match m w with
       | (w', Ret a) => k a w'
       | (w', Exited) => (w', Exited)
       | (w', Fault) => (w', Fault)
       | (w', OutOfFuel) => (w', OutOfFuel)
       end.

Definition lift {A} (m : outcome A) : io A := λ w, (w, m).

Definition printf (s : string) : io unit :=
  λ w, (mkWorld (stdout w +:+ s) (reported w), Ret tt).

Definition exit {A} : io A := λ w, (w, Exited).

Definition log_report (g : GameState) : io unit :=
  λ w, (mkWorld (stdout w) (reported w ++ [g]), Ret tt).

Declare Scope io_scope.
Delimit Scope io_scope with io.
Notation "'let*' x ':=' m 'in' k" := (io_bind m (λ x, k))
  (at level 10, x name, m at level 100, k at level 200) : io_scope.
Notation "m >> k" := (io_bind m (λ _, k))
  (at level 100, k at level 200, right associativity) : io_scope.
Notation "'let+' x ':=' m 'in' k" := (outcome_bind m (λ x, k))
  (at level 10, x name, m at level 100, k at level 200) : io_scope.
Notation "'let+' ' pat ':=' m 'in' k" :=
  (outcome_bind m (λ x, match x with pat => k end))
  (at level 10, pat pattern, m at level 100, k at level 200) : io_scope.
Local Open Scope io_scope.

(** Dereferencing: a NULL pointer, or an index outside the array, is
    undefined behaviour. *)
Definition deref {A} (p : option A) : outcome A :=
  match p with
  | Some a => Ret a
  | None => Fault
  end.

Definition deck_at (i : N) : option Card := Deck !! N.to_nat i.

(** [s[i]] on a C string: the byte after the last character is NUL. *)
Definition char_at (s : string) (i : nat) : ascii :=
  match String.get i s with
  | Some c => c
  | None => zero
  end.

(** ** PlayedCard *)

Definition NOT_NEIGHBORS : string := "[+] ERROR: getCommonEdge(): not neighbors".

Fixpoint getCommonEdge_loop (rows : list nmap_row) (this other : PlayedCard)
  : io sint :=
  match rows with
  | [] => printf NOT_NEIGHBORS >> exit
  | r :: rows' =>
      if (NMAP_FIRST r =? position this) && (NMAP_SECOND r =? position other)
      then io_ret (NMAP_COMMON_EDGE r)
      else getCommonEdge_loop rows' this other
  end.

Definition getCommonEdge (this other : PlayedCard) : io sint :=
  getCommonEdge_loop NEIGHBORMAP this other.

(** The test on the two labels at the end of [matchesNeighbor]. *)
Definition edges_interlock (e1 e2 : string) : bool :=
  bool_decide (char_at e1 0 = char_at e2 0)
  && negb (bool_decide (char_at e1 1 = char_at e2 1)).

Definition rotated (common_edge rot : sint) : sint :=
  to_sint ((Z.of_N common_edge + Z.of_N rot) mod Z.of_N EDGES_IN_CARD).

Definition edge_of (c : CardPtr) (i : sint) : outcome string :=
  let+ p := deref c in
  let+ cd := deref (deck_at p) in
  deref (edges cd !! N.to_nat i).

Definition matchesNeighbor (this other : PlayedCard) : io bool :=
  match card this with
  | None => io_ret false
  | Some _ =>
      let* common_edge := getCommonEdge this other in
      let own_rotated_common_edge := rotated common_edge (rotation this) in
      let other_rotated_common_edge := rotated common_edge (rotation other) in
      let* e1 := lift (edge_of (card this) own_rotated_common_edge) in
      let* e2 := lift (edge_of (card other) other_rotated_common_edge) in
      if edges_interlock e1 e2 then io_ret true else io_ret false
  end.

(** [rotate] updates the object in place; the model returns the object
    after the call together with the result. *)
Definition rotate (this : PlayedCard) : PlayedCard * bool :=
  if 2 <=? rotation this then (this, false)
  else (mkPlayedCard (to_sint (Z.of_N (rotation this) + 1))
                     (position this) (card this), true).

(** ** GameState *)

(** [n] NULL slots, as [calloc] leaves them. *)
Abbreviation nulls n := (list.replicate n (@None PlayedCard)).

Definition slot_at (board : list (option PlayedCard)) (i : sint)
  : outcome (option PlayedCard) :=
  if i <? CARDS_IN_DECK then deref (board !! N.to_nat i) else Fault.

(** The copy loop stops at the first NULL slot; the slots it has not
    reached keep the zero that [calloc] put there. *)
Fixpoint replicate_slots (src : list (option PlayedCard))
  : list (option PlayedCard) :=
  match src with
  | [] => []
  | None :: rest => None :: nulls (length rest)
  | Some pc :: rest => Some pc :: replicate_slots rest
  end.

Definition replicate (this : GameState) : GameState :=
  mkGameState (nextOnBoard this) (topOfTheDeck this)
              (replicate_slots (cardsOnBoard this)).

Fixpoint isSolved_loop (rows : list nmap_row) (this : GameState)
  (partial : bool) : io bool :=
  match rows with
  | [] => io_ret true
  | r :: rows' =>
      let* c1 := lift (slot_at (cardsOnBoard this) (NMAP_FIRST r)) in
      let* c2 := lift (slot_at (cardsOnBoard this) (NMAP_SECOND r)) in
      match c1, c2 with
      | Some p1, Some p2 =>
          let* ok := matchesNeighbor p1 p2 in
          if ok then isSolved_loop rows' this partial else io_ret false
      | _, _ =>
          if partial then isSolved_loop rows' this partial else io_ret false
      end
  end.

Definition isSolved (this : GameState) (partial : bool) : io bool :=
  isSolved_loop NEIGHBORMAP this partial.

Fixpoint output_loop (i : N) (order : list sint) (this : GameState) : io unit :=
  match order with
  | [] => io_ret tt
  | p :: order' =>
      let* slot := lift (slot_at (cardsOnBoard this) p) in
      let* pc := lift (deref slot) in
      let* ix := lift (deref (card pc)) in
      let* cd := lift (deref (deck_at ix)) in
      printf (name cd) >>
      (if i <? CARDS_IN_DECK - 1 then printf "," else io_ret tt) >>
      output_loop (i + 1) order' this
  end.

Definition newline : string := String (ascii_of_nat 10) EmptyString.

Definition output (this : GameState) : io unit :=
  log_report this >>
  printf "[" >>
  output_loop 0 PRINTORDER this >>
  printf ("]" +:+ newline).

Definition isCardOnBoard (this : GameState) (value : CardPtr) : bool :=
  existsb (λ slot,
             match slot with
             | Some pc =>
                 match card pc with
                 | Some c => bool_decide (Some c = value)
                 | None => false
                 end
             | None => false
             end)
          (cardsOnBoard this).

(** The scan of [nextFromDeck], from index [i], for [n] more indices. *)
Fixpoint nextFromDeck_loop (n : nat) (i : sint) (this : GameState)
  : GameState * CardPtr :=
  match n with
  | O => (this, None)
  | S n' =>
      if isCardOnBoard this (Some i)
      then nextFromDeck_loop n' (i + 1) this
      else (mkGameState (nextOnBoard this) i (cardsOnBoard this), Some i)
  end.

Definition nextFromDeck (this : GameState) : GameState * CardPtr :=
  if CARDS_IN_DECK <=? topOfTheDeck this then (this, None)
  else nextFromDeck_loop (N.to_nat (CARDS_IN_DECK - topOfTheDeck this))
                         (topOfTheDeck this) this.

Definition store_slot (this : GameState) (i : sint) (pc : PlayedCard)
  : outcome GameState :=
  if i <? CARDS_IN_DECK
  then Ret (mkGameState (nextOnBoard this) (topOfTheDeck this)
                        (<[N.to_nat i := Some pc]> (cardsOnBoard this)))
  else Fault.

Definition addNewCard (this : GameState) : outcome (GameState * bool) :=
  let '(this, fromdeck) := nextFromDeck this in
  match fromdeck with
  | None => Ret (this, false)
  | Some _ =>
      let newcard := mkPlayedCard 0 (nextOnBoard this) fromdeck in
      let+ this := store_slot this (position newcard) newcard in
      Ret (mkGameState (to_sint (Z.of_N (nextOnBoard this) + 1))
                       (topOfTheDeck this) (cardsOnBoard this), true)
  end.

(** [replaceCard] writes through [card], which points into the board of
    [this]: the model is told the slot [at] that holds the object. *)
Definition replaceCard (this : GameState) (at_ : sint) (card_ : PlayedCard)
  : outcome (GameState * bool) :=
  let '(this, fromdeck) := nextFromDeck this in
  match fromdeck with
  | None => Ret (this, false)
  | Some _ =>
      let+ this := store_slot this at_
                     (mkPlayedCard 0 (position card_) fromdeck) in
      Ret (this, true)
  end.

Definition last_index (this : GameState) : sint :=
  to_sint (Z.of_N (nextOnBoard this) - 1).

Definition getLastAdded (this : GameState) : outcome (option PlayedCard) :=
  slot_at (cardsOnBoard this) (last_index this).

Definition first (this : GameState) : outcome (option GameState) :=
  let newstate := replicate this in
  let newstate := mkGameState (nextOnBoard newstate) 0 (cardsOnBoard newstate) in
  let+ '(newstate, ok) := addNewCard newstate in
  if ok then Ret (Some newstate) else Ret None.

Definition next (this : GameState) : outcome (option GameState) :=
  let newstate := replicate this in
  let+ slot := getLastAdded newstate in
  let+ card_ := deref slot in
  let '(card_, ok) := rotate card_ in
  if ok then
    let+ newstate := store_slot newstate (last_index newstate) card_ in
    Ret (Some newstate)
  else
    let+ '(newstate, ok) := replaceCard newstate (last_index newstate) card_ in
    if ok then Ret (Some newstate) else Ret None.

(** ** The search

    [solve] calls itself inside a [while] loop.  The model recurses on two
    fuels: [depth] for the nesting of the calls and [width] for the rounds
    of one loop; a run that needs more ends with [OutOfFuel].  On values
    there is nothing to free: [delete] appears in module [Heap] only. *)

Fixpoint solve_loop (rec : GameState → io unit) (n : nat)
  (newstate : option GameState) : io unit :=
  match newstate with
  | None => io_ret tt
  | Some st =>
      match n with
      | O => lift OutOfFuel
      | S n' =>
          rec st >>
          let* nx := lift (next st) in
          solve_loop rec n' nx
      end
  end.

Fixpoint solve (depth width : nat) (game : GameState) : io unit :=
  match depth with
  | O => lift OutOfFuel
  | S depth' =>
      let* ok := isSolved game true in
      if negb ok then io_ret tt
      else
        let* full := isSolved game false in
        (if full then output game else io_ret tt) >>
        let* newstate := lift (first game) in
        solve_loop (solve depth' width) width newstate
  end.

(** The board that [calloc] hands to [main]. *)
Definition empty_game : GameState :=
  mkGameState 0 0 (nulls (N.to_nat CARDS_IN_DECK)).

Definition empty_world : World := mkWorld "" [].

Definition main (depth width : nat) : World * outcome unit :=
  solve depth width empty_game empty_world.

(** * The same operations on a store

    [first] and [next] work on a copy of their argument.  To say that the
    argument is left alone, the objects have to be kept apart from the
    pointers to them: module [Heap] keeps the [PlayedCard] and [GameState]
    objects in a store, a [GameState] holds the addresses of its
    placements, and the operations read and write the store as the C code
    does.  [malloc] and [calloc] return an address that is not in use. *)

Module Heap.

Definition loc : Type := positive.

(** A [GameState] object in the store: [cardsOnBoard] is an array of
    [PlayedCard*]. *)
Record State : Type := mkState {
  nextOnBoard : sint;
  topOfTheDeck : sint;
  cardsOnBoard : list (option loc)
}.

Record heap : Type := mkHeap {
  cards : gmap loc PlayedCard;
  states : gmap loc State
}.

Definition mem (A : Type) : Type := heap → outcome (A * heap).

Definition mem_ret {A} (a : A) : mem A := λ h, Ret (a, h).

Definition mem_bind {A B} (m : mem A) (k : A → mem B) : mem B :=
  λ h, match m h with
       | Ret (a, h') => k a h'
       | Exited => Exited
       | Fault => Fault
       | OutOfFuel => OutOfFuel
       end.

Definition mem_lift {A} (m : outcome A) : mem A :=
  λ h, outcome_bind m (λ a, Ret (a, h)).

Notation "'let!' x ':=' m 'in' k" := (mem_bind m (λ x, k))
  (at level 10, x name, m at level 100, k at level 200) : io_scope.
Notation "m >>> k" := (mem_bind m (λ _, k))
  (at level 100, k at level 200, right associativity) : io_scope.

(** *** Objects *)

Definition load_card (l : loc) : mem PlayedCard :=
  λ h, match cards h !! l with
       | Some pc => Ret (pc, h)
       | None => Fault
       end.

Definition store_card (l : loc) (pc : PlayedCard) : mem unit :=
  λ h, match cards h !! l with
       | Some _ => Ret (tt, mkHeap (<[l := pc]> (cards h)) (states h))
       | None => Fault
       end.

(** [malloc(sizeof(PlayedCard))]: an unused address; the content is
    written by the caller. *)
Definition malloc_card : mem loc :=
  λ h, let l := fresh (dom (cards h)) in
       Ret (l, mkHeap (<[l := mkPlayedCard 0 0 None]> (cards h)) (states h)).

Definition free_card (l : loc) : mem unit :=
  λ h, match cards h !! l with
       | Some _ => Ret (tt, mkHeap (base.delete l (cards h)) (states h))
       | None => Fault
       end.

Definition load_state (l : loc) : mem State :=
  λ h, match states h !! l with
       | Some g => Ret (g, h)
       | None => Fault
       end.

Definition store_state (l : loc) (g : State) : mem unit :=
  λ h, match states h !! l with
       | Some _ => Ret (tt, mkHeap (cards h) (<[l := g]> (states h)))
       | None => Fault
       end.

(** [calloc(1, sizeof(GameState))]: an unused address, all bytes zero. *)
Definition calloc_state : mem loc :=
  λ h, let l := fresh (dom (states h)) in
       Ret (l, mkHeap (cards h)
                 (<[l := mkState 0 0
                           (list.replicate (N.to_nat CARDS_IN_DECK) None)]>
                    (states h))).

Definition free_state (l : loc) : mem unit :=
  λ h, match states h !! l with
       | Some _ => Ret (tt, mkHeap (cards h) (base.delete l (states h)))
       | None => Fault
       end.

(** *** PlayedCard *)

Definition rotate (this : option loc) : mem bool :=
  let! l := mem_lift (deref this) in
  let! pc := load_card l in
  if 2 <=? rotation pc then mem_ret false
  else
    store_card l (mkPlayedCard (to_sint (Z.of_N (rotation pc) + 1))
                               (position pc) (card pc)) >>>
    mem_ret true.

(** *** GameState *)

Definition slot_at (board : list (option loc)) (i : sint)
  : outcome (option loc) :=
  if i <? CARDS_IN_DECK then deref (board !! N.to_nat i) else Fault.

(** The loop of [replicate]: a new object for every slot up to the first
    NULL; the other slots of the new array stay zero. *)
Fixpoint replicate_slots (src : list (option loc)) : mem (list (option loc)) :=
  match src with
  | [] => mem_ret []
  | None :: rest => mem_ret (None :: list.replicate (length rest) None)
  | Some l :: rest =>
      let! l' := malloc_card in
      let! pc := load_card l in
      store_card l' pc >>>
      let! rest' := replicate_slots rest in
      mem_ret (Some l' :: rest')
  end.

Definition replicate (this : loc) : mem loc :=
  let! newstate := calloc_state in
  let! src := load_state this in
  let! slots := replicate_slots (cardsOnBoard src) in
  store_state newstate
    (mkState (nextOnBoard src) (topOfTheDeck src) slots) >>>
  mem_ret newstate.

Fixpoint delete_slots (slots : list (option loc)) : mem unit :=
  match slots with
  | [] => mem_ret tt
  | None :: rest => delete_slots rest
  | Some l :: rest => free_card l >>> delete_slots rest
  end.

Definition delete (this : loc) : mem unit :=
  let! g := load_state this in
  delete_slots (cardsOnBoard g) >>>
  free_state this.

Fixpoint isCardOnBoard_loop (slots : list (option loc)) (value : CardPtr)
  : mem bool :=
  match slots with
  | [] => mem_ret false
  | None :: rest => isCardOnBoard_loop rest value
  | Some l :: rest =>
      let! pc := load_card l in
      match card pc with
      | Some c =>
          if bool_decide (Some c = value) then mem_ret true
          else isCardOnBoard_loop rest value
      | None => isCardOnBoard_loop rest value
      end
  end.

Definition isCardOnBoard (this : loc) (value : CardPtr) : mem bool :=
  let! g := load_state this in
  isCardOnBoard_loop (cardsOnBoard g) value.

Fixpoint nextFromDeck_loop (n : nat) (i : sint) (this : loc) : mem CardPtr :=
  match n with
  | O => mem_ret None
  | S n' =>
      let! found := isCardOnBoard this (Some i) in
      if found then nextFromDeck_loop n' (i + 1) this
      else
        let! g := load_state this in
        store_state this (mkState (nextOnBoard g) i (cardsOnBoard g)) >>>
        mem_ret (Some i)
  end.

Definition nextFromDeck (this : loc) : mem CardPtr :=
  let! g := load_state this in
  if CARDS_IN_DECK <=? topOfTheDeck g then mem_ret None
  else nextFromDeck_loop (N.to_nat (CARDS_IN_DECK - topOfTheDeck g))
                         (topOfTheDeck g) this.

Definition addNewCard (this : loc) : mem bool :=
  let! fromdeck := nextFromDeck this in
  match fromdeck with
  | None => mem_ret false
  | Some _ =>
      let! newcard := malloc_card in
      let! g := load_state this in
      store_card newcard (mkPlayedCard 0 (nextOnBoard g) fromdeck) >>>
      (if nextOnBoard g <? CARDS_IN_DECK
       then store_state this
              (mkState (nextOnBoard g) (topOfTheDeck g)
                 (<[N.to_nat (nextOnBoard g) := Some newcard]> (cardsOnBoard g)))
       else mem_lift Fault) >>>
      let! g := load_state this in
      store_state this
        (mkState (to_sint (Z.of_N (nextOnBoard g) + 1))
                     (topOfTheDeck g) (cardsOnBoard g)) >>>
      mem_ret true
  end.

Definition replaceCard (this : loc) (card_ : loc) : mem bool :=
  let! fromdeck := nextFromDeck this in
  match fromdeck with
  | None => mem_ret false
  | Some _ =>
      let! pc := load_card card_ in
      store_card card_ (mkPlayedCard 0 (position pc) fromdeck) >>>
      mem_ret true
  end.

Definition getLastAdded (this : loc) : mem (option loc) :=
  let! g := load_state this in
  mem_lift (slot_at (cardsOnBoard g) (to_sint (Z.of_N (nextOnBoard g) - 1))).

Definition first (this : loc) : mem (option loc) :=
  let! newstate := replicate this in
  let! g := load_state newstate in
  store_state newstate (mkState (nextOnBoard g) 0 (cardsOnBoard g)) >>>
  let! ok := addNewCard newstate in
  if ok then mem_ret (Some newstate)
  else delete newstate >>> mem_ret None.

Definition next (this : loc) : mem (option loc) :=
  let! newstate := replicate this in
  let! card_ := getLastAdded newstate in
  let! ok := rotate card_ in
  if ok then mem_ret (Some newstate)
  else
    let! l := mem_lift (deref card_) in
    let! ok := replaceCard newstate l in
    if ok then mem_ret (Some newstate)
    else delete newstate >>> mem_ret None.

(** *** The search, with its output *)

Definition proc (A : Type) : Type :=
  World → heap → World * outcome (A * heap).

Definition proc_ret {A} (a : A) : proc A := λ w h, (w, Ret (a, h)).

Definition proc_bind {A B} (m : proc A) (k : A → proc B) : proc B :=
  λ w h, match m w h with
         | (w', Ret (a, h')) => k a w' h'
         | (w', Exited) => (w', Exited)
         | (w', Fault) => (w', Fault)
         | (w', OutOfFuel) => (w', OutOfFuel)
         end.

Definition run_mem {A} (m : mem A) : proc A := λ w h, (w, m h).

Definition run_io {A} (m : io A) : proc A :=
  λ w h, match m w with
         | (w', r) => (w', outcome_bind r (λ a, Ret (a, h)))
         end.

Notation "'let#' x ':=' m 'in' k" := (proc_bind m (λ x, k))
  (at level 10, x name, m at level 100, k at level 200) : io_scope.
Notation "m >># k" := (proc_bind m (λ _, k))
  (at level 100, k at level 200, right associativity) : io_scope.

Definition matchesNeighbor (this other : loc) : proc bool :=
  let# p1 := run_mem (load_card this) in
  match card p1 with
  | None => proc_ret false
  | Some _ =>
      let# p2 := run_mem (load_card other) in
      run_io (matchesNeighbor p1 p2)
  end.

Fixpoint isSolved_loop (rows : list nmap_row) (this : loc) (partial : bool)
  : proc bool :=
  match rows with
  | [] => proc_ret true
  | r :: rows' =>
      let# g := run_mem (load_state this) in
      let# c1 := run_mem (mem_lift (slot_at (cardsOnBoard g) (NMAP_FIRST r))) in
      let# c2 := run_mem (mem_lift (slot_at (cardsOnBoard g) (NMAP_SECOND r))) in
      match c1, c2 with
      | Some l1, Some l2 =>
          let# ok := matchesNeighbor l1 l2 in
          if ok then isSolved_loop rows' this partial else proc_ret false
      | _, _ =>
          if partial then isSolved_loop rows' this partial else proc_ret false
      end
  end.

Definition isSolved (this : loc) (partial : bool) : proc bool :=
  isSolved_loop NEIGHBORMAP this partial.

(** The value a state object stands for (used for the ghost field of the
    world only). *)
Definition abs_slot (h : heap) (p : option loc) : option (option PlayedCard) :=
  match p with
  | None => Some None
  | Some l => Some <$> cards h !! l
  end.

Definition abs (h : heap) (s : loc) : option GameState :=
  obj ← states h !! s;
  board ← mapM (abs_slot h) (cardsOnBoard obj);
  Some (mkGameState (nextOnBoard obj) (topOfTheDeck obj) board).

Definition ghost_report (this : loc) : proc unit :=
  λ w h, match abs h this with
         | Some g => run_io (log_report g) w h
         | None => (w, Ret (tt, h))
         end.

Fixpoint output_loop (i : N) (order : list sint) (this : loc) : proc unit :=
  match order with
  | [] => proc_ret tt
  | p :: order' =>
      let# g := run_mem (load_state this) in
      let# slot := run_mem (mem_lift (slot_at (cardsOnBoard g) p)) in
      let# l := run_mem (mem_lift (deref slot)) in
      let# pc := run_mem (load_card l) in
      let# ix := run_mem (mem_lift (deref (card pc))) in
      let# cd := run_mem (mem_lift (deref (deck_at ix))) in
      run_io (printf (name cd)) >>#
      (if i <? CARDS_IN_DECK - 1 then run_io (printf ",") else proc_ret tt) >>#
      output_loop (i + 1) order' this
  end.

Definition output (this : loc) : proc unit :=
  ghost_report this >>#
  run_io (printf "[") >>#
  output_loop 0 PRINTORDER this >>#
  run_io (printf ("]" +:+ newline)).

Fixpoint solve_loop (rec : loc → proc unit) (n : nat) (newstate : option loc)
  : proc unit :=
  match newstate with
  | None => proc_ret tt
  | Some st =>
      match n with
      | O => run_mem (mem_lift OutOfFuel)
      | S n' =>
          rec st >>#
          let# nx := run_mem (next st) in
          run_mem (delete st) >>#
          solve_loop rec n' nx
      end
  end.

Fixpoint solve (depth width : nat) (game : loc) : proc unit :=
  match depth with
  | O => run_mem (mem_lift OutOfFuel)
  | S depth' =>
      let# ok := isSolved game true in
      if negb ok then proc_ret tt
      else
        let# full := isSolved game false in
        (if full then output game else proc_ret tt) >>#
        let# newstate := run_mem (first game) in
        solve_loop (solve depth' width) width newstate
  end.

Definition main (depth width : nat) : proc unit :=
  let# game := run_mem calloc_state in
  solve depth width game >>#
  run_mem (delete game).

End Heap.

(** * The C++ rendering

    [megakolmio.cpp] is the same program with classes.  [rotate] and the
    state transitions read as in the C file; the neighbour table is an
    [unordered_map] from the two position digits to the common edge,
    [matchesNeighbor] indexes it with [operator[]], which inserts a
    missing key with value 0 instead of failing, and [isSolved] iterates
    over its entries, in whatever order the map yields them. *)

Module Cpp.

(** [std::to_string] of a position. *)
Definition to_string (n : sint) : string :=
  NilZero.string_of_uint (N.to_uint n).

Definition NEIGHBORMAP : gmap string sint :=
  list_to_map
    [ ("01", 0); ("02", 1); ("06", 2); ("15", 2); ("23", 2);
      ("34", 0); ("37", 1); ("45", 1); ("58", 0) ]%string.

(** [map[key]]. *)
Definition index (m : gmap string sint) (key : string)
  : gmap string sint * sint :=
  match m !! key with
  | Some v => (m, v)
  | None => (<[key := 0]> m, 0)
  end.

Definition matchesNeighbor (this other : PlayedCard) (m : gmap string sint)
  : gmap string sint * outcome bool :=
  match card this with
  | None => (m, Ret false)
  | Some _ =>
      let '(m, common_edge) :=
        index m (to_string (position this) +:+ to_string (position other)) in
      let own_rotated_common_edge := rotated common_edge (rotation this) in
      let other_rotated_common_edge := rotated common_edge (rotation other) in
      (m,
       let+ e1 := edge_of (card this) own_rotated_common_edge in
       let+ e2 := edge_of (card other) other_rotated_common_edge in
       if edges_interlock e1 e2 then Ret true else Ret false)
  end.

(** [s[i]] on a [std::string]: the character at [size()] is NUL, reading
    beyond it is undefined. *)
Definition str_at (s : string) (i : nat) : outcome ascii :=
  if decide (i ≤ String.length s)%nat then Ret (char_at s i) else Fault.

(** [c - '0'], stored in a [sint]. *)
Definition digit (c : ascii) : sint := to_sint (Z.of_N (N_of_ascii c) - 48).

(** The loop of [isSolved] over the entries of the map, in the order
    [entries] in which the iteration yields them.  [matchesNeighbor] may
    insert into the map it iterates over; an insertion can rehash, and
    the iterator of the loop is then invalid: the model reports a step
    of the loop after an insertion as [Fault]. *)
Fixpoint isSolved_loop (entries : list (string * sint)) (this : GameState)
  (partial : bool) (m : gmap string sint) : gmap string sint * outcome bool :=
  match entries with
  | [] => (m, Ret true)
  | (key, _) :: rest =>
      match (let+ k0 := str_at key 0 in
             let+ k1 := str_at key 1 in
             let+ c1 := slot_at (cardsOnBoard this) (digit k0) in
             let+ c2 := slot_at (cardsOnBoard this) (digit k1) in
             Ret (c1, c2)) with
      | Ret (Some p1, Some p2) =>
          match matchesNeighbor p1 p2 m with
          | (m', Ret true) =>
              if decide (m' = m) then isSolved_loop rest this partial m
              else (m', Fault)
          | (m', r) => (m', r)
          end
      | Ret _ =>
          if partial then isSolved_loop rest this partial m
          else (m, Ret false)
      | Exited => (m, Exited)
      | Fault => (m, Fault)
      | OutOfFuel => (m, OutOfFuel)
      end
  end.

(** [isSolved], for an iteration that yields the entries of the map in the
    order [order] (some enumeration of the map: an [unordered_map] does
    not say which). *)
Definition isSolved (order : list (string * sint)) (this : GameState)
  (partial : bool) (m : gmap string sint) : gmap string sint * outcome bool :=
  isSolved_loop order this partial m.

(** *** The search

    [first], [next] and [output] read as in the C file; the process has
    one more piece of state, the map.  [solve] and [main] thread it
    through the calls of [isSolved]. *)

Definition proc (A : Type) : Type :=
  World → gmap string sint → World * gmap string sint * outcome A.

Definition proc_ret {A} (a : A) : proc A := λ w m, (w, m, Ret a).

Definition proc_bind {A B} (c : proc A) (k : A → proc B) : proc B :=
  λ w m, match c w m with
         | (w', m', Ret a) => k a w' m'
         | (w', m', Exited) => (w', m', Exited)
         | (w', m', Fault) => (w', m', Fault)
         | (w', m', OutOfFuel) => (w', m', OutOfFuel)
         end.

Definition run_io {A} (c : io A) : proc A :=
  λ w m, match c w with (w', r) => (w', m, r) end.

Definition run_map {A} (c : gmap string sint → gmap string sint * outcome A)
  : proc A :=
  λ w m, match c m with (m', r) => (w, m', r) end.

Notation "'let$' x ':=' c 'in' k" := (proc_bind c (λ x, k))
  (at level 10, x name, c at level 100, k at level 200) : io_scope.
Notation "c >>$ k" := (proc_bind c (λ _, k))
  (at level 100, k at level 200, right associativity) : io_scope.

Section iteration.

(** The order in which a range-for yields the entries of a map. *)
Variable order : gmap string sint → list (string * sint).

Fixpoint solve_loop (rec : GameState → proc unit) (n : nat)
  (newstate : option GameState) : proc unit :=
  match newstate with
  | None => proc_ret tt
  | Some st =>
      match n with
      | O => run_io (lift OutOfFuel)
      | S n' =>
          rec st >>$
          let$ nx := run_io (lift (next st)) in
          solve_loop rec n' nx
      end
  end.

Fixpoint solve (depth width : nat) (game : GameState) : proc unit :=
  match depth with
  | O => run_io (lift OutOfFuel)
  | S depth' =>
      let$ ok := run_map (λ m, isSolved (order m) game true m) in
      if negb ok then proc_ret tt
      else
        let$ full := run_map (λ m, isSolved (order m) game false m) in
        (if full then run_io (output game) else proc_ret tt) >>$
        let$ newstate := run_io (lift (first game)) in
        solve_loop (solve depth' width) width newstate
  end.

Definition main (depth width : nat)
  : World * gmap string sint * outcome unit :=
  solve depth width empty_game empty_world NEIGHBORMAP.

End iteration.

End Cpp.

(** * Specification

    The notions the properties below are stated with. *)

(** ** Boards *)

(** The world after [getCommonEdge] has written its diagnostic. *)
Definition not_neighbors_world (w : World) : World :=
  mkWorld (stdout w +:+ NOT_NEIGHBORS) (reported w).

(** The card [&Deck[i]] lies on the board of [g]. *)
Definition on_board (g : GameState) (i : N) : Prop :=
  ∃ pc, Some pc ∈ cardsOnBoard g ∧ card pc = Some i.

(** [g] with [topOfTheDeck] set to [i]. *)
Definition set_top (g : GameState) (i : sint) : GameState :=
  mkGameState (nextOnBoard g) i (cardsOnBoard g).

(** The board whose first slots hold [placed], in order, and whose other
    slots are NULL. *)
Definition board_of (placed : list PlayedCard) : list (option PlayedCard) :=
  (Some <$> placed) ++ nulls (N.to_nat CARDS_IN_DECK - length placed).

(** [Inv s placed]: the board of [s] holds exactly the placements
    [placed], at positions 0, 1, ... in this order; each knows its
    position, holds a card of the deck and is turned at most twice; no card
    lies on the board twice; and [topOfTheDeck] is the index of the card
    placed last. *)
Record Inv (s : GameState) (placed : list PlayedCard) : Prop := mkInv {
  inv_board : cardsOnBoard s = board_of placed;
  inv_next : nextOnBoard s = N.of_nat (length placed);
  inv_len : (length placed ≤ 9)%nat;
  inv_pos : ∀ (i : nat) pc, placed !! i = Some pc → position pc = N.of_nat i;
  inv_card : ∀ pc, pc ∈ placed → ∃ c, card pc = Some c ∧ c < CARDS_IN_DECK;
  inv_rot : ∀ pc, pc ∈ placed → rotation pc ≤ 2;
  inv_nodup : NoDup (card <$> placed);
  inv_top : ∀ pc, last placed = Some pc → card pc = Some (topOfTheDeck s)
}.

(** A board derived from the empty one by [first] and [next]. *)
Inductive reachable : GameState → Prop :=
  | reachable_empty : reachable empty_game
  | reachable_first s s' :
      reachable s → first s = Ret (Some s') → reachable s'
  | reachable_next s s' :
      reachable s → next s = Ret (Some s') → reachable s'.

(** How far the last position is in its chain of candidates: three steps
    per card of the deck, one per rotation. *)
Definition chain_rank (pc : PlayedCard) : N :=
  match card pc with
  | Some c => 3 * c + rotation pc
  | None => 0
  end.

(** The boards [next] yields one after another, starting after [s]. *)
Fixpoint next_chain (n : nat) (s : GameState) : outcome (list GameState) :=
  match n with
  | O => OutOfFuel
  | S n' =>
      let+ nx := next s in
      match nx with
      | None => Ret []
      | Some s' => let+ l := next_chain n' s' in Ret (s' :: l)
      end
  end.

(** The boards [first] yields one below the other, starting below [s]. *)
Fixpoint first_chain (n : nat) (s : GameState) : outcome (list GameState) :=
  match n with
  | O => OutOfFuel
  | S n' =>
      let+ nx := first s in
      match nx with
      | None => Ret []
      | Some s' => let+ l := first_chain n' s' in Ret (s' :: l)
      end
  end.



(** ** The output contract *)

(** The line the output contract asks for, from the names to print: an
    opening bracket, the names separated by commas, a closing bracket and
    a newline. *)
Definition solution_line (names : list string) : string :=
  "[" +:+ String.concat "," names +:+ "]" +:+ newline.

(** The names of the cards that lie at the positions of [PRINTORDER], in
    that order; [None] when one of the positions has no card. *)
Definition printed_names (g : GameState) : option (list string) :=
  mapM (λ p : sint,
          slot ← cardsOnBoard g !! N.to_nat p;
          pc ← slot;
          c ← card pc;
          name <$> deck_at c)
       PRINTORDER.



(** The world at the end of the run of [main], as the model computes it. *)
Definition main_world : World := Eval vm_compute in (main 10 27).1.

(** ** A state in the store and the value it stands for *)

(** The pointer [p] of a slot stands for the slot value [v]. *)
Definition slot_rep (m : gmap Heap.loc PlayedCard) (p : option Heap.loc)
  (v : option PlayedCard) : Prop :=
  match p, v with
  | None, None => True
  | Some l, Some pc => m !! l = Some pc
  | _, _ => False
  end.

(** The object at [s] stands for the board state [g]: same cursors, and
    every slot points to a placement with the content [g] has there. *)
Definition rep (h : Heap.heap) (s : Heap.loc) (g : GameState) : Prop :=
  ∃ slots,
    Heap.states h !! s
    = Some (Heap.mkState (nextOnBoard g) (topOfTheDeck g) slots)
    ∧ Forall2 (slot_rep (Heap.cards h)) slots (cardsOnBoard g).

(** Every object of [h] is in [h'], with the same content. *)
Definition preserved (h h' : Heap.heap) : Prop :=
  Heap.cards h ⊆ Heap.cards h' ∧ Heap.states h ⊆ Heap.states h'.

(** The addresses in an array of slots. *)
Definition slot_locs (slots : list (option Heap.loc)) : list Heap.loc :=
  omap id slots.

Arguments slot_locs : simpl never.

(** The state at [r] in [h] stands for [g] and is apart from the store
    [h0]: all of [h0] is still there, neither the object at [r] nor any of
    its placements was in use in [h0], and its slots point to different
    objects. *)
Definition owned (h0 h : Heap.heap) (r : Heap.loc)
  (slots : list (option Heap.loc)) (g : GameState) : Prop :=
  preserved h0 h
  ∧ Heap.states h0 !! r = None
  ∧ Heap.states h !! r
    = Some (Heap.mkState (nextOnBoard g) (topOfTheDeck g) slots)
  ∧ Forall2 (slot_rep (Heap.cards h)) slots (cardsOnBoard g)
  ∧ Forall (λ l, Heap.cards h0 !! l = None) (slot_locs slots)
  ∧ NoDup (slot_locs slots).

(** The state at [r] in [h'] shares no object with the store [h]: its
    address and the addresses in its slots were not in use in [h], and no
    two of its slots point to the same placement. *)
Definition apart (h h' : Heap.heap) (r : Heap.loc) : Prop :=
  Heap.states h !! r = None
  ∧ ∃ obj,
      Heap.states h' !! r = Some obj
      ∧ Forall (λ l, Heap.cards h !! l = None)
               (slot_locs (Heap.cardsOnBoard obj))
      ∧ NoDup (slot_locs (Heap.cardsOnBoard obj)).

(** The result of code that only reads the store [h]. *)
Definition attach {A} (h : Heap.heap) (x : World * outcome A)
  : World * outcome (A * Heap.heap) :=
  (x.1, outcome_bind x.2 (λ a, Ret (a, h))).

(** On the store [h], [hm] does what [pm] does and leaves [h] as it is. *)
Definition reads {A} (h : Heap.heap) (hm : Heap.proc A) (pm : io A) : Prop :=
  ∀ w, hm w h = attach h (pm w).

(** What a transition on the store has to do, given what the transition
    on values does: return a state of its own that stands for the
    successor, or NULL, with every object of the store before the call
    still in place and unchanged. *)
Definition transition_frame (pure : outcome (option GameState))
  (run : outcome (option Heap.loc * Heap.heap))
  (h : Heap.heap) (s : Heap.loc) (g : GameState) : Prop :=
  match pure with
  | Ret (Some g') =>
      ∃ h' r, run = Ret (Some r, h')
              ∧ preserved h h' ∧ rep h' s g ∧ rep h' r g' ∧ apart h h' r
  | Ret None => ∃ h', run = Ret (None, h') ∧ preserved h h' ∧ rep h' s g
  | Fault => run = Fault
  | _ => False
  end.

(** A store with one state: P1 at position 0, not turned. *)
Definition sample_heap : Heap.heap :=
  Heap.mkHeap
    {[ 1%positive := mkPlayedCard 0 0 (Some 0) ]}
    {[ 1%positive :=
         Heap.mkState 1 0 (Some 1%positive :: list.replicate 8 None) ]}.

(** The board state that store stands for. *)
Definition sample_game : GameState :=
  mkGameState 1 0 (Some (mkPlayedCard 0 0 (Some 0)) :: nulls 8).

(** ** The checks as tests on the placements *)

(** The two labels of [p1] and [p2] at the common edge [c] interlock. *)
Definition pair_matches (c : sint) (p1 p2 : PlayedCard) : bool :=
  match edge_of (card p1) (rotated c (rotation p1)),
        edge_of (card p2) (rotated c (rotation p2)) with
  | Ret e1, Ret e2 => edges_interlock e1 e2
  | _, _ => false
  end.

(** What [isSolved] asks of one row of [NEIGHBORMAP], for the placements
    [placed] at positions 0, 1, ...: both positions are filled and the
    placements match, or, in a partial check, one of them is not filled. *)
Definition row_ok (placed : list PlayedCard) (partial : bool) (r : nmap_row)
  : bool :=
  match placed !! N.to_nat (NMAP_FIRST r), placed !! N.to_nat (NMAP_SECOND r) with
  | Some p1, Some p2 => pair_matches (NMAP_COMMON_EDGE r) p1 p2
  | _, _ => partial
  end.


(** ** The candidates for the next position *)

(** The indices of the deck from [a] on whose card [placed] does not hold,
    in increasing order. *)
Definition free_from (placed : list PlayedCard) (a : N) : list N :=
  filter (λ c, Some c ∉ card <$> placed)
         (N.of_nat <$> seq (N.to_nat a) (N.to_nat CARDS_IN_DECK - N.to_nat a)).

(** Card [c] at position [pos], once for each rotation of [rs]. *)
Definition placements (pos : sint) (rs : list sint) (c : N) : list PlayedCard :=
  (λ r, mkPlayedCard r pos (Some c)) <$> rs.

(** Every card that [placed] leaves in the deck, in the order of the deck,
    each in rotation 0, 1 and 2, at the position after [placed]. *)
Definition candidates (placed : list PlayedCard) : list PlayedCard :=
  free_from placed 0 ≫= placements (N.of_nat (length placed)) [0; 1; 2].

(** The board with [pc] put after [placed]. *)
Definition child (placed : list PlayedCard) (pc : PlayedCard) : GameState :=
  mkGameState (N.of_nat (length placed) + 1) (default 0 (card pc))
              (board_of (placed ++ [pc])).

(** The values that [newstate] takes in the loop of [solve] on [g]: what
    [first] yields, and then what [next] yields one after the other. *)
Definition tried (n : nat) (g : GameState) : outcome (list GameState) :=
  let+ f := first g in
  match f with
  | None => Ret []
  | Some s => let+ l := next_chain n s in Ret (s :: l)
  end.

(** [rec] on each board of [l], in order. *)
Fixpoint run_all (rec : GameState → io unit) (l : list GameState) : io unit :=
  match l with
  | [] => io_ret tt
  | s :: l' => rec s >> run_all rec l'
  end.

(** An action that only adds to the log of reports. *)
Definition grows {A} (m : io A) : Prop :=
  ∀ w w' r, m w = (w', r) → reported w `prefix_of` reported w'.


(** The placements on a board, in the order of the positions. *)
Definition placed_on (g : GameState) : list PlayedCard :=
  omap id (cardsOnBoard g).

(** The invariant [Inv], as a test. *)
Definition Inv_check (g : GameState) (placed : list PlayedCard) : bool :=
  bool_decide
    (cardsOnBoard g = board_of placed
     ∧ nextOnBoard g = N.of_nat (length placed)
     ∧ (length placed ≤ 9)%nat
     ∧ position <$> placed = N.of_nat <$> seq 0 (length placed)
     ∧ Forall (λ pc, is_Some (card pc) ∧ default 9 (card pc) < CARDS_IN_DECK)
              placed
     ∧ Forall (λ pc, rotation pc ≤ 2) placed
     ∧ NoDup (card <$> placed)
     ∧ (last placed = None
        ∨ card <$> last placed = Some (Some (topOfTheDeck g)))).

(** ** The C++ table *)

(** The entries [NEIGHBORMAP] of the C++ file is initialised with. *)
Definition Cpp_entries : list (string * sint) :=
  [ ("01", 0); ("02", 1); ("06", 2); ("15", 2); ("23", 2);
    ("34", 0); ("37", 1); ("45", 1); ("58", 0) ]%string.

(** The row of the C table that an entry of the C++ map stands for. *)
Definition row_of (e : string * sint) : nmap_row :=
  (Cpp.digit (char_at e.1 0), Cpp.digit (char_at e.1 1), e.2).

(** The key the C++ [matchesNeighbor] looks up. *)
Definition Cpp_key (this other : PlayedCard) : string :=
  Cpp.to_string (position this) +:+ Cpp.to_string (position other).

(** The comparison at the end of [matchesNeighbor], for common edge [c]. *)
Definition compare_edges (c : sint) (this other : PlayedCard) : outcome bool :=
  let+ e1 := edge_of (card this) (rotated c (rotation this)) in
  let+ e2 := edge_of (card other) (rotated c (rotation other)) in
  Ret (edges_interlock e1 e2).



(** ** What a call changes in the store *)

(** [h'] differs from [h] at most in the placements at [L] and in the
    state objects at [R]. *)
Definition touches (L R : list Heap.loc) (h h' : Heap.heap) : Prop :=
  (∀ l, l ∉ L → Heap.cards h' !! l = Heap.cards h !! l)
  ∧ (∀ r, r ∉ R → Heap.states h' !! r = Heap.states h !! r).

(** What a transition on the store allocates, given what the transition
    on values does: a returned state is a state of its own on top of [h],
    and the store differs from [h] in that state object and its
    placements alone; when NULL is returned the store is [h] again. *)
Definition transition_exact (pure : outcome (option GameState))
  (run : outcome (option Heap.loc * Heap.heap)) (h : Heap.heap) : Prop :=
  match pure with
  | Ret (Some g') =>
      ∃ h' r slots,
        run = Ret (Some r, h')
        ∧ owned h h' r slots g'
        ∧ touches (slot_locs slots) [r] h h'
  | Ret None => run = Ret (None, h)
  | Fault => run = Fault
  | _ => False
  end.



(** The name [output] prints for the card pointer [c]. *)
Definition name_of (c : CardPtr) : option string :=
  i ← c; name <$> deck_at i.



(** * Properties *)

(** ** Running the monad *)

Lemma io_bind_ret {A B} (m : io A) (k : A → io B) w w' a :
  m w = (w', Ret a) → io_bind m k w = k a w'.
Proof. intros H. unfold io_bind. by rewrite H. Qed.

Lemma io_bind_exited {A B} (m : io A) (k : A → io B) w w' :
  m w = (w', Exited) → io_bind m k w = (w', Exited).
Proof. intros H. unfold io_bind. by rewrite H. Qed.

Lemma io_bind_inv {A B} (m : io A) (k : A → io B) w w2 b :
  io_bind m k w = (w2, Ret b) →
  ∃ w1 a, m w = (w1, Ret a) ∧ k a w1 = (w2, Ret b).
Proof.
  unfold io_bind. destruct (m w) as [w1 [a| | |]]; intros H; try discriminate.
  by exists w1, a.
Qed.

(** ** Arithmetic of [sint] *)

Lemma to_sint_succ (n : N) : n < 255 → to_sint (Z.of_N n + 1) = n + 1.
Proof.
  intros H. unfold to_sint. rewrite Z.mod_small by lia. lia.
Qed.

Lemma to_sint_pred (n : N) : 1 ≤ n → n ≤ 256 → to_sint (Z.of_N n - 1) = n - 1.
Proof.
  intros H1 H2. unfold to_sint. rewrite Z.mod_small by lia. lia.
Qed.

Lemma rotated_mod (c r : sint) : rotated c r = (c + r) mod 3.
Proof.
  unfold rotated, to_sint, EDGES_IN_CARD.
  change (Z.of_N 3) with 3%Z.
  assert (0 ≤ (Z.of_N c + Z.of_N r) mod 3 < 3)%Z as Hb
    by (apply Z.mod_pos_bound; lia).
  rewrite (Z.mod_small _ 256) by lia.
  rewrite <- N2Z.inj_add.
  change 3%Z with (Z.of_N 3). rewrite <- N2Z.inj_mod. apply N2Z.id.
Qed.

Lemma rotated_lt (c r : sint) : rotated c r < 3.
Proof. rewrite rotated_mod. apply N.mod_lt. lia. Qed.

(** ** The tables *)

Lemma NEIGHBORMAP_size : length NEIGHBORMAP = N.to_nat NMAP_SIZE.
Proof. reflexivity. Qed.

Lemma NEIGHBORMAP_keys_NoDup : NoDup (NEIGHBORMAP.*1).
Proof. apply (bool_decide_unpack _). vm_compute. exact I. Qed.

Lemma NEIGHBORMAP_ordered r :
  r ∈ NEIGHBORMAP →
  NMAP_FIRST r < NMAP_SECOND r ∧ NMAP_SECOND r < CARDS_IN_DECK
  ∧ NMAP_COMMON_EDGE r < EDGES_IN_CARD.
Proof.
  revert r. apply Forall_forall.
  unfold NEIGHBORMAP, NMAP_FIRST, NMAP_SECOND, NMAP_COMMON_EDGE,
    CARDS_IN_DECK, EDGES_IN_CARD.
  repeat (constructor; [simpl; lia|]). constructor.
Qed.

Lemma Deck_three_edges i cd :
  deck_at i = Some cd → length (edges cd) = 3%nat.
Proof.
  unfold deck_at. intros H.
  assert (Forall (λ c, length (edges c) = 3%nat) Deck) as HF
    by (unfold Deck; repeat constructor).
  by eapply (Forall_lookup_1 _ _ _ _ HF).
Qed.

Lemma deck_at_lt i : is_Some (deck_at i) ↔ i < CARDS_IN_DECK.
Proof.
  unfold deck_at, CARDS_IN_DECK. rewrite lookup_lt_is_Some.
  change (length Deck) with 9%nat. lia.
Qed.

(** ** getCommonEdge *)

Lemma getCommonEdge_loop_found rows this other c w :
  NoDup (rows.*1) →
  (position this, position other, c) ∈ rows →
  getCommonEdge_loop rows this other w = (w, Ret c).
Proof.
  induction rows as [|[[a b] c'] rows IH]; simpl; intros Hnd Hin.
  - by apply elem_of_nil in Hin.
  - apply NoDup_cons in Hnd as [Hfresh Hnd].
    unfold NMAP_FIRST, NMAP_SECOND, NMAP_COMMON_EDGE; simpl.
    apply elem_of_cons in Hin as [Heq|Hin].
    + inversion Heq; subst. by rewrite !N.eqb_refl.
    + destruct (N.eqb_spec a (position this)) as [->|]; simpl; [|by apply IH].
      destruct (N.eqb_spec b (position other)) as [->|]; simpl; [|by apply IH].
      exfalso. apply Hfresh.
      apply list_elem_of_fmap. by exists (position this, position other, c).
Qed.

Lemma getCommonEdge_loop_miss rows this other w :
  (∀ c, (position this, position other, c) ∉ rows) →
  getCommonEdge_loop rows this other w = (not_neighbors_world w, Exited).
Proof.
  induction rows as [|[[a b] c'] rows IH]; simpl; intros Hmiss; [done|].
  unfold NMAP_FIRST, NMAP_SECOND; simpl.
  destruct (N.eqb_spec a (position this)) as [->|]; simpl.
  - destruct (N.eqb_spec b (position other)) as [->|]; simpl.
    + exfalso. apply (Hmiss c'). apply elem_of_cons. by left.
    + apply IH. intros c Hc. apply (Hmiss c), elem_of_cons. by right.
  - apply IH. intros c Hc. apply (Hmiss c), elem_of_cons. by right.
Qed.

Lemma getCommonEdge_loop_ret rows this other w w' c :
  getCommonEdge_loop rows this other w = (w', Ret c) →
  w' = w ∧ (position this, position other, c) ∈ rows.
Proof.
  induction rows as [|[[a b] c'] rows IH]; simpl; [discriminate|].
  unfold NMAP_FIRST, NMAP_SECOND, NMAP_COMMON_EDGE; simpl.
  destruct (N.eqb_spec a (position this)) as [->|]; simpl.
  - destruct (N.eqb_spec b (position other)) as [->|]; simpl.
    + unfold io_ret. intros [= <- <-]. split; [done|]. apply elem_of_cons. by left.
    + intros H. destruct (IH H) as [-> Hin]. split; [done|].
      apply elem_of_cons. by right.
  - intros H. destruct (IH H) as [-> Hin]. split; [done|].
    apply elem_of_cons. by right.
Qed.



(** ** rotate *)

(** C7.  [rotate] adds one to a rotation below 2 and reports success; at 2
    (or above) it reports exhaustion and leaves the placement as it is.
    From rotation 0 the first two calls succeed and the third fails with the
    rotation still 2; a call never lowers the rotation. *)
Theorem rotate_three_times (p : PlayedCard) :
  (rotation p < 2 →
   rotate p = (mkPlayedCard (rotation p + 1) (position p) (card p), true))
  ∧ (2 ≤ rotation p → rotate p = (p, false))
  ∧ rotation p ≤ rotation (rotate p).1
  ∧ (rotation p = 0 →
     ∃ p1 p2,
       rotate p = (p1, true) ∧ rotate p1 = (p2, true) ∧ rotate p2 = (p2, false)
       ∧ rotation p2 = 2 ∧ position p2 = position p ∧ card p2 = card p).
Proof.
  assert (rotation p < 2 →
          rotate p = (mkPlayedCard (rotation p + 1) (position p) (card p), true))
    as Hlt.
  { intros H. unfold rotate.
    destruct (N.leb_spec 2 (rotation p)); [lia|].
    by rewrite to_sint_succ by lia. }
  assert (2 ≤ rotation p → rotate p = (p, false)) as Hge.
  { intros H. unfold rotate. destruct (N.leb_spec 2 (rotation p)); [done|lia]. }
  split; [done|]. split; [done|]. split.
  - destruct (N.lt_ge_cases (rotation p) 2) as [H|H].
    + rewrite Hlt by done. simpl. lia.
    + rewrite Hge by done. simpl. lia.
  - intros H0. destruct p as [r ps c]. simpl in *. subst r.
    exists (mkPlayedCard 1 ps c), (mkPlayedCard 2 ps c). by vm_compute.
Qed.

Lemma rotate_three_times_witness :
  rotate (mkPlayedCard 1 4 (Some 3)) = (mkPlayedCard 2 4 (Some 3), true).
Proof.
  apply (proj1 (rotate_three_times (mkPlayedCard 1 4 (Some 3)))).
  simpl. lia.
Defined.

(** ** matchesNeighbor *)

Lemma edge_of_valid ip cd (i : sint) :
  deck_at ip = Some cd → i < 3 →
  ∃ e, edges cd !! N.to_nat i = Some e ∧ edge_of (Some ip) i = Ret e.
Proof.
  intros Hd Hi.
  destruct (lookup_lt_is_Some_2 (edges cd) (N.to_nat i)) as [e He].
  { rewrite (Deck_three_edges _ _ Hd). lia. }
  exists e. split; [done|]. unfold edge_of. simpl. rewrite Hd. simpl. by rewrite He.
Qed.

Lemma edges_interlock_spec e1 e2 :
  edges_interlock e1 e2 = true ↔
  char_at e1 0 = char_at e2 0 ∧ char_at e1 1 ≠ char_at e2 1.
Proof.
  unfold edges_interlock. rewrite andb_true_iff, negb_true_iff.
  rewrite bool_decide_eq_true, bool_decide_eq_false. done.
Qed.

Lemma edges_interlock_sym e1 e2 : edges_interlock e1 e2 = edges_interlock e2 e1.
Proof.
  apply eq_true_iff_eq. rewrite !edges_interlock_spec.
  split; intros [H1 H2]; split; congruence.
Qed.

Lemma Cpp_index_table a b c :
  (a, b, c) ∈ NEIGHBORMAP →
  Cpp.index Cpp.NEIGHBORMAP (Cpp.to_string a +:+ Cpp.to_string b)
  = (Cpp.NEIGHBORMAP, c).
Proof.
  revert a b c.
  assert (Forall (λ r : nmap_row,
            Cpp.index Cpp.NEIGHBORMAP
              (Cpp.to_string r.1.1 +:+ Cpp.to_string r.1.2)
            = (Cpp.NEIGHBORMAP, r.2)) NEIGHBORMAP) as H
    by (unfold NEIGHBORMAP; repeat (constructor; [reflexivity|]); constructor).
  intros a b c Hin. rewrite Forall_forall in H. apply (H _ Hin).
Qed.

(** C2.  For two placements that both hold a card of the catalog and whose
    positions have a row [(position p, position q, c)] in [NEIGHBORMAP]
    (so [p] is at the lower position), [matchesNeighbor p q] reads label
    [(c + rotation p) mod 3] of the card of [p] and label
    [(c + rotation q) mod 3] of the card of [q], and returns true exactly
    when the labels agree in their first character and differ in their
    second; nothing is written.  The C++ method returns the same and
    leaves its map as it is. *)
Theorem matchesNeighbor_adjacent (p q : PlayedCard) (c ip iq : N)
  (cp cq : Card) (w : World) :
  card p = Some ip → card q = Some iq →
  deck_at ip = Some cp → deck_at iq = Some cq →
  (position p, position q, c) ∈ NEIGHBORMAP →
  position p < position q ∧
  ∃ e1 e2 b,
    edges cp !! N.to_nat ((c + rotation p) mod 3) = Some e1
    ∧ edges cq !! N.to_nat ((c + rotation q) mod 3) = Some e2
    ∧ matchesNeighbor p q w = (w, Ret b)
    ∧ Cpp.matchesNeighbor p q Cpp.NEIGHBORMAP = (Cpp.NEIGHBORMAP, Ret b)
    ∧ (b = true ↔ char_at e1 0 = char_at e2 0 ∧ char_at e1 1 ≠ char_at e2 1).
Proof.
  intros Hp Hq Hcp Hcq Hin.
  split; [apply (NEIGHBORMAP_ordered _ Hin)|].
  destruct (edge_of_valid ip cp (rotated c (rotation p)) Hcp (rotated_lt _ _))
    as (e1 & He1 & Hr1).
  destruct (edge_of_valid iq cq (rotated c (rotation q)) Hcq (rotated_lt _ _))
    as (e2 & He2 & Hr2).
  rewrite rotated_mod in He1, He2.
  exists e1, e2, (edges_interlock e1 e2).
  split; [done|]. split; [done|].
  split; [|split; [|apply edges_interlock_spec]].
  - unfold matchesNeighbor. rewrite Hp.
    rewrite (io_bind_ret _ _ w w c)
      by (apply getCommonEdge_loop_found; [apply NEIGHBORMAP_keys_NoDup|done]).
    rewrite <- Hp, Hq. rewrite Hp.
    unfold io_bind, lift. rewrite Hr1, Hr2.
    by destruct (edges_interlock e1 e2).
  - unfold Cpp.matchesNeighbor. rewrite Hp, (Cpp_index_table _ _ _ Hin).
    rewrite <- Hp, Hq. rewrite Hp, Hr1, Hr2. simpl.
    by destruct (edges_interlock e1 e2).
Qed.

Lemma matchesNeighbor_adjacent_witness :
  matchesNeighbor (mkPlayedCard 0 0 (Some 0)) (mkPlayedCard 1 1 (Some 1))
    empty_world = (empty_world, Ret true).
Proof.
  destruct (matchesNeighbor_adjacent
              (mkPlayedCard 0 0 (Some 0)) (mkPlayedCard 1 1 (Some 1))
              0 0 1 (mkCard "P1" ["FH"; "FB"; "DH"])
              (mkCard "P2" ["DH"; "FB"; "RB"]) empty_world
              eq_refl eq_refl eq_refl eq_refl)
    as [_ (e1 & e2 & b & H1 & H2 & Hrun & _ & Hb)].
  - apply (bool_decide_unpack _). vm_compute. exact I.
  - rewrite Hrun. f_equal. f_equal. apply Hb.
    vm_compute in H1, H2.
    assert (e1 = "FH"%string) as -> by congruence.
    assert (e2 = "FB"%string) as -> by congruence.
    split; [reflexivity|discriminate].
Defined.

Lemma matchesNeighbor_empty_this (p q : PlayedCard) (w : World) :
  card p = None → matchesNeighbor p q w = (w, Ret false).
Proof. intros H. unfold matchesNeighbor. by rewrite H. Qed.

Lemma matchesNeighbor_ret (p q : PlayedCard) (w w' : World) (b : bool) :
  matchesNeighbor p q w = (w', Ret b) →
  w' = w
  ∧ (card p = None ∧ b = false
     ∨ ∃ c e1 e2,
         (position p, position q, c) ∈ NEIGHBORMAP
         ∧ edge_of (card p) (rotated c (rotation p)) = Ret e1
         ∧ edge_of (card q) (rotated c (rotation q)) = Ret e2
         ∧ b = edges_interlock e1 e2).
Proof.
  unfold matchesNeighbor. destruct (card p) as [ip|] eqn:Hp.
  - intros H. apply io_bind_inv in H as (w1 & c & Hc & H).
    apply getCommonEdge_loop_ret in Hc as [-> Hin].
    unfold io_bind, lift in H.
    destruct (edge_of (Some ip) _) as [e1| | |] eqn:H1; try discriminate.
    destruct (edge_of (card q) _) as [e2| | |] eqn:H2; try discriminate.
    assert (w' = w ∧ b = edges_interlock e1 e2) as [-> ->]
      by (destruct (edges_interlock e1 e2); unfold io_ret in H; by simplify_eq).
    split; [done|]. right. by exists c, e1, e2.
  - unfold io_ret. intros [= <- <-]. split; [done|]. by left.
Qed.

(** C3, where the code has it.  An empty [this] makes [matchesNeighbor]
    return false before anything else is looked at. *)
Lemma matchesNeighbor_empty_first (p q : PlayedCard) (w : World)
  (m : gmap string sint) :
  card p = None →
  matchesNeighbor p q w = (w, Ret false)
  ∧ Cpp.matchesNeighbor p q m = (m, Ret false).
Proof.
  intros H. split; [by apply matchesNeighbor_empty_this|].
  unfold Cpp.matchesNeighbor. by rewrite H.
Qed.

(** C3, where the code misses it.  With a card in [this] and none in
    [other], the call never returns: [other->card] is dereferenced without
    a test (or, for non-adjacent positions, the process exits before). *)
Lemma matchesNeighbor_empty_other_no_result (p q : PlayedCard) (w w' : World)
  (b : bool) :
  is_Some (card p) → card q = None →
  matchesNeighbor p q w = (w', Ret b) → False.
Proof.
  intros [ip Hp] Hq H.
  apply matchesNeighbor_ret in H as [_ [[Hnone _]|(c & e1 & e2 & _ & _ & H2 & _)]].
  - congruence.
  - rewrite Hq in H2. discriminate.
Qed.

(** C3 at the failing input: card P1 at position 0 against an empty
    placement at position 1 is a NULL dereference, not [false], in the C
    function and in the C++ method. *)
Theorem matchesNeighbor_empty_other_fault (w : World) :
  matchesNeighbor (mkPlayedCard 0 0 (Some 0)) (mkPlayedCard 0 1 None) w
  = (w, Fault)
  ∧ Cpp.matchesNeighbor (mkPlayedCard 0 0 (Some 0)) (mkPlayedCard 0 1 None)
      Cpp.NEIGHBORMAP
    = (Cpp.NEIGHBORMAP, Fault).
Proof. split; reflexivity. Qed.

(** C4 as stated fails: P1 at position 0 and P2 (turned once) at position 1
    match when asked from position 0, and asking from position 1 ends the
    process with the not-neighbors diagnostic instead of returning true. *)
Lemma matchesNeighbor_swap_exits :
  matchesNeighbor (mkPlayedCard 0 0 (Some 0)) (mkPlayedCard 1 1 (Some 1))
    empty_world = (empty_world, Ret true)
  ∧ matchesNeighbor (mkPlayedCard 1 1 (Some 1)) (mkPlayedCard 0 0 (Some 0))
      empty_world = (not_neighbors_world empty_world, Exited).
Proof. split; reflexivity. Qed.

Lemma NEIGHBORMAP_no_reverse a b c c' :
  (a, b, c) ∈ NEIGHBORMAP → (b, a, c') ∈ NEIGHBORMAP → False.
Proof.
  intros H1 H2.
  apply NEIGHBORMAP_ordered in H1 as [H1 _].
  apply NEIGHBORMAP_ordered in H2 as [H2 _].
  unfold NMAP_FIRST, NMAP_SECOND in *. simpl in *. lia.
Qed.

(** C4, amended.  When [matchesNeighbor p q] returns true, the two labels
    it compared also pass the test in the other order (same first
    character, different second character), but the call
    [matchesNeighbor q p] does not return: [NEIGHBORMAP] has every
    adjacency once, lower position first, so [getCommonEdge] finds no row
    for [(position q, position p)], writes its diagnostic and exits. *)
Theorem matchesNeighbor_swapped (p q : PlayedCard) (w w' : World) :
  matchesNeighbor p q w = (w', Ret true) →
  w' = w
  ∧ (∃ c e1 e2,
       (position p, position q, c) ∈ NEIGHBORMAP
       ∧ edge_of (card p) (rotated c (rotation p)) = Ret e1
       ∧ edge_of (card q) (rotated c (rotation q)) = Ret e2
       ∧ edges_interlock e1 e2 = true ∧ edges_interlock e2 e1 = true)
  ∧ matchesNeighbor q p w = (not_neighbors_world w, Exited).
Proof.
  intros H.
  apply matchesNeighbor_ret in H as [-> [[_ ?]|(c & e1 & e2 & Hin & H1 & H2 & Hb)]];
    [done|].
  split; [done|]. split.
  - exists c, e1, e2. by rewrite (edges_interlock_sym e2 e1), <- Hb.
  - unfold matchesNeighbor.
    destruct (card q) as [iq|] eqn:Hq; [|discriminate H2].
    apply io_bind_exited, getCommonEdge_loop_miss.
    intros c' Hc'. by eapply NEIGHBORMAP_no_reverse.
Qed.

Lemma matchesNeighbor_swapped_witness :
  matchesNeighbor (mkPlayedCard 1 1 (Some 1)) (mkPlayedCard 0 0 (Some 0))
    empty_world = (not_neighbors_world empty_world, Exited).
Proof.
  apply (matchesNeighbor_swapped
           (mkPlayedCard 0 0 (Some 0)) (mkPlayedCard 1 1 (Some 1))
           empty_world empty_world).
  reflexivity.
Defined.

(** ** nextFromDeck *)

Lemma isCardOnBoard_on_board g i :
  isCardOnBoard g (Some i) = true ↔ on_board g i.
Proof.
  unfold isCardOnBoard, on_board. rewrite existsb_exists. split.
  - intros ([pc|] & Hin & H); [|done].
    destruct (card pc) as [c|] eqn:Hc; [|done].
    apply bool_decide_eq_true in H. exists pc.
    split; [by apply list_elem_of_In|congruence].
  - intros (pc & Hin & Hc). exists (Some pc).
    split; [by apply list_elem_of_In|]. rewrite Hc. by apply bool_decide_eq_true.
Qed.

Lemma isCardOnBoard_not_on_board g i :
  isCardOnBoard g (Some i) = false ↔ ¬ on_board g i.
Proof.
  rewrite <- isCardOnBoard_on_board. by destruct (isCardOnBoard g (Some i)).
Qed.

Lemma nextFromDeck_loop_some n i g g' j :
  nextFromDeck_loop n i g = (g', Some j) →
  i ≤ j ∧ j < i + N.of_nat n ∧ ¬ on_board g j
  ∧ (∀ k, i ≤ k → k < j → on_board g k) ∧ g' = set_top g j.
Proof.
  revert i. induction n as [|n IH]; intros i; simpl; [discriminate|].
  destruct (isCardOnBoard g (Some i)) eqn:Hi.
  - intros H. destruct (IH _ H) as (H1 & H2 & H3 & H4 & H5).
    repeat split; [lia|lia|done| |done].
    intros k Hk1 Hk2. destruct (decide (k = i)) as [->|].
    + by apply isCardOnBoard_on_board.
    + apply H4; lia.
  - intros [= <- <-]. repeat split; [lia|lia| |intros; lia].
    by apply isCardOnBoard_not_on_board.
Qed.

Lemma nextFromDeck_loop_none n i g g' :
  nextFromDeck_loop n i g = (g', None) →
  g' = g ∧ ∀ k, i ≤ k → k < i + N.of_nat n → on_board g k.
Proof.
  revert i. induction n as [|n IH]; intros i; simpl.
  - intros [= <-]. split; [done|]. intros; lia.
  - destruct (isCardOnBoard g (Some i)) eqn:Hi; [|discriminate].
    intros H. destruct (IH _ H) as [-> Hall]. split; [done|].
    intros k Hk1 Hk2. destruct (decide (k = i)) as [->|].
    + by apply isCardOnBoard_on_board.
    + apply Hall; lia.
Qed.

Lemma nextFromDeck_some g g' i :
  nextFromDeck g = (g', Some i) →
  topOfTheDeck g ≤ i ∧ i < CARDS_IN_DECK ∧ ¬ on_board g i
  ∧ (∀ j, topOfTheDeck g ≤ j → j < i → on_board g j)
  ∧ g' = set_top g i.
Proof.
  unfold nextFromDeck, CARDS_IN_DECK.
  destruct (N.leb_spec 9 (topOfTheDeck g)) as [Htop|Htop]; [discriminate|].
  intros H. apply nextFromDeck_loop_some in H as (H1 & H2 & H3 & H4 & H5).
  repeat split; [done|lia|done|done|done].
Qed.

Lemma nextFromDeck_none g g' :
  nextFromDeck g = (g', None) →
  g' = g ∧ ∀ j, topOfTheDeck g ≤ j → j < CARDS_IN_DECK → on_board g j.
Proof.
  unfold nextFromDeck, CARDS_IN_DECK.
  destruct (N.leb_spec 9 (topOfTheDeck g)) as [Htop|Htop].
  - intros [= <-]. split; [done|]. intros; lia.
  - intros H. apply nextFromDeck_loop_none in H as [-> Hall].
    split; [done|]. intros j Hj1 Hj2. apply Hall; lia.
Qed.

(** C6.  Whatever the board, [nextFromDeck] returns the first card at or
    after [topOfTheDeck] that is not on the board and moves [topOfTheDeck]
    to its index, changing nothing else; it returns NULL, with the state
    untouched, exactly when every card from [topOfTheDeck] to the end of
    the deck is on the board.  The cursor never moves backwards, and a
    second call on the same board starts at the returned index and gives
    the same card again. *)
Theorem nextFromDeck_scan (g : GameState) :
  (∀ g' i, nextFromDeck g = (g', Some i) →
     topOfTheDeck g ≤ i ∧ i < CARDS_IN_DECK ∧ ¬ on_board g i
     ∧ (∀ j, topOfTheDeck g ≤ j → j < i → on_board g j)
     ∧ g' = set_top g i)
  ∧ (∀ g', nextFromDeck g = (g', None) →
     g' = g ∧ ∀ j, topOfTheDeck g ≤ j → j < CARDS_IN_DECK → on_board g j)
  ∧ ((nextFromDeck g).2 = None ↔
     ∀ j, topOfTheDeck g ≤ j → j < CARDS_IN_DECK → on_board g j)
  ∧ topOfTheDeck g ≤ topOfTheDeck (nextFromDeck g).1
  ∧ nextFromDeck (nextFromDeck g).1 = nextFromDeck g.
Proof.
  split; [intros g' i; apply nextFromDeck_some|].
  split; [intros g'; apply nextFromDeck_none|].
  destruct (nextFromDeck g) as [g' [i|]] eqn:H; simpl.
  - apply nextFromDeck_some in H as (H1 & H2 & H3 & H4 & ->).
    split; [|split; [done|]].
    + split; [done|]. intros Hall. destruct H3. by apply Hall.
    + destruct (nextFromDeck (set_top g i)) as [g2 [j|]] eqn:H'.
      * apply nextFromDeck_some in H' as (H1' & H2' & H3' & H4' & ->).
        simpl in *. destruct (N.lt_trichotomy i j) as [Hlt|[->|Hgt]]; [|done|lia].
        destruct H3. destruct (H4' i) as (pc & Hpc); [lia|done|].
        by exists pc.
      * apply nextFromDeck_none in H' as [-> Hall]. simpl in *.
        destruct H3. destruct (Hall i) as (pc & Hpc); [lia|done|]. by exists pc.
  - apply nextFromDeck_none in H as [-> Hall].
    split; [done|]. split; [lia|].
    destruct (nextFromDeck g) as [g2 [j|]] eqn:H'.
    + apply nextFromDeck_some in H' as (H1' & H2' & H3' & _).
      destruct H3'. by apply Hall.
    + by apply nextFromDeck_none in H' as [-> _].
Qed.

Lemma nextFromDeck_scan_witness :
  nextFromDeck
    (mkGameState 2 0
       (Some (mkPlayedCard 0 0 (Some 0)) :: Some (mkPlayedCard 2 1 (Some 1))
        :: nulls 7))
  = (mkGameState 2 2
       (Some (mkPlayedCard 0 0 (Some 0)) :: Some (mkPlayedCard 2 1 (Some 1))
        :: nulls 7), Some 2).
Proof.
  set (g := mkGameState 2 0
              (Some (mkPlayedCard 0 0 (Some 0))
               :: Some (mkPlayedCard 2 1 (Some 1)) :: nulls 7)).
  destruct (nextFromDeck g) as [g' [i|]] eqn:H.
  - destruct (proj1 (nextFromDeck_scan g) g' i H) as (_ & _ & _ & _ & ->).
    vm_compute in H. injection H as _ <-. reflexivity.
  - vm_compute in H. discriminate H.
Defined.

(** ** Boards filled from position 0 upwards *)


Lemma board_of_lookup_placed placed (i : nat) pc :
  placed !! i = Some pc → board_of placed !! i = Some (Some pc).
Proof.
  intros H. unfold board_of.
  rewrite lookup_app_l by (rewrite length_fmap; by eapply lookup_lt_Some).
  by rewrite list_lookup_fmap, H.
Qed.

Lemma board_of_lookup_null placed (i : nat) :
  (length placed ≤ i)%nat → (i < 9)%nat → board_of placed !! i = Some None.
Proof.
  intros H1 H2. unfold board_of, CARDS_IN_DECK.
  rewrite lookup_app_r by (rewrite length_fmap; lia).
  rewrite length_fmap. apply lookup_replicate_2. lia.
Qed.


Lemma board_of_elem placed pc :
  Some pc ∈ board_of placed ↔ pc ∈ placed.
Proof.
  unfold board_of. rewrite elem_of_app, list_elem_of_fmap. split.
  - intros [(x & Hx & Hin)|H]; [by simplify_eq|].
    by apply elem_of_replicate in H as [? _].
  - intros H. left. by exists pc.
Qed.

Lemma board_of_snoc placed pc :
  (length placed < 9)%nat →
  <[length placed := Some pc]> (board_of placed) = board_of (placed ++ [pc]).
Proof.
  intros H. unfold board_of, CARDS_IN_DECK.
  rewrite insert_app_r_alt by (by rewrite length_fmap).
  rewrite length_fmap, Nat.sub_diag.
  rewrite fmap_app, length_app. simpl. rewrite <- app_assoc. f_equal.
  destruct (N.to_nat 9 - length placed)%nat as [|n] eqn:Hn; [lia|].
  simpl. do 2 f_equal. lia.
Qed.

Lemma board_of_replace_last placed pc pc' :
  (length placed < 9)%nat →
  <[length placed := Some pc']> (board_of (placed ++ [pc]))
  = board_of (placed ++ [pc']).
Proof.
  intros H. rewrite <- (board_of_snoc placed pc), <- (board_of_snoc placed pc')
    by done.
  apply list_insert_insert_eq.
Qed.

Lemma replicate_slots_nulls n : replicate_slots (nulls n) = nulls n.
Proof. destruct n as [|n]; simpl; [done|]. by rewrite length_replicate. Qed.

Lemma replicate_slots_board_of placed :
  replicate_slots (board_of placed) = board_of placed.
Proof.
  unfold board_of. generalize (N.to_nat CARDS_IN_DECK - length placed)%nat.
  intros n. induction placed as [|pc placed IH]; csimpl.
  - apply replicate_slots_nulls.
  - by rewrite IH.
Qed.

Lemma on_board_board_of g placed i :
  cardsOnBoard g = board_of placed →
  on_board g i ↔ Some i ∈ card <$> placed.
Proof.
  intros Hb. unfold on_board. rewrite Hb, list_elem_of_fmap. split.
  - intros (pc & Hin & Hc). exists pc. split; [done|]. by apply board_of_elem.
  - intros (pc & Hc & Hin). exists pc. split; [|done]. by apply board_of_elem.
Qed.

(** ** The invariant of the search *)

Lemma Inv_empty : Inv empty_game [].
Proof.
  split.
  - done.
  - done.
  - simpl. lia.
  - intros i pc H. by rewrite lookup_nil in H.
  - intros pc H. by apply elem_of_nil in H.
  - intros pc H. by apply elem_of_nil in H.
  - constructor.
  - intros pc H. discriminate H.
Qed.

Lemma Inv_replicate s placed : Inv s placed → replicate s = s.
Proof.
  intros H. unfold replicate. rewrite (inv_board _ _ H), replicate_slots_board_of.
  rewrite <- (inv_board _ _ H). by destruct s.
Qed.

(** Nine different cards of a deck of nine are all of the deck. *)
Lemma full_board_all_cards (placed : list PlayedCard) :
  length placed = 9%nat →
  NoDup (card <$> placed) →
  (∀ pc, pc ∈ placed → ∃ c, card pc = Some c ∧ c < CARDS_IN_DECK) →
  ∀ i, i < CARDS_IN_DECK → Some i ∈ card <$> placed.
Proof.
  intros Hlen Hnd Hcard i Hi.
  set (deck_ptrs := (λ n, Some (N.of_nat n)) <$> seq 0 9).
  assert (card <$> placed ⊆+ deck_ptrs) as Hsub.
  { apply NoDup_submseteq; [done|]. intros x Hx.
    apply list_elem_of_fmap in Hx as (pc & -> & Hpc).
    destruct (Hcard pc Hpc) as (c & -> & Hc).
    apply list_elem_of_fmap. exists (N.to_nat c).
    split; [by rewrite N2Nat.id|]. apply elem_of_seq.
    unfold CARDS_IN_DECK in Hc. lia. }
  apply submseteq_length_Permutation in Hsub.
  - rewrite Hsub. apply list_elem_of_fmap. exists (N.to_nat i).
    split; [by rewrite N2Nat.id|]. apply elem_of_seq.
    unfold CARDS_IN_DECK in Hi. lia.
  - by rewrite length_fmap, Hlen.
Qed.

Lemma slot_at_placed placed (i : nat) pc :
  (length placed ≤ 9)%nat → placed !! i = Some pc →
  slot_at (board_of placed) (N.of_nat i) = Ret (Some pc).
Proof.
  intros Hlen H. unfold slot_at, CARDS_IN_DECK.
  pose proof (lookup_lt_Some _ _ _ H).
  destruct (N.ltb_spec (N.of_nat i) 9); [|lia].
  by rewrite Nat2N.id, (board_of_lookup_placed _ _ _ H).
Qed.

Lemma slot_at_null placed (i : N) :
  (length placed ≤ N.to_nat i)%nat → i < 9 →
  slot_at (board_of placed) i = Ret None.
Proof.
  intros H1 H2. unfold slot_at, CARDS_IN_DECK.
  destruct (N.ltb_spec i 9); [|lia].
  by rewrite board_of_lookup_null by lia.
Qed.

(** *** [first] keeps the invariant *)

Lemma first_Inv s placed :
  Inv s placed →
  (first s = Ret None ∧ ∀ i, i < CARDS_IN_DECK → on_board s i)
  ∨ ∃ s' c,
      first s = Ret (Some s')
      ∧ (length placed < 9)%nat
      ∧ Inv s' (placed ++ [mkPlayedCard 0 (nextOnBoard s) (Some c)])
      ∧ c < CARDS_IN_DECK.
Proof.
  intros HI. unfold first. rewrite (Inv_replicate _ _ HI).
  unfold addNewCard. simpl.
  change (mkGameState (nextOnBoard s) 0 (cardsOnBoard s)) with (set_top s 0).
  destruct (nextFromDeck (set_top s 0)) as [g' [c|]] eqn:Hn.
  - right. apply nextFromDeck_some in Hn as (_ & Hc & Hfree & _ & ->).
    simpl. assert (¬ on_board s c) as Hfree' by done. clear Hfree.
    rewrite (on_board_board_of s placed c (inv_board _ _ HI)) in Hfree'.
    assert (length placed < 9)%nat as Hlt.
    { pose proof (inv_len _ _ HI).
      destruct (decide (length placed = 9%nat)) as [Hfull|]; [|lia].
      destruct Hfree'. apply full_board_all_cards; try done.
      - apply (inv_nodup _ _ HI).
      - apply (inv_card _ _ HI). }
    unfold store_slot. simpl. rewrite (inv_next _ _ HI).
    unfold CARDS_IN_DECK.
    destruct (N.ltb_spec (N.of_nat (length placed)) 9); [|lia].
    simpl. eexists _, c. split; [done|]. split; [done|]. split; [|done].
    rewrite Nat2N.id, (inv_board _ _ HI), board_of_snoc by done.
    split; simpl.
    + done.
    + rewrite to_sint_succ by lia. rewrite length_app. simpl. lia.
    + rewrite length_app. simpl. lia.
    + intros i pc Hl. apply lookup_snoc_Some in Hl as [[_ Hl]|[-> <-]].
      * by apply (inv_pos _ _ HI).
      * done.
    + intros pc Hin. apply elem_of_app in Hin as [Hin|Hin].
      * by apply (inv_card _ _ HI).
      * apply list_elem_of_singleton in Hin as ->. by exists c.
    + intros pc Hin. apply elem_of_app in Hin as [Hin|Hin].
      * by apply (inv_rot _ _ HI).
      * apply list_elem_of_singleton in Hin as ->. simpl. lia.
    + rewrite fmap_app. apply NoDup_app. split; [apply (inv_nodup _ _ HI)|].
      split; [|apply NoDup_singleton].
      intros x Hx Hx'. apply list_elem_of_singleton in Hx'. by subst x.
    + intros pc Hl. rewrite last_snoc in Hl. by simplify_eq.
  - left. apply nextFromDeck_none in Hn as [-> Hall]. simpl. split; [done|].
    intros i Hi. destruct (Hall i) as (pc & Hpc); [simpl; lia|done|].
    by exists pc.
Qed.

(** *** [next] keeps the invariant and moves up the chain *)

Lemma Inv_last_index s placed pc :
  Inv s (placed ++ [pc]) → last_index s = N.of_nat (length placed).
Proof.
  intros HI. unfold last_index. rewrite (inv_next _ _ HI).
  pose proof (inv_len _ _ HI) as Hlen. rewrite length_app in *. simpl in *.
  rewrite to_sint_pred by lia. lia.
Qed.

Lemma Inv_getLastAdded s placed pc :
  Inv s (placed ++ [pc]) → getLastAdded s = Ret (Some pc).
Proof.
  intros HI. unfold getLastAdded.
  rewrite (Inv_last_index _ _ _ HI), (inv_board _ _ HI).
  apply slot_at_placed; [apply (inv_len _ _ HI)|].
  apply lookup_snoc_Some. by right.
Qed.

Lemma Inv_set_last s placed pc pc' top :
  Inv s (placed ++ [pc]) →
  position pc' = position pc →
  (∃ c, card pc' = Some c ∧ c < CARDS_IN_DECK) →
  rotation pc' ≤ 2 →
  card pc' ∉ card <$> placed →
  card pc' = Some top →
  Inv (mkGameState (nextOnBoard s) top
         (<[N.to_nat (last_index s) := Some pc']> (cardsOnBoard s)))
      (placed ++ [pc']).
Proof.
  intros HI Hpos Hcard Hrot Hfresh Htop.
  pose proof (inv_len _ _ HI) as Hlen. rewrite length_app in Hlen. simpl in Hlen.
  rewrite (Inv_last_index _ _ _ HI), Nat2N.id, (inv_board _ _ HI).
  rewrite board_of_replace_last by lia.
  split; simpl.
  - done.
  - rewrite (inv_next _ _ HI), !length_app. done.
  - rewrite length_app. simpl. lia.
  - intros i x Hl. apply lookup_snoc_Some in Hl as [[Hi Hl]|[-> <-]].
    + apply (inv_pos _ _ HI). by apply lookup_app_l_Some.
    + rewrite Hpos. apply (inv_pos _ _ HI). apply lookup_snoc_Some. by right.
  - intros x Hin. apply elem_of_app in Hin as [Hin|Hin].
    + apply (inv_card _ _ HI), elem_of_app. by left.
    + by apply list_elem_of_singleton in Hin as ->.
  - intros x Hin. apply elem_of_app in Hin as [Hin|Hin].
    + apply (inv_rot _ _ HI), elem_of_app. by left.
    + by apply list_elem_of_singleton in Hin as ->.
  - pose proof (inv_nodup _ _ HI) as Hnd. rewrite fmap_app in Hnd.
    apply NoDup_app in Hnd as (Hnd & _ & _).
    rewrite fmap_app. apply NoDup_app. split; [done|].
    split; [|apply NoDup_singleton].
    intros x Hx Hx'. apply list_elem_of_singleton in Hx'. by subst x.
  - intros x Hl. rewrite last_snoc in Hl. by simplify_eq.
Qed.

Lemma next_Inv s placed pc :
  Inv s (placed ++ [pc]) →
  (next s = Ret None
   ∧ rotation pc = 2
   ∧ ∀ i, topOfTheDeck s ≤ i → i < CARDS_IN_DECK → on_board s i)
  ∨ ∃ s' pc',
      next s = Ret (Some s')
      ∧ Inv s' (placed ++ [pc'])
      ∧ chain_rank pc < chain_rank pc'.
Proof.
  intros HI.
  pose proof (inv_len _ _ HI) as Hlen. rewrite length_app in Hlen. simpl in Hlen.
  assert (pc ∈ placed ++ [pc]) as Hpc by (apply elem_of_app; right; by left).
  destruct (inv_card _ _ HI pc Hpc) as (c & Hc & Hc9).
  pose proof (inv_rot _ _ HI pc Hpc) as Hrot.
  assert (card pc = Some (topOfTheDeck s)) as Htop
    by (apply (inv_top _ _ HI); apply last_snoc).
  assert (c = topOfTheDeck s) as -> by congruence.
  pose proof (inv_nodup _ _ HI) as Hnd. rewrite fmap_app in Hnd.
  apply NoDup_app in Hnd as (_ & Hdisj & _).
  assert (last_index s < CARDS_IN_DECK) as Hli.
  { rewrite (Inv_last_index _ _ _ HI). unfold CARDS_IN_DECK. lia. }
  unfold next. rewrite (Inv_replicate _ _ HI), (Inv_getLastAdded _ _ _ HI).
  simpl. unfold rotate, store_slot.
  destruct (N.ltb_spec (last_index s) CARDS_IN_DECK) as [_|]; [|lia].
  destruct (N.leb_spec 2 (rotation pc)) as [Hr|Hr]; simpl.
  - unfold replaceCard.
    destruct (nextFromDeck s) as [g' [j|]] eqn:Hn.
    + right. apply nextFromDeck_some in Hn as (Hj1 & Hj2 & Hfree & _ & ->).
      unfold store_slot. simpl.
      destruct (N.ltb_spec (last_index s) CARDS_IN_DECK) as [_|]; [|lia].
      simpl. eexists _, (mkPlayedCard 0 (position pc) (Some j)).
      split; [done|].
      rewrite (on_board_board_of _ _ _ (inv_board _ _ HI)) in Hfree.
      assert (j ≠ topOfTheDeck s) as Hne.
      { intros ->. apply Hfree. rewrite <- Hc. by apply list_elem_of_fmap_2. }
      split.
      * apply (Inv_set_last s placed pc); simpl;
          [done|done|by exists j|lia| |done].
        intros Hin. apply Hfree. rewrite fmap_app. apply elem_of_app. by left.
      * unfold chain_rank. rewrite Hc. simpl. lia.
    + left. apply nextFromDeck_none in Hn as [-> Hall]. simpl.
      split; [done|]. split; [lia|done].
  - right. rewrite to_sint_succ by lia.
    eexists _, (mkPlayedCard (rotation pc + 1) (position pc) (card pc)).
    split; [done|]. split.
    + destruct s as [nb top board]. simpl in *.
      apply (Inv_set_last (mkGameState nb top board) placed pc); simpl;
        [done|done|by exists top|lia| |done].
      intros Hin. by apply (Hdisj (card pc)); [|left].
    + unfold chain_rank. rewrite Hc. simpl. lia.
Qed.

Lemma next_empty_fault s : Inv s [] → next s = Fault.
Proof.
  intros HI. unfold next. rewrite (Inv_replicate _ _ HI).
  unfold getLastAdded, last_index. by rewrite (inv_next _ _ HI).
Qed.

Lemma reachable_Inv s : reachable s → ∃ placed, Inv s placed.
Proof.
  induction 1 as [|s s' _ [placed HI] Hf|s s' _ [placed HI] Hn].
  - exists []. apply Inv_empty.
  - destruct (first_Inv _ _ HI) as [[Hf' _]|(s2 & c & Hf' & _ & HI' & _)].
    + congruence.
    + rewrite Hf in Hf'. simplify_eq. by eexists.
  - destruct placed as [|pc placed _] using rev_ind.
    + rewrite (next_empty_fault _ HI) in Hn. discriminate.
    + destruct (next_Inv _ _ _ HI) as [[Hn' _]|(s2 & pc' & Hn' & HI' & _)].
      * congruence.
      * rewrite Hn in Hn'. simplify_eq. by eexists.
Qed.

(** ** The checks and the report on boards that satisfy the invariant *)

Lemma slot_at_board_of placed (i : N) :
  (length placed ≤ 9)%nat → i < CARDS_IN_DECK →
  slot_at (board_of placed) i = Ret (placed !! N.to_nat i).
Proof.
  intros Hlen Hi. destruct (placed !! N.to_nat i) as [pc|] eqn:Hl.
  - rewrite <- (N2Nat.id i). by apply slot_at_placed.
  - apply slot_at_null; [by apply lookup_ge_None|done].
Qed.

Lemma matchesNeighbor_Inv s placed r p1 p2 w :
  Inv s placed → r ∈ NEIGHBORMAP →
  placed !! N.to_nat (NMAP_FIRST r) = Some p1 →
  placed !! N.to_nat (NMAP_SECOND r) = Some p2 →
  ∃ b, matchesNeighbor p1 p2 w = (w, Ret b).
Proof.
  intros HI Hr H1 H2.
  destruct (inv_card _ _ HI p1) as (c1 & Hc1 & Hlt1);
    [by eapply list_elem_of_lookup_2|].
  destruct (inv_card _ _ HI p2) as (c2 & Hc2 & Hlt2);
    [by eapply list_elem_of_lookup_2|].
  apply deck_at_lt in Hlt1 as [cd1 Hd1]. apply deck_at_lt in Hlt2 as [cd2 Hd2].
  destruct r as [[a b] c]. unfold NMAP_FIRST, NMAP_SECOND in *. simpl in *.
  destruct (matchesNeighbor_adjacent p1 p2 c c1 c2 cd1 cd2 w)
    as [_ (e1 & e2 & res & _ & _ & Hrun & _)]; try done.
  - rewrite (inv_pos _ _ HI _ _ H1), (inv_pos _ _ HI _ _ H2).
    by rewrite !N2Nat.id.
  - by exists res.
Qed.

Lemma isSolved_loop_Inv rows s placed partial w :
  Inv s placed → (∀ r, r ∈ rows → r ∈ NEIGHBORMAP) →
  ∃ b, isSolved_loop rows s partial w = (w, Ret b).
Proof.
  intros HI. induction rows as [|r rows IH]; intros Hrows; simpl.
  - by exists true.
  - assert (r ∈ NEIGHBORMAP) as Hr by (apply Hrows; by left).
    destruct IH as [b IH]; [intros r' Hr'; apply Hrows; by right|].
    destruct (NEIGHBORMAP_ordered r Hr) as (Hlt & Hlt9 & _).
    rewrite (inv_board _ _ HI).
    rewrite !slot_at_board_of
      by (try apply (inv_len _ _ HI); unfold CARDS_IN_DECK in *; lia).
    unfold io_bind at 1 2. unfold lift at 1 2.
    destruct (placed !! N.to_nat (NMAP_FIRST r)) as [p1|] eqn:H1;
      destruct (placed !! N.to_nat (NMAP_SECOND r)) as [p2|] eqn:H2;
      try (destruct partial; [by exists b|by exists false]).
    destruct (matchesNeighbor_Inv _ _ _ _ _ w HI Hr H1 H2) as [ok Hok].
    rewrite (io_bind_ret _ _ _ _ _ Hok).
    destruct ok; [by exists b|by exists false].
Qed.

Lemma isSolved_Inv s placed partial w :
  Inv s placed → ∃ b, isSolved s partial w = (w, Ret b).
Proof. intros HI. by apply (isSolved_loop_Inv _ _ placed). Qed.

(** A complete check that succeeds has found a placement on both sides of
    every row. *)
Lemma isSolved_loop_complete rows s w w' :
  isSolved_loop rows s false w = (w', Ret true) →
  ∀ r, r ∈ rows →
    ∃ p1 p2, slot_at (cardsOnBoard s) (NMAP_FIRST r) = Ret (Some p1)
             ∧ slot_at (cardsOnBoard s) (NMAP_SECOND r) = Ret (Some p2).
Proof.
  revert w. induction rows as [|r rows IH]; intros w H r' Hr'.
  - by apply elem_of_nil in Hr'.
  - simpl in H. unfold io_bind at 1 2 in H. unfold lift at 1 2 in H.
    destruct (slot_at (cardsOnBoard s) (NMAP_FIRST r)) as [[p1|]| | |] eqn:H1;
      try discriminate;
      destruct (slot_at (cardsOnBoard s) (NMAP_SECOND r)) as [[p2|]| | |] eqn:H2;
      try discriminate.
    apply io_bind_inv in H as (w1 & ok & Hok & H).
    destruct ok; [|discriminate].
    apply elem_of_cons in Hr' as [->|Hr']; [by exists p1, p2|].
    by apply (IH w1).
Qed.

Lemma isSolved_complete_full s placed w w' :
  Inv s placed → isSolved s false w = (w', Ret true) → length placed = 9%nat.
Proof.
  intros HI H.
  destruct (isSolved_loop_complete _ _ _ _ H (5, 8, 0)) as (p1 & p2 & _ & H2).
  { apply (bool_decide_unpack _). vm_compute. exact I. }
  pose proof (inv_len _ _ HI) as Hlen.
  rewrite (inv_board _ _ HI), slot_at_board_of in H2 by done.
  change (N.to_nat (NMAP_SECOND (5, 8, 0))) with 8%nat in H2.
  assert (placed !! 8%nat = Some p2) as Hl by congruence.
  apply lookup_lt_Some in Hl. lia.
Qed.

Lemma output_loop_Inv s placed (i : N) order w :
  Inv s placed → length placed = 9%nat →
  Forall (λ p, p < CARDS_IN_DECK) order →
  ∃ w', output_loop i order s w = (w', Ret tt).
Proof.
  intros HI Hfull Hord. revert i w.
  induction Hord as [|p order Hp _ IH]; intros i w; simpl.
  - by exists w.
  - rewrite (inv_board _ _ HI), slot_at_board_of
      by (try apply (inv_len _ _ HI); done).
    destruct (lookup_lt_is_Some_2 placed (N.to_nat p)) as [pc Hpc].
    { unfold CARDS_IN_DECK in Hp. lia. }
    rewrite Hpc.
    destruct (inv_card _ _ HI pc) as (c & Hc & Hc9);
      [by eapply list_elem_of_lookup_2|].
    apply deck_at_lt in Hc9 as [cd Hcd].
    unfold io_bind at 1 2 3 4. unfold lift at 1 2 3 4. simpl.
    rewrite Hc. simpl. rewrite Hcd. simpl.
    unfold io_bind at 1. simpl. unfold io_bind at 1.
    destruct (i <? CARDS_IN_DECK - 1); simpl; apply IH.
Qed.

Lemma output_Inv s placed w :
  Inv s placed → length placed = 9%nat → ∃ w', output s w = (w', Ret tt).
Proof.
  intros HI Hfull. unfold output.
  unfold io_bind at 1. simpl. unfold io_bind at 1. simpl.
  destruct (output_loop_Inv s placed 0 PRINTORDER
              (mkWorld (stdout w +:+ "[") (reported w ++ [s])) HI Hfull)
    as [w1 H1].
  { unfold PRINTORDER, CARDS_IN_DECK. repeat (constructor; [lia|]). constructor. }
  rewrite (io_bind_ret _ _ _ _ _ H1). by eexists.
Qed.

(** ** Termination of the search *)

Lemma chain_rank_bound s placed pc :
  Inv s (placed ++ [pc]) → chain_rank pc ≤ 26.
Proof.
  intros HI.
  assert (pc ∈ placed ++ [pc]) as Hpc by (apply elem_of_app; right; by left).
  destruct (inv_card _ _ HI pc Hpc) as (c & Hc & Hc9).
  pose proof (inv_rot _ _ HI pc Hpc) as Hrot.
  unfold chain_rank, CARDS_IN_DECK in *. rewrite Hc. lia.
Qed.

Lemma next_chain_Inv n s placed pc :
  Inv s (placed ++ [pc]) → 27 ≤ N.of_nat n + chain_rank pc →
  ∃ l, next_chain n s = Ret l ∧ N.of_nat (length l) + chain_rank pc ≤ 26.
Proof.
  revert s pc. induction n as [|n IH]; intros s pc HI Hn.
  - pose proof (chain_rank_bound _ _ _ HI). lia.
  - simpl.
    destruct (next_Inv _ _ _ HI) as [(Hnx & _)|(s' & pc' & Hnx & HI' & Hrank)];
      rewrite Hnx; simpl.
    + exists []. split; [done|]. pose proof (chain_rank_bound _ _ _ HI). simpl. lia.
    + destruct (IH s' pc' HI') as (l & Hl & Hlen); [lia|].
      rewrite Hl. simpl. exists (s' :: l). split; [done|]. simpl. lia.
Qed.

Lemma first_chain_Inv n s placed :
  Inv s placed → (10 ≤ n + length placed)%nat →
  ∃ l, first_chain n s = Ret l ∧ (length l + length placed ≤ 9)%nat.
Proof.
  revert s placed. induction n as [|n IH]; intros s placed HI Hn.
  - pose proof (inv_len _ _ HI). lia.
  - simpl.
    destruct (first_Inv _ _ HI) as [(Hf & _)|(s' & c & Hf & Hlt & HI' & _)];
      rewrite Hf; simpl.
    + exists []. split; [done|]. pose proof (inv_len _ _ HI). simpl. lia.
    + destruct (IH s' _ HI') as (l & Hl & Hlen);
        [rewrite length_app; simpl; lia|].
      rewrite Hl. simpl. exists (s' :: l). split; [done|].
      rewrite length_app in Hlen. simpl in *. lia.
Qed.

Lemma solve_loop_None (rec : GameState → io unit) (n : nat) :
  solve_loop rec n None = io_ret tt.
Proof. by destruct n. Qed.

Lemma solve_loop_Inv (rec : GameState → io unit) (k n : nat) s placed pc w :
  (∀ s' placed' w', Inv s' placed' → length placed' = k →
                    ∃ w'', rec s' w' = (w'', Ret tt)) →
  Inv s (placed ++ [pc]) → length (placed ++ [pc]) = k →
  27 ≤ N.of_nat n + chain_rank pc →
  ∃ w', solve_loop rec n (Some s) w = (w', Ret tt).
Proof.
  intros Hrec. revert s pc w. induction n as [|n IH]; intros s pc w HI Hk Hn.
  - pose proof (chain_rank_bound _ _ _ HI). lia.
  - simpl. destruct (Hrec s _ w HI Hk) as [w1 H1].
    rewrite (io_bind_ret _ _ _ _ _ H1).
    unfold io_bind at 1. unfold lift at 1.
    destruct (next_Inv _ _ _ HI) as [(Hnx & _)|(s' & pc' & Hnx & HI' & Hrank)];
      rewrite Hnx.
    + rewrite solve_loop_None. by exists w1.
    + apply (IH s' pc'); [done| |lia].
      rewrite length_app in *. simpl in *. lia.
Qed.

Lemma solve_Inv (depth width : nat) s placed w :
  Inv s placed → (10 ≤ depth + length placed)%nat → (27 ≤ width)%nat →
  ∃ w', solve depth width s w = (w', Ret tt).
Proof.
  intros HI Hd Hw. revert s placed w HI Hd.
  induction depth as [|depth IH]; intros s placed w HI Hd.
  - pose proof (inv_len _ _ HI). lia.
  - simpl.
    destruct (isSolved_Inv s placed true w HI) as [ok Hok].
    rewrite (io_bind_ret _ _ _ _ _ Hok).
    destruct ok; simpl; [|by exists w].
    destruct (isSolved_Inv s placed false w HI) as [full Hfull].
    rewrite (io_bind_ret _ _ _ _ _ Hfull).
    assert (∃ w1, (if full then output s else io_ret tt) w = (w1, Ret tt))
      as [w1 Hout].
    { destruct full; [|by exists w].
      apply (output_Inv s placed); [done|].
      by eapply isSolved_complete_full. }
    rewrite (io_bind_ret _ _ _ _ _ Hout).
    unfold io_bind at 1. unfold lift at 1.
    destruct (first_Inv _ _ HI) as [(Hf & _)|(s' & c & Hf & Hlt & HI' & _)];
      rewrite Hf.
    + rewrite solve_loop_None. by exists w1.
    + eapply (solve_loop_Inv _ (S (length placed))); [|exact HI'| |].
      * intros s2 placed2 w2 HI2 H2. apply (IH s2 placed2); [done|lia].
      * rewrite length_app. simpl. lia.
      * unfold chain_rank. simpl. lia.
Qed.

(** More fuel does not change what a run of [solve] does. *)
Lemma solve_loop_fuel (rec rec' : GameState → io unit) (n n' : nat) st w w' r :
  (∀ s w w' r, rec s w = (w', r) → r ≠ OutOfFuel → rec' s w = (w', r)) →
  (n ≤ n')%nat →
  solve_loop rec n st w = (w', r) → r ≠ OutOfFuel →
  solve_loop rec' n' st w = (w', r).
Proof.
  intros Hrec. revert n' st w.
  induction n as [|n IH]; intros n' st w Hn H Hr.
  - destruct st as [s|]; simpl in H.
    + unfold lift in H. by simplify_eq.
    + by destruct n'.
  - destruct st as [s|]; [|by destruct n'].
    destruct n' as [|n']; [lia|]. simpl in *.
    unfold io_bind at 1 in H. unfold io_bind at 1.
    destruct (rec s w) as [w1 r1] eqn:H1.
    destruct r1 as [[]| | |]; [| | |by simplify_eq];
      rewrite (Hrec _ _ _ _ H1) by done; [|by simplify_eq|by simplify_eq].
    unfold io_bind at 1 in H. unfold io_bind at 1. unfold lift at 1 in H.
    unfold lift at 1.
    destruct (next s) as [nx| | |]; try done.
    apply IH; [lia|done|done].
Qed.

Lemma solve_fuel (d d' n n' : nat) s w w' r :
  (d ≤ d')%nat → (n ≤ n')%nat →
  solve d n s w = (w', r) → r ≠ OutOfFuel → solve d' n' s w = (w', r).
Proof.
  intros Hd Hn. revert d' Hd s w w' r.
  induction d as [|d IH]; intros d' Hd s w w' r H Hr.
  - simpl in H. unfold lift in H. by simplify_eq.
  - destruct d' as [|d']; [lia|]. simpl in *.
    unfold io_bind at 1 in H. unfold io_bind at 1.
    destruct (isSolved s true w) as [w1 [ok| | |]]; try done.
    destruct ok; simpl in *; [|done].
    unfold io_bind at 1 in H. unfold io_bind at 1.
    destruct (isSolved s false w1) as [w2 [full| | |]]; try done.
    unfold io_bind at 1 in H. unfold io_bind at 1.
    destruct ((if full then output s else io_ret tt) w2) as [w3 [[]| | |]];
      try done.
    unfold io_bind at 1 in H. unfold io_bind at 1.
    unfold lift at 1 in H. unfold lift at 1.
    destruct (first s) as [nx| | |]; try done.
    eapply solve_loop_fuel; [|exact Hn|exact H|exact Hr].
    intros s0 w0 w0' r0 H0 Hr0. apply IH; [lia|done|done].
Qed.

(** ** The copy and the filled prefix *)




(** ** The search terminates *)

(** C9.  From every board derived from the empty one by [first] and
    [next], [solve] returns (it neither runs on for ever, nor exits, nor
    faults): recursion depth 10 and 27 rounds of the loop are enough, and
    more fuel gives the same run.  The boards [first] produces one below
    the other end after at most [9 - nextOnBoard] steps, and the boards
    [next] produces at one position end after at most 26 steps (nine cards
    times three rotations, less the one the chain starts from). *)
Theorem solve_terminates (s : GameState) :
  reachable s →
  (∀ w, ∃ w',
     solve 10 27 s w = (w', Ret tt)
     ∧ ∀ depth width, (10 ≤ depth)%nat → (27 ≤ width)%nat →
         solve depth width s w = (w', Ret tt))
  ∧ (∃ l, first_chain 10 s = Ret l
          ∧ N.of_nat (length l) + nextOnBoard s ≤ CARDS_IN_DECK)
  ∧ (1 ≤ nextOnBoard s →
     ∃ l, next_chain 27 s = Ret l ∧ (length l ≤ 26)%nat).
Proof.
  intros Hs. destruct (reachable_Inv s Hs) as [placed HI].
  split; [|split].
  - intros w. destruct (solve_Inv 10 27 s placed w HI) as [w' Hw']; [lia|lia|].
    exists w'. split; [done|]. intros depth width Hd Hw.
    by apply (solve_fuel 10 depth 27 width).
  - destruct (first_chain_Inv 10 s placed HI) as (l & Hl & Hlen); [lia|].
    exists l. split; [done|]. rewrite (inv_next _ _ HI).
    unfold CARDS_IN_DECK. lia.
  - intros Hpos. rewrite (inv_next _ _ HI) in Hpos.
    destruct placed as [|pc placed _] using rev_ind; [simpl in Hpos; lia|].
    destruct (next_chain_Inv 27 s placed pc HI) as (l & Hl & Hlen); [lia|].
    exists l. split; [done|]. lia.
Qed.

Lemma solve_terminates_witness :
  ∃ w', solve 10 27 empty_game empty_world = (w', Ret tt).
Proof.
  destruct (proj1 (solve_terminates empty_game reachable_empty) empty_world)
    as [w' [Hw' _]].
  by exists w'.
Defined.

(** ** The whole run *)

Lemma append_assoc (a b c : string) : (a +:+ b) +:+ c = a +:+ b +:+ c.
Proof.
  induction a as [|x a IH]; [done|].
  change (String x ((a +:+ b) +:+ c) = String x (a +:+ b +:+ c)). by rewrite IH.
Qed.

Lemma append_nil_r (a : string) : a +:+ "" = a.
Proof.
  induction a as [|x a IH]; [done|].
  change (String x (a +:+ "") = String x a). by rewrite IH.
Qed.

(** [output_loop] writes the names of [printed_names], with a comma after
    each but the ninth. *)
Lemma output_loop_printed g order names (i : N) w :
  mapM (λ p : sint,
          slot ← cardsOnBoard g !! N.to_nat p;
          pc ← slot;
          c ← card pc;
          name <$> deck_at c) order = Some names →
  Forall (λ p, p < CARDS_IN_DECK) order →
  i + N.of_nat (length order) = CARDS_IN_DECK →
  output_loop i order g w
  = (mkWorld (stdout w +:+ String.concat "," names) (reported w), Ret tt).
Proof.
  intros Hm Hord. revert names i w Hm.
  induction Hord as [|p order Hp Hord IH]; intros names i w Hm Hi.
  - assert (names = []) as -> by (cbv in Hm; congruence).
    destruct w as [out rep]. unfold io_ret. simpl. by rewrite append_nil_r.
  - rewrite mapM_Some in Hm. apply Forall2_cons_inv_l in Hm
      as (n & names' & Hn & Hm & ->).
    rewrite <- mapM_Some in Hm.
    destruct (cardsOnBoard g !! N.to_nat p) as [slot|] eqn:Hslot; [|done].
    destruct slot as [pc|]; [|done]. simpl in Hn.
    destruct (card pc) as [c|] eqn:Hc; [|done]. simpl in Hn.
    destruct (deck_at c) as [cd|] eqn:Hcd; [|done]. simpl in Hn.
    assert (name cd = n) as Hname by congruence.
    simpl. unfold slot_at.
    destruct (N.ltb_spec p CARDS_IN_DECK) as [_|]; [|lia].
    rewrite Hslot.
    unfold io_bind at 1 2 3 4. unfold lift at 1 2 3 4. simpl.
    rewrite Hc. simpl. rewrite Hcd. simpl.
    unfold io_bind at 1. simpl. unfold io_bind at 1.
    unfold CARDS_IN_DECK in *. simpl in Hi.
    destruct order as [|p' order].
    + assert (names' = []) as -> by (cbv in Hm; congruence).
      destruct (N.ltb_spec i (9 - 1)) as [|_]; [simpl in Hi; lia|].
      simpl. by rewrite Hname.
    + destruct (N.ltb_spec i (9 - 1)) as [_|]; [|simpl in Hi; lia].
      unfold printf. cbn beta iota. cbn [stdout reported].
      rewrite (IH names' (i + 1)) by (try done; simpl in *; lia).
      simpl. f_equal. f_equal.
      rewrite mapM_Some in Hm. apply Forall2_cons_inv_l in Hm
        as (n' & names'' & _ & _ & ->).
      rewrite Hname. simpl String.concat.
      by rewrite !append_assoc.
Qed.

(** [output] writes the line of the output contract and nothing else. *)
Lemma output_printed g names w :
  printed_names g = Some names →
  output g w = (mkWorld (stdout w +:+ solution_line names)
                        (reported w ++ [g]), Ret tt).
Proof.
  intros Hn. unfold output.
  unfold io_bind at 1. simpl. unfold io_bind at 1. simpl.
  rewrite (io_bind_ret _ _ _ _ _
             (output_loop_printed g PRINTORDER names 0 _ Hn ltac:(
                unfold PRINTORDER, CARDS_IN_DECK;
                repeat (constructor; [lia|]); constructor) eq_refl)).
  unfold printf, solution_line. simpl. by rewrite !append_assoc.
Qed.


Lemma main_run : main 10 27 = (main_world, Ret tt).
Proof. vm_compute. reflexivity. Qed.


(** * The store view *)

(** ** Running the store monad *)

Lemma mem_bind_ret {A B} (m : Heap.mem A) (k : A → Heap.mem B) h h' a :
  m h = Ret (a, h') → Heap.mem_bind m k h = k a h'.
Proof. intros H. unfold Heap.mem_bind. by rewrite H. Qed.

Lemma mem_bind_fault {A B} (m : Heap.mem A) (k : A → Heap.mem B) h :
  m h = Fault → Heap.mem_bind m k h = Fault.
Proof. intros H. unfold Heap.mem_bind. by rewrite H. Qed.

(** ** A state in the store and the value it stands for *)

Lemma preserved_refl h : preserved h h.
Proof. by split. Qed.

Lemma preserved_trans h1 h2 h3 :
  preserved h1 h2 → preserved h2 h3 → preserved h1 h3.
Proof. intros [? ?] [? ?]. split; by etrans. Qed.

Lemma preserved_rep h h' s g : preserved h h' → rep h s g → rep h' s g.
Proof.
  intros [Hc Hs] (slots & Hobj & Hrep). exists slots. split.
  - by eapply lookup_weaken.
  - eapply Forall2_impl; [done|]. intros [l|] [pc|]; simpl; try done.
    intros Hl. by eapply lookup_weaken.
Qed.

Lemma owned_rep h0 h r slots g : owned h0 h r slots g → rep h r g.
Proof. intros (_ & _ & Hobj & Hrep & _). by exists slots. Qed.

Lemma owned_preserved h h' r slots g : owned h h' r slots g → preserved h h'.
Proof. by intros (? & _). Qed.

Lemma slot_rep_weaken m m' slots board :
  m ⊆ m' → Forall2 (slot_rep m) slots board → Forall2 (slot_rep m') slots board.
Proof.
  intros Hsub H. eapply Forall2_impl; [done|].
  intros [l|] [pc|]; simpl; try done. intros Hl. by eapply lookup_weaken.
Qed.

Lemma slot_locs_cons_Some l slots :
  slot_locs (Some l :: slots) = l :: slot_locs slots.
Proof. done. Qed.

Lemma slot_locs_cons_None slots : slot_locs (None :: slots) = slot_locs slots.
Proof. done. Qed.

Lemma slot_locs_elem l slots : l ∈ slot_locs slots ↔ Some l ∈ slots.
Proof.
  unfold slot_locs. rewrite list_elem_of_omap. split.
  - intros ([x|] & Hin & Hx); simplify_eq/=. done.
  - intros H. by exists (Some l).
Qed.

Lemma slot_locs_nulls n : slot_locs (list.replicate n None) = [].
Proof. induction n as [|n IH]; [done|exact IH]. Qed.

(** Writing to an object that no slot points to. *)
Lemma slot_rep_insert_other m slots board l pc :
  l ∉ slot_locs slots →
  Forall2 (slot_rep m) slots board →
  Forall2 (slot_rep (<[l := pc]> m)) slots board.
Proof.
  intros Hl H. induction H as [|[l'|] [pc'|] slots board Hx H IH];
    try done; constructor.
  - simpl in *. rewrite slot_locs_cons_Some in Hl.
    apply not_elem_of_cons in Hl as [Hne _]. by rewrite lookup_insert_ne.
  - apply IH. rewrite slot_locs_cons_Some in Hl.
    by apply not_elem_of_cons in Hl as [_ ?].
  - done.
  - by apply IH.
Qed.

(** Writing to the object that slot [i] points to. *)
Lemma slot_rep_insert_at m slots board (i : nat) l pc :
  NoDup (slot_locs slots) →
  slots !! i = Some (Some l) →
  Forall2 (slot_rep m) slots board →
  Forall2 (slot_rep (<[l := pc]> m)) slots (<[i := Some pc]> board).
Proof.
  intros Hnd Hi H. revert i Hnd Hi.
  induction H as [|[l'|] [pc'|] slots board Hx H IH]; intros i Hnd Hi;
    try done.
  - rewrite slot_locs_cons_Some in Hnd. apply NoDup_cons in Hnd as [Hl' Hnd].
    destruct i as [|i]; simpl in *.
    + simplify_eq. constructor; [simpl; by rewrite lookup_insert_eq|].
      by apply slot_rep_insert_other.
    + constructor; [|by apply IH].
      simpl. rewrite lookup_insert_ne; [done|].
      intros ->. apply Hl'. apply slot_locs_elem.
      by eapply list_elem_of_lookup_2.
  - rewrite slot_locs_cons_None in Hnd.
    destruct i as [|i]; simpl in *; [done|]. constructor; [done|by apply IH].
Qed.

(** Pointing slot [i] to an object that no slot points to yet. *)
Lemma slot_rep_set_slot m slots board (i : nat) l pc :
  l ∉ slot_locs slots →
  NoDup (slot_locs slots) →
  Forall2 (slot_rep m) slots board →
  Forall2 (slot_rep (<[l := pc]> m)) (<[i := Some l]> slots)
          (<[i := Some pc]> board)
  ∧ NoDup (slot_locs (<[i := Some l]> slots))
  ∧ ∀ l', l' ∈ slot_locs (<[i := Some l]> slots) → l' = l ∨ l' ∈ slot_locs slots.
Proof.
  intros Hl Hnd H. revert i.
  induction H as [|p v slots board Hx H IH]; intros i.
  - simpl. split; [constructor|]. split; [constructor|]. intros l' Hl'.
    by apply elem_of_nil in Hl'.
  - assert ((l ∉ slot_locs slots) ∧ NoDup (slot_locs slots)) as [Hl2 Hnd2].
    { destruct p as [l0|].
      - rewrite slot_locs_cons_Some in Hl, Hnd.
        apply not_elem_of_cons in Hl as [_ ?].
        by apply NoDup_cons in Hnd as [_ ?].
      - by rewrite slot_locs_cons_None in Hl, Hnd. }
    destruct i as [|i]; simpl.
    + split; [|split].
      * constructor; [simpl; by rewrite lookup_insert_eq|].
        by apply slot_rep_insert_other.
      * rewrite slot_locs_cons_Some. by apply NoDup_cons.
      * intros l'. rewrite slot_locs_cons_Some. intros Hl'.
        apply elem_of_cons in Hl' as [->|Hl']; [by left|right].
        destruct p; [rewrite slot_locs_cons_Some; by right|done].
    + destruct (IH Hl2 Hnd2 i) as (IH1 & IH2 & IH3).
      split; [|split].
      * constructor; [|done]. destruct p as [l0|], v as [pc0|]; try done.
        simpl in *. rewrite lookup_insert_ne; [done|]. intros ->.
        apply Hl. rewrite slot_locs_cons_Some. by left.
      * destruct p as [l0|]; [|done]. rewrite slot_locs_cons_Some in *.
        apply NoDup_cons in Hnd as [Hl0 _]. apply NoDup_cons. split; [|done].
        intros Hin. destruct (IH3 _ Hin) as [->|]; [|done].
        apply Hl. by left.
      * intros l' Hl'. destruct p as [l0|].
        -- rewrite slot_locs_cons_Some in *.
           apply elem_of_cons in Hl' as [->|Hl']; [right; by left|].
           destruct (IH3 _ Hl') as [->|]; [by left|right; by right].
        -- rewrite slot_locs_cons_None in *. by apply IH3.
Qed.

(** ** [replicate] builds a copy of its own *)

Lemma fresh_card_None (m : gmap Heap.loc PlayedCard) : m !! fresh (dom m) = None.
Proof. apply not_elem_of_dom, is_fresh. Qed.

Lemma fresh_state_None (m : gmap Heap.loc Heap.State) :
  m !! fresh (dom m) = None.
Proof. apply not_elem_of_dom, is_fresh. Qed.

Lemma replicate_slots_sim src board cs0 ss :
  Forall2 (slot_rep cs0) src board →
  ∃ cs dst,
    Heap.replicate_slots src (Heap.mkHeap cs0 ss) = Ret (dst, Heap.mkHeap cs ss)
    ∧ cs0 ⊆ cs
    ∧ Forall2 (slot_rep cs) dst (replicate_slots board)
    ∧ Forall (λ l, cs0 !! l = None) (slot_locs dst)
    ∧ NoDup (slot_locs dst).
Proof.
  intros H. revert board cs0 H. induction src as [|[l|] src IH];
    intros board cs0 H; inversion H as [|p v src' board' Hx Hrest]; subst.
  - exists cs0, []. repeat split; try done; constructor.
  - destruct v as [pc|]; [|done]. simpl in Hx.
    set (l' := fresh (dom cs0)).
    assert (cs0 !! l' = None) as Hfresh by apply fresh_card_None.
    assert (l ≠ l') as Hne by (intros ->; congruence).
    assert (cs0 ⊆ <[l' := pc]> cs0) as Hsub by by apply insert_subseteq.
    destruct (IH board' (<[l' := pc]> cs0)) as (cs & dst & Hrun & Hcs & Hrep & Hfr & Hnd).
    { by eapply slot_rep_weaken. }
    exists cs, (Some l' :: dst). split; [|split; [|split; [|split]]].
    + simpl. unfold Heap.mem_bind at 1. unfold Heap.malloc_card. simpl.
      fold l'. unfold Heap.mem_bind at 1. unfold Heap.load_card. simpl.
      rewrite lookup_insert_ne by done. rewrite Hx.
      unfold Heap.mem_bind at 1. unfold Heap.store_card. simpl.
      rewrite lookup_insert_eq, insert_insert_eq.
      unfold Heap.mem_bind at 1. by rewrite Hrun.
    + by etrans.
    + simpl. constructor; [|done]. simpl. eapply lookup_weaken; [|done].
      apply lookup_insert_eq.
    + rewrite slot_locs_cons_Some. constructor; [done|].
      eapply Forall_impl; [done|]. intros l0 Hl0. simpl in Hl0.
      by eapply lookup_weaken_None.
    + rewrite slot_locs_cons_Some. apply NoDup_cons. split; [|done].
      intros Hin. rewrite Forall_forall in Hfr. specialize (Hfr _ Hin).
      simpl in Hfr. by rewrite lookup_insert_eq in Hfr.
  - destruct v as [pc|]; [done|].
    exists cs0, (None :: list.replicate (length src) None).
    split; [done|]. split; [done|]. split; [|split].
    + simpl. constructor; [done|]. rewrite <- (Forall2_length _ _ _ Hrest).
      by apply Forall2_replicate.
    + rewrite slot_locs_cons_None, slot_locs_nulls. constructor.
    + rewrite slot_locs_cons_None, slot_locs_nulls. constructor.
Qed.

Lemma load_state_run cs ss l g :
  ss !! l = Some g →
  Heap.load_state l (Heap.mkHeap cs ss) = Ret (g, Heap.mkHeap cs ss).
Proof. intros H. unfold Heap.load_state. simpl. by rewrite H. Qed.

Lemma store_state_run cs ss l g0 g :
  ss !! l = Some g0 →
  Heap.store_state l g (Heap.mkHeap cs ss)
  = Ret (tt, Heap.mkHeap cs (<[l := g]> ss)).
Proof. intros H. unfold Heap.store_state. simpl. by rewrite H. Qed.

Lemma load_card_run cs ss l pc :
  cs !! l = Some pc →
  Heap.load_card l (Heap.mkHeap cs ss) = Ret (pc, Heap.mkHeap cs ss).
Proof. intros H. unfold Heap.load_card. simpl. by rewrite H. Qed.

Lemma store_card_run cs ss l pc0 pc :
  cs !! l = Some pc0 →
  Heap.store_card l pc (Heap.mkHeap cs ss)
  = Ret (tt, Heap.mkHeap (<[l := pc]> cs) ss).
Proof. intros H. unfold Heap.store_card. simpl. by rewrite H. Qed.

Lemma replicate_sim h s g :
  rep h s g →
  ∃ h' r slots, Heap.replicate s h = Ret (r, h') ∧ owned h h' r slots (replicate g).
Proof.
  intros (src & Hobj & Hrep). destruct h as [cs0 ss]. simpl in *.
  set (r := fresh (dom ss)).
  assert (ss !! r = None) as Hfresh by apply fresh_state_None.
  assert (s ≠ r) as Hne by (intros ->; congruence).
  set (zero := Heap.mkState 0 0 (list.replicate (N.to_nat CARDS_IN_DECK) None)).
  destruct (replicate_slots_sim src (cardsOnBoard g) cs0 (<[r := zero]> ss) Hrep)
    as (cs & dst & Hrun & Hcs & Hrep' & Hfr & Hnd).
  eexists _, r, dst. split.
  - unfold Heap.replicate.
    rewrite (mem_bind_ret _ _ _ (Heap.mkHeap cs0 (<[r := zero]> ss)) r)
      by reflexivity.
    erewrite mem_bind_ret
      by (apply load_state_run; rewrite lookup_insert_ne by done; exact Hobj).
    cbn [Heap.cardsOnBoard Heap.nextOnBoard Heap.topOfTheDeck].
    erewrite mem_bind_ret by exact Hrun.
    erewrite mem_bind_ret by (eapply store_state_run; apply lookup_insert_eq).
    rewrite insert_insert_eq. reflexivity.
  - split; [split; [done|by apply insert_subseteq]|].
    split; [done|]. split; [apply lookup_insert_eq|]. done.
Qed.

(** ** Operations on a state of one's own *)

Lemma slot_rep_allocated m slots board l :
  Forall2 (slot_rep m) slots board → l ∈ slot_locs slots → is_Some (m !! l).
Proof.
  intros H Hl. apply slot_locs_elem in Hl.
  apply list_elem_of_lookup in Hl as [i Hi].
  destruct (Forall2_lookup_l _ _ _ _ _ H Hi) as ([pc|] & _ & Hr); [|done].
  by exists pc.
Qed.

Lemma owned_store_state h0 cs ss r slots g slots' g' :
  owned h0 (Heap.mkHeap cs ss) r slots g →
  Forall2 (slot_rep cs) slots' (cardsOnBoard g') →
  Forall (λ l, Heap.cards h0 !! l = None) (slot_locs slots') →
  NoDup (slot_locs slots') →
  owned h0
    (Heap.mkHeap cs
       (<[r := Heap.mkState (nextOnBoard g') (topOfTheDeck g') slots']> ss))
    r slots' g'.
Proof.
  intros ([Hc Hs] & Hfresh & Hobj & _) Hrep Hfr Hnd. simpl in *.
  split; [split; simpl; [done|]|].
  - apply insert_subseteq_r; done.
  - split; [done|]. split; [apply lookup_insert_eq|done].
Qed.

Lemma owned_store_card h0 cs ss r slots g (i : nat) l pc :
  owned h0 (Heap.mkHeap cs ss) r slots g →
  slots !! i = Some (Some l) →
  owned h0 (Heap.mkHeap (<[l := pc]> cs) ss) r slots
    (mkGameState (nextOnBoard g) (topOfTheDeck g)
       (<[i := Some pc]> (cardsOnBoard g))).
Proof.
  intros ([Hc Hs] & Hfresh & Hobj & Hrep & Hfr & Hnd) Hi. simpl in *.
  assert (Heap.cards h0 !! l = None) as Hl.
  { rewrite Forall_forall in Hfr. apply Hfr, slot_locs_elem.
    by eapply list_elem_of_lookup_2. }
  split; [split; simpl; [|done]|].
  - by apply insert_subseteq_r.
  - split; [done|]. split; [done|]. split; [|done].
    simpl. by apply slot_rep_insert_at.
Qed.

Lemma isCardOnBoard_loop_sim cs ss slots board value :
  Forall2 (slot_rep cs) slots board →
  Heap.isCardOnBoard_loop slots value (Heap.mkHeap cs ss)
  = Ret (isCardOnBoard (mkGameState 0 0 board) value, Heap.mkHeap cs ss).
Proof.
  unfold isCardOnBoard. simpl.
  induction 1 as [|[l|] [pc|] slots board Hx H IH]; try done; simpl.
  - erewrite mem_bind_ret by (by apply load_card_run).
    destruct (card pc) as [c|]; [|done].
    destruct (bool_decide (Some c = value)); [done|]. done.
Qed.

Lemma isCardOnBoard_sim h r g value :
  rep h r g →
  Heap.isCardOnBoard r value h = Ret (isCardOnBoard g value, h).
Proof.
  intros (slots & Hobj & Hrep). destruct h as [cs ss]. simpl in *.
  unfold Heap.isCardOnBoard.
  erewrite mem_bind_ret by (by apply load_state_run).
  simpl. by rewrite (isCardOnBoard_loop_sim cs ss slots (cardsOnBoard g)).
Qed.

Lemma nextFromDeck_loop_sim h0 cs ss r slots g (n : nat) (i : sint) :
  owned h0 (Heap.mkHeap cs ss) r slots g →
  ∃ ss',
    Heap.nextFromDeck_loop n i r (Heap.mkHeap cs ss)
    = Ret ((nextFromDeck_loop n i g).2, Heap.mkHeap cs ss')
    ∧ owned h0 (Heap.mkHeap cs ss') r slots (nextFromDeck_loop n i g).1.
Proof.
  intros Hown. revert i. induction n as [|n IH]; intros i; simpl.
  - by exists ss.
  - erewrite mem_bind_ret
      by (apply isCardOnBoard_sim; by eapply owned_rep).
    destruct (isCardOnBoard g (Some i)); [apply IH|]. simpl.
    pose proof Hown as (Hpres & Hfresh & Hobj & Hrep & Hfr & Hnd).
    simpl in Hobj.
    erewrite mem_bind_ret by (by apply load_state_run).
    erewrite mem_bind_ret by (by eapply store_state_run).
    eexists. split; [done|].
    by apply (owned_store_state h0 cs ss r slots g slots
                (mkGameState (nextOnBoard g) i (cardsOnBoard g))).
Qed.

Lemma nextFromDeck_sim h0 cs ss r slots g :
  owned h0 (Heap.mkHeap cs ss) r slots g →
  ∃ ss',
    Heap.nextFromDeck r (Heap.mkHeap cs ss)
    = Ret ((nextFromDeck g).2, Heap.mkHeap cs ss')
    ∧ owned h0 (Heap.mkHeap cs ss') r slots (nextFromDeck g).1.
Proof.
  intros Hown. unfold Heap.nextFromDeck, nextFromDeck.
  pose proof Hown as (_ & _ & Hobj & _). simpl in Hobj.
  erewrite mem_bind_ret by (by apply load_state_run). simpl.
  destruct (CARDS_IN_DECK <=? topOfTheDeck g); [by exists ss|].
  by apply nextFromDeck_loop_sim.
Qed.

Lemma malloc_card_run cs ss :
  Heap.malloc_card (Heap.mkHeap cs ss)
  = Ret (fresh (dom cs),
         Heap.mkHeap (<[fresh (dom cs) := mkPlayedCard 0 0 None]> cs) ss).
Proof. reflexivity. Qed.

Lemma addNewCard_sim h0 cs ss r slots g :
  owned h0 (Heap.mkHeap cs ss) r slots g →
  match addNewCard g with
  | Ret (g', ok) =>
      ∃ h' slots',
        Heap.addNewCard r (Heap.mkHeap cs ss) = Ret (ok, h')
        ∧ owned h0 h' r slots' g'
  | Fault => Heap.addNewCard r (Heap.mkHeap cs ss) = Fault
  | _ => False
  end.
Proof.
  intros Hown. unfold addNewCard, Heap.addNewCard.
  destruct (nextFromDeck_sim _ _ _ _ _ _ Hown) as (ss1 & Hrun & Hown1).
  erewrite mem_bind_ret by exact Hrun.
  destruct (nextFromDeck g) as [g1 [j|]]; simpl in *;
    [|by exists (Heap.mkHeap cs ss1), slots].
  pose proof Hown1 as ([Hc Hs] & Hfresh & Hobj & Hrep & Hfr & Hnd).
  simpl in Hc, Hs, Hobj, Hrep.
  set (l := fresh (dom cs)).
  assert (cs !! l = None) as Hl by apply fresh_card_None.
  assert (l ∉ slot_locs slots) as Hl'.
  { intros Hin. destruct (slot_rep_allocated _ _ _ _ Hrep Hin) as [? ?].
    congruence. }
  rewrite (mem_bind_ret _ _ _ _ _ (malloc_card_run cs ss1)). fold l.
  erewrite mem_bind_ret by (by apply load_state_run).
  cbn [Heap.nextOnBoard Heap.topOfTheDeck Heap.cardsOnBoard].
  erewrite mem_bind_ret by (eapply store_card_run; apply lookup_insert_eq).
  rewrite insert_insert_eq.
  unfold store_slot. simpl.
  destruct (nextOnBoard g1 <? CARDS_IN_DECK); simpl; [|done].
  erewrite mem_bind_ret by (by eapply store_state_run).
  erewrite mem_bind_ret by (apply load_state_run; apply lookup_insert_eq).
  cbn [Heap.nextOnBoard Heap.topOfTheDeck Heap.cardsOnBoard].
  erewrite mem_bind_ret by (eapply store_state_run; apply lookup_insert_eq).
  rewrite insert_insert_eq.
  destruct (slot_rep_set_slot cs slots (cardsOnBoard g1)
              (N.to_nat (nextOnBoard g1)) l
              (mkPlayedCard 0 (nextOnBoard g1) (Some j)) Hl' Hnd Hrep)
    as (Hrep' & Hnd' & Hsub).
  eexists _, _. split; [done|].
  assert (owned h0 (Heap.mkHeap (<[l := mkPlayedCard 0 (nextOnBoard g1) (Some j)]> cs) ss1)
            r slots g1) as Hown2.
  { split; [split; simpl; [|done]|].
    - etrans; [done|]. by apply insert_subseteq.
    - split; [done|]. split; [done|]. split; [|done].
      simpl. by apply slot_rep_insert_other. }
  apply (owned_store_state h0 _ ss1 r slots g1 _
           (mkGameState (to_sint (Z.of_N (nextOnBoard g1) + 1)) (topOfTheDeck g1)
              (<[N.to_nat (nextOnBoard g1) :=
                   Some (mkPlayedCard 0 (nextOnBoard g1) (Some j))]>
                 (cardsOnBoard g1)))); [done|done| |done].
  apply Forall_forall. intros l0 Hl0.
  destruct (Hsub _ Hl0) as [->|Hin].
  - by eapply lookup_weaken_None.
  - rewrite Forall_forall in Hfr. by apply Hfr.
Qed.

(** ** Giving a copy back *)

Lemma delete_slots_sim (cs0 cs : gmap Heap.loc PlayedCard) ss slots :
  cs0 ⊆ cs →
  Forall (λ l, cs0 !! l = None ∧ is_Some (cs !! l)) (slot_locs slots) →
  NoDup (slot_locs slots) →
  ∃ cs', Heap.delete_slots slots (Heap.mkHeap cs ss) = Ret (tt, Heap.mkHeap cs' ss)
         ∧ cs0 ⊆ cs'
         ∧ ∀ l, l ∉ slot_locs slots → cs' !! l = cs !! l.
Proof.
  revert cs. induction slots as [|[l|] slots IH]; intros cs Hsub Hall Hnd; simpl.
  - by exists cs.
  - rewrite slot_locs_cons_Some in Hall, Hnd.
    apply Forall_cons in Hall as [[Hl0 [pc Hl]] Hall].
    apply NoDup_cons in Hnd as [Hnotin Hnd].
    unfold Heap.mem_bind at 1. unfold Heap.free_card. simpl. rewrite Hl.
    destruct (IH (base.delete l cs)) as (cs' & Hrun & Hsub' & Hsame); [| |done|].
    + apply map_subseteq_spec. intros i x Hi.
      rewrite lookup_delete_ne by (intros ->; congruence).
      by eapply lookup_weaken.
    + rewrite Forall_forall in Hall. apply Forall_forall. intros l' Hl'.
      destruct (Hall _ Hl') as [H0 Hsome]. split; [done|].
      rewrite lookup_delete_ne; [done|]. by intros ->.
    + exists cs'. split; [done|]. split; [done|].
      intros l' Hl'. rewrite slot_locs_cons_Some in Hl'.
      apply not_elem_of_cons in Hl' as [Hne Hl'].
      rewrite Hsame by done. by rewrite lookup_delete_ne.
  - rewrite slot_locs_cons_None in Hall, Hnd.
    destruct (IH cs Hsub Hall Hnd) as (cs' & Hrun & Hsub' & Hsame).
    exists cs'. by rewrite slot_locs_cons_None.
Qed.

(** [delete] frees the state's object and the placements its slots
    point to, and nothing else. *)
Lemma delete_frees h0 h r slots g :
  owned h0 h r slots g →
  ∃ h', Heap.delete r h = Ret (tt, h')
        ∧ preserved h0 h'
        ∧ (∀ l, l ∉ slot_locs slots → Heap.cards h' !! l = Heap.cards h !! l)
        ∧ (∀ r', r' ≠ r → Heap.states h' !! r' = Heap.states h !! r').
Proof.
  destruct h as [cs ss].
  intros ([Hc Hs] & Hfresh & Hobj & Hrep & Hfr & Hnd). simpl in *.
  destruct (delete_slots_sim (Heap.cards h0) cs ss slots)
    as (cs' & Hrun & Hsub & Hsame); [done| |done|].
  { rewrite Forall_forall in Hfr. apply Forall_forall. intros l Hl.
    split; [by apply Hfr|]. by eapply slot_rep_allocated. }
  unfold Heap.delete.
  erewrite mem_bind_ret by (by apply load_state_run). simpl.
  erewrite mem_bind_ret by exact Hrun.
  unfold Heap.free_state. simpl. rewrite Hobj.
  eexists. split; [done|]. split; [split; simpl; [done|]|split; simpl].
  - apply map_subseteq_spec. intros i x Hi.
    rewrite lookup_delete_ne by (intros ->; congruence).
    by eapply lookup_weaken.
  - done.
  - intros r' Hr'. by rewrite lookup_delete_ne.
Qed.

Lemma delete_sim h0 h r slots g :
  owned h0 h r slots g →
  ∃ h', Heap.delete r h = Ret (tt, h') ∧ preserved h0 h'.
Proof.
  intros Hown. destruct (delete_frees _ _ _ _ _ Hown) as (h' & ? & ? & _).
  by exists h'.
Qed.

(** ** [first] and [next] on the store *)

Lemma first_sim h s g :
  rep h s g →
  match first g with
  | Ret (Some g') =>
      ∃ h' r slots, Heap.first s h = Ret (Some r, h') ∧ owned h h' r slots g'
  | Ret None => ∃ h', Heap.first s h = Ret (None, h') ∧ preserved h h'
  | Fault => Heap.first s h = Fault
  | _ => False
  end.
Proof.
  intros Hrep.
  destruct (replicate_sim h s g Hrep) as ([cs ss] & r & slots & Hrun & Hown).
  unfold first, Heap.first.
  erewrite mem_bind_ret by exact Hrun.
  pose proof Hown as (_ & _ & Hobj & Hrep1 & Hfr & Hnd). simpl in Hobj, Hrep1.
  erewrite mem_bind_ret by (by apply load_state_run).
  cbn [Heap.nextOnBoard Heap.topOfTheDeck Heap.cardsOnBoard].
  erewrite mem_bind_ret by (by eapply store_state_run).
  set (g1 := mkGameState (nextOnBoard (replicate g)) 0
               (cardsOnBoard (replicate g))).
  assert (owned h (Heap.mkHeap cs
                     (<[r := Heap.mkState (nextOnBoard g1) (topOfTheDeck g1)
                               slots]> ss)) r slots g1) as Hown1
    by by apply (owned_store_state h cs ss r slots (replicate g)).
  pose proof (addNewCard_sim _ _ _ _ _ _ Hown1) as Hadd.
  simpl in Hadd. simpl.
  destruct (addNewCard g1) as [[g2 ok]| | |]; simpl; try done.
  - destruct Hadd as (h2 & slots2 & Hrun2 & Hown2).
    erewrite mem_bind_ret by exact Hrun2.
    destruct ok.
    + by exists h2, r, slots2.
    + destruct (delete_sim _ _ _ _ _ Hown2) as (h3 & Hrun3 & Hpres).
      erewrite mem_bind_ret by exact Hrun3. by exists h3.
  - by apply mem_bind_fault.
Qed.

Lemma getLastAdded_sim h0 cs ss r slots g :
  owned h0 (Heap.mkHeap cs ss) r slots g →
  match getLastAdded g with
  | Ret (Some pc) =>
      ∃ l, Heap.getLastAdded r (Heap.mkHeap cs ss)
           = Ret (Some l, Heap.mkHeap cs ss)
           ∧ slots !! N.to_nat (last_index g) = Some (Some l)
           ∧ cs !! l = Some pc
           ∧ last_index g < CARDS_IN_DECK
  | Ret None =>
      Heap.getLastAdded r (Heap.mkHeap cs ss) = Ret (None, Heap.mkHeap cs ss)
  | Fault => Heap.getLastAdded r (Heap.mkHeap cs ss) = Fault
  | _ => False
  end.
Proof.
  intros (_ & _ & Hobj & Hrep & _). simpl in Hobj, Hrep.
  unfold getLastAdded, Heap.getLastAdded.
  erewrite mem_bind_ret by (by apply load_state_run).
  cbn [Heap.nextOnBoard Heap.cardsOnBoard].
  fold (last_index g). unfold slot_at, Heap.slot_at, Heap.mem_lift.
  destruct (N.ltb_spec (last_index g) CARDS_IN_DECK) as [Hlt|]; [|done].
  destruct (cardsOnBoard g !! N.to_nat (last_index g)) as [v|] eqn:Hv.
  - destruct (Forall2_lookup_r _ _ _ _ _ Hrep Hv) as (p & Hp & Hpv).
    rewrite Hp. simpl. destruct p as [l|], v as [pc|]; try done.
    by exists l.
  - assert (slots !! N.to_nat (last_index g) = None) as ->; [|done].
    apply lookup_ge_None. apply lookup_ge_None in Hv.
    by rewrite (Forall2_length _ _ _ Hrep).
Qed.

Lemma rotate_run cs ss l pc :
  cs !! l = Some pc →
  Heap.rotate (Some l) (Heap.mkHeap cs ss)
  = if 2 <=? rotation pc then Ret (false, Heap.mkHeap cs ss)
    else Ret (true,
              Heap.mkHeap
                (<[l := mkPlayedCard (to_sint (Z.of_N (rotation pc) + 1))
                                     (position pc) (card pc)]> cs) ss).
Proof.
  intros Hl. unfold Heap.rotate.
  rewrite (mem_bind_ret _ _ _ (Heap.mkHeap cs ss) l) by reflexivity.
  erewrite mem_bind_ret by (by apply load_card_run).
  destruct (2 <=? rotation pc); [done|].
  by erewrite mem_bind_ret by (by eapply store_card_run).
Qed.

Lemma replaceCard_sim h0 cs ss r slots g (at_ : sint) l pc :
  owned h0 (Heap.mkHeap cs ss) r slots g →
  at_ < CARDS_IN_DECK →
  slots !! N.to_nat at_ = Some (Some l) →
  cs !! l = Some pc →
  match replaceCard g at_ pc with
  | Ret (g', ok) =>
      ∃ h', Heap.replaceCard r l (Heap.mkHeap cs ss) = Ret (ok, h')
            ∧ owned h0 h' r slots g'
  | _ => False
  end.
Proof.
  intros Hown Hlt Hslot Hl. unfold replaceCard, Heap.replaceCard.
  destruct (nextFromDeck_sim _ _ _ _ _ _ Hown) as (ss1 & Hrun & Hown1).
  erewrite mem_bind_ret by exact Hrun.
  destruct (nextFromDeck g) as [g1 [j|]] eqn:Hnfd; simpl in *.
  - erewrite mem_bind_ret by (by apply load_card_run).
    erewrite mem_bind_ret by (by eapply store_card_run).
    unfold store_slot. destruct (N.ltb_spec at_ CARDS_IN_DECK) as [_|]; [|lia].
    simpl. eexists. split; [done|].
    by apply (owned_store_card h0 cs ss1 r slots g1).
  - by exists (Heap.mkHeap cs ss1).
Qed.

Lemma next_sim h s g :
  rep h s g →
  match next g with
  | Ret (Some g') =>
      ∃ h' r slots, Heap.next s h = Ret (Some r, h') ∧ owned h h' r slots g'
  | Ret None => ∃ h', Heap.next s h = Ret (None, h') ∧ preserved h h'
  | Fault => Heap.next s h = Fault
  | _ => False
  end.
Proof.
  intros Hrep.
  destruct (replicate_sim h s g Hrep) as ([cs ss] & r & slots & Hrun & Hown).
  unfold next, Heap.next.
  erewrite mem_bind_ret by exact Hrun.
  set (g1 := replicate g) in *.
  pose proof (getLastAdded_sim _ _ _ _ _ _ Hown) as Hlast.
  destruct (getLastAdded g1) as [[pc|]| | |]; simpl; try done.
  - destruct Hlast as (l & Hrun1 & Hslot & Hl & Hlt).
    erewrite mem_bind_ret by exact Hrun1.
    pose proof (rotate_run cs ss l pc Hl) as Hrot. unfold rotate.
    destruct (2 <=? rotation pc); simpl.
    + erewrite mem_bind_ret by exact Hrot. cbn beta iota.
      rewrite (mem_bind_ret _ _ _ (Heap.mkHeap cs ss) l) by reflexivity.
      pose proof (replaceCard_sim _ _ _ _ _ _ _ _ _ Hown Hlt Hslot Hl) as Hrepl.
      destruct (replaceCard g1 (last_index g1) pc) as [[g2 ok]| | |]; try done.
      destruct Hrepl as (h2 & Hrun2 & Hown2).
      erewrite mem_bind_ret by exact Hrun2. simpl.
      destruct ok.
      * by exists h2, r, slots.
      * destruct (delete_sim _ _ _ _ _ Hown2) as (h3 & Hrun3 & Hpres).
        erewrite mem_bind_ret by exact Hrun3. by exists h3.
    + erewrite mem_bind_ret by exact Hrot. cbn beta iota.
      unfold store_slot.
      destruct (N.ltb_spec (last_index g1) CARDS_IN_DECK) as [_|]; [|lia].
      simpl. eexists _, r, slots. split; [done|].
      by apply (owned_store_card h cs ss r slots g1).
  - erewrite mem_bind_ret by exact Hlast.
    by apply mem_bind_fault.
  - by apply mem_bind_fault.
Qed.

(** ** The search on the store *)

Lemma reads_ret {A} h (a : A) : reads h (Heap.proc_ret a) (io_ret a).
Proof. by intros w. Qed.

Lemma reads_run_io {A} h (m : io A) : reads h (Heap.run_io m) m.
Proof. intros w. unfold Heap.run_io, attach. by destruct (m w). Qed.

Lemma reads_bind {A B} h (hm : Heap.proc A) (pm : io A)
  (hk : A → Heap.proc B) (pk : A → io B) :
  reads h hm pm → (∀ a, reads h (hk a) (pk a)) →
  reads h (Heap.proc_bind hm hk) (io_bind pm pk).
Proof.
  intros Hm Hk w. unfold Heap.proc_bind, io_bind. rewrite Hm.
  unfold attach. destruct (pm w) as [w1 [a| | |]]; simpl; try done.
  apply Hk.
Qed.

Lemma reads_load {A B} h (m : Heap.mem A) (a : A)
  (hk : A → Heap.proc B) (pm : io B) :
  m h = Ret (a, h) → reads h (hk a) pm →
  reads h (Heap.proc_bind (Heap.run_mem m) hk) pm.
Proof.
  intros Hm Hk w. unfold Heap.proc_bind, Heap.run_mem. rewrite Hm. apply Hk.
Qed.

Lemma reads_ext {A} h (hm : Heap.proc A) (pm pm' : io A) :
  (∀ w, pm w = pm' w) → reads h hm pm' → reads h hm pm.
Proof. intros Heq H w. by rewrite Heq. Qed.

Lemma slot_at_sim cs slots board (i : sint) :
  Forall2 (slot_rep cs) slots board →
  match slot_at board i with
  | Ret v => ∃ p, Heap.slot_at slots i = Ret p ∧ slot_rep cs p v
  | Fault => Heap.slot_at slots i = Fault
  | _ => False
  end.
Proof.
  intros Hrep. unfold slot_at, Heap.slot_at.
  destruct (i <? CARDS_IN_DECK); [|done].
  destruct (board !! N.to_nat i) as [v|] eqn:Hv; simpl.
  - destruct (Forall2_lookup_r _ _ _ _ _ Hrep Hv) as (p & Hp & Hpv).
    exists p. by rewrite Hp.
  - assert (slots !! N.to_nat i = None) as ->; [|done].
    apply lookup_ge_None. apply lookup_ge_None in Hv.
    by rewrite (Forall2_length _ _ _ Hrep).
Qed.

Lemma matchesNeighbor_reads cs ss l1 l2 p1 p2 :
  cs !! l1 = Some p1 → cs !! l2 = Some p2 →
  reads (Heap.mkHeap cs ss) (Heap.matchesNeighbor l1 l2) (matchesNeighbor p1 p2).
Proof.
  intros H1 H2. unfold Heap.matchesNeighbor.
  eapply reads_load; [by apply load_card_run|].
  destruct (card p1) as [c|] eqn:Hc.
  - eapply reads_load; [by apply load_card_run|]. apply reads_run_io.
  - intros w. by rewrite matchesNeighbor_empty_this.
Qed.

Lemma isSolved_loop_reads cs ss s g slots rows partial :
  ss !! s = Some (Heap.mkState (nextOnBoard g) (topOfTheDeck g) slots) →
  Forall2 (slot_rep cs) slots (cardsOnBoard g) →
  reads (Heap.mkHeap cs ss) (Heap.isSolved_loop rows s partial)
        (isSolved_loop rows g partial).
Proof.
  intros Hobj Hrep. induction rows as [|r rows IH]; simpl.
  - apply reads_ret.
  - eapply reads_load; [by apply load_state_run|].
    cbn [Heap.cardsOnBoard].
    pose proof (slot_at_sim cs slots (cardsOnBoard g) (NMAP_FIRST r) Hrep) as H1.
    pose proof (slot_at_sim cs slots (cardsOnBoard g) (NMAP_SECOND r) Hrep) as H2.
    destruct (slot_at (cardsOnBoard g) (NMAP_FIRST r)) as [v1| | |];
      try done;
      try (intros w; unfold Heap.proc_bind, Heap.run_mem, Heap.mem_lift;
           by rewrite H1).
    destruct H1 as (c1 & H1 & Hr1).
    eapply reads_load; [unfold Heap.mem_lift; by rewrite H1|].
    destruct (slot_at (cardsOnBoard g) (NMAP_SECOND r)) as [v2| | |];
      try done;
      try (intros w; unfold Heap.proc_bind, Heap.run_mem, Heap.mem_lift;
           by rewrite H2).
    destruct H2 as (c2 & H2 & Hr2).
    eapply reads_load; [unfold Heap.mem_lift; by rewrite H2|].
    intros w. unfold io_bind at 1 2, lift at 1 2. revert w.
    destruct c1 as [l1|], v1 as [p1|]; try done;
      destruct c2 as [l2|], v2 as [p2|]; try done;
      try (destruct partial; [apply IH|apply reads_ret]).
    apply reads_bind; [by apply matchesNeighbor_reads|].
    intros [|]; [apply IH|apply reads_ret].
Qed.

Lemma rep_abs h s g : rep h s g → Heap.abs h s = Some g.
Proof.
  intros (slots & Hobj & Hrep). unfold Heap.abs. rewrite Hobj. simpl.
  assert (mapM (Heap.abs_slot h) slots = Some (cardsOnBoard g)) as ->.
  { apply mapM_Some. eapply Forall2_impl; [done|].
    intros [l|] [pc|]; simpl; try done. by intros ->. }
  simpl. by destruct g.
Qed.

Lemma output_loop_reads cs ss s g slots (i : N) order :
  ss !! s = Some (Heap.mkState (nextOnBoard g) (topOfTheDeck g) slots) →
  Forall2 (slot_rep cs) slots (cardsOnBoard g) →
  reads (Heap.mkHeap cs ss) (Heap.output_loop i order s) (output_loop i order g).
Proof.
  intros Hobj Hrep. revert i. induction order as [|p order IH]; intros i; simpl.
  - apply reads_ret.
  - eapply reads_load; [by apply load_state_run|].
    cbn [Heap.cardsOnBoard].
    pose proof (slot_at_sim cs slots (cardsOnBoard g) p Hrep) as H1.
    destruct (slot_at (cardsOnBoard g) p) as [v| | |];
      try done;
      try (intros w; unfold Heap.proc_bind, Heap.run_mem, Heap.mem_lift;
           by rewrite H1).
    destruct H1 as (c & H1 & Hr).
    eapply reads_load; [unfold Heap.mem_lift; by rewrite H1|].
    destruct c as [l|], v as [pc|]; try done.
    simpl in Hr.
    eapply reads_load; [reflexivity|].
    eapply reads_load; [by apply load_card_run|].
    eapply reads_ext;
      [intros w; unfold io_bind at 1 2; unfold lift at 1 2; simpl; reflexivity|].
    destruct (card pc) as [ix|]; [|by intros w].
    eapply reads_load; [reflexivity|].
    eapply reads_ext;
      [intros w; unfold io_bind at 1; unfold lift at 1; simpl; reflexivity|].
    destruct (deck_at ix) as [cd|] eqn:Hcd; [|by intros w].
    eapply reads_load; [reflexivity|].
    eapply reads_ext;
      [intros w; unfold io_bind at 1; unfold lift at 1; simpl; reflexivity|].
    assert (reads (Heap.mkHeap cs ss)
              (Heap.proc_bind (Heap.run_io (printf (name cd)))
                 (λ _, Heap.proc_bind
                         (if i <? CARDS_IN_DECK - 1
                          then Heap.run_io (printf ",") else Heap.proc_ret tt)
                         (λ _, Heap.output_loop (i + 1) order s)))
              (io_bind (printf (name cd))
                 (λ _, io_bind
                         (if i <? CARDS_IN_DECK - 1
                          then printf "," else io_ret tt)
                         (λ _, output_loop (i + 1) order g)))) as Hrest.
    { apply reads_bind; [apply reads_run_io|]. intros _.
      apply reads_bind; [|intros _; apply IH].
      destruct (i <? CARDS_IN_DECK - 1); [apply reads_run_io|apply reads_ret]. }
    exact Hrest.
Qed.

Lemma output_reads h s g : rep h s g → reads h (Heap.output s) (output g).
Proof.
  intros Hrep. pose proof (rep_abs _ _ _ Hrep) as Habs.
  destruct Hrep as (slots & Hobj & Hrep). destruct h as [cs ss]. simpl in *.
  unfold Heap.output, output.
  apply reads_bind.
  { intros w. unfold Heap.ghost_report. rewrite Habs. apply reads_run_io. }
  intros _. apply reads_bind; [apply reads_run_io|]. intros _.
  apply reads_bind; [by eapply output_loop_reads|]. intros _.
  apply reads_run_io.
Qed.

Lemma isSolved_reads h s g partial :
  rep h s g → reads h (Heap.isSolved s partial) (isSolved g partial).
Proof.
  intros (slots & Hobj & Hrep). destruct h as [cs ss]. simpl in *.
  by eapply isSolved_loop_reads.
Qed.

Lemma proc_bind_ret {A B} (m : Heap.proc A) (k : A → Heap.proc B) w h w' h' a :
  m w h = (w', Ret (a, h')) → Heap.proc_bind m k w h = k a w' h'.
Proof. intros H. unfold Heap.proc_bind. by rewrite H. Qed.

Lemma reads_run {A} h (hm : Heap.proc A) (pm : io A) w w' a :
  reads h hm pm → pm w = (w', Ret a) → hm w h = (w', Ret (a, h)).
Proof. intros Hreads Hpm. rewrite Hreads. unfold attach. by rewrite Hpm. Qed.

Lemma owned_mono h0 h h1 r slots g :
  owned h0 h r slots g → preserved h h1 → owned h0 h1 r slots g.
Proof.
  intros (Hpres & Hfresh & Hobj & Hrep & Hfr & Hnd) Hpres1.
  split; [by eapply preserved_trans|]. split; [done|].
  destruct Hpres1 as [Hc Hs].
  split; [by eapply lookup_weaken|]. split; [|done].
  by eapply slot_rep_weaken.
Qed.

Lemma slot_rep_transfer (m m' : gmap Heap.loc PlayedCard) slots board :
  (∀ l, l ∈ slot_locs slots → m' !! l = m !! l) →
  Forall2 (slot_rep m) slots board → Forall2 (slot_rep m') slots board.
Proof.
  intros Hsame H. induction H as [|[l|] [pc|] slots board Hx H IH];
    try done; constructor.
  - simpl in *. rewrite Hsame; [done|]. rewrite slot_locs_cons_Some. by left.
  - apply IH. intros l' Hl'. apply Hsame. rewrite slot_locs_cons_Some. by right.
  - done.
  - apply IH. intros l' Hl'. apply Hsame. by rewrite slot_locs_cons_None.
Qed.

(** Giving back the state a copy was made from leaves the copy whole. *)
Lemma owned_after_delete h0 h1 h2 h3 st slots_st gst r slots_r g' :
  owned h0 h1 st slots_st gst →
  owned h1 h2 r slots_r g' →
  preserved h0 h3 →
  (∀ l, l ∉ slot_locs slots_st → Heap.cards h3 !! l = Heap.cards h2 !! l) →
  (∀ r', r' ≠ st → Heap.states h3 !! r' = Heap.states h2 !! r') →
  owned h0 h3 r slots_r g'.
Proof.
  intros (Hpres0 & Hfresh0 & Hobj0 & Hrep0 & Hfr0 & Hnd0)
         (Hpres1 & Hfresh1 & Hobj1 & Hrep1 & Hfr1 & Hnd1) Hpres3 Hcards Hstates.
  assert (r ≠ st) as Hne by (intros ->; congruence).
  assert (∀ l, l ∈ slot_locs slots_r → l ∉ slot_locs slots_st) as Hdisj.
  { intros l Hl Hl'. rewrite Forall_forall in Hfr1. specialize (Hfr1 _ Hl).
    destruct (slot_rep_allocated _ _ _ _ Hrep0 Hl') as [? ?]. simpl in *.
    congruence. }
  split; [done|]. split.
  { destruct Hpres0 as [_ Hs]. by eapply lookup_weaken_None. }
  split; [by rewrite Hstates|]. split; [|split; [|done]].
  - eapply slot_rep_transfer; [|done].
    intros l Hl. apply Hcards. by apply Hdisj.
  - eapply Forall_impl; [done|]. intros l Hl. simpl in Hl.
    destruct Hpres0 as [Hc _]. by eapply lookup_weaken_None.
Qed.

Lemma solve_loop_sim (prec : GameState → io unit) (hrec : Heap.loc → Heap.proc unit)
  (n : nat) h0 h st slots gst w w' :
  (∀ s g w w' h, rep h s g → prec g w = (w', Ret tt) →
                 ∃ h', hrec s w h = (w', Ret (tt, h')) ∧ preserved h h') →
  owned h0 h st slots gst →
  solve_loop prec n (Some gst) w = (w', Ret tt) →
  ∃ h', Heap.solve_loop hrec n (Some st) w h = (w', Ret (tt, h'))
        ∧ preserved h0 h'.
Proof.
  intros Hrec. revert h st slots gst w.
  induction n as [|n IH]; intros h st slots gst w Hown Hrun; [done|].
  simpl in Hrun. apply io_bind_inv in Hrun as (w1 & [] & Hrun1 & Hrun).
  apply io_bind_inv in Hrun as (w2 & nx & Hnext & Hrun).
  unfold lift in Hnext.
  assert (w2 = w1 ∧ next gst = Ret nx) as [-> Hnx] by (by simplify_eq).
  destruct (Hrec st gst w w1 h (owned_rep _ _ _ _ _ Hown) Hrun1)
    as (h1 & Hh1 & Hpres1).
  pose proof (owned_mono _ _ _ _ _ _ Hown Hpres1) as Hown1.
  pose proof (next_sim h1 st gst (owned_rep _ _ _ _ _ Hown1)) as Hsim.
  rewrite Hnx in Hsim. simpl.
  erewrite proc_bind_ret by exact Hh1.
  destruct nx as [g'|].
  - destruct Hsim as (h2 & r & slots_r & Hh2 & Hown2).
    erewrite proc_bind_ret by (unfold Heap.run_mem; by rewrite Hh2).
    pose proof (owned_mono _ _ _ _ _ _ Hown1 (owned_preserved _ _ _ _ _ Hown2))
      as Hown_st.
    destruct (delete_frees _ _ _ _ _ Hown_st)
      as (h3 & Hh3 & Hpres3 & Hcards & Hstates).
    erewrite proc_bind_ret by (unfold Heap.run_mem; by rewrite Hh3).
    apply (IH h3 r slots_r g' w1); [|done].
    by eapply (owned_after_delete h0 h1 h2 h3 st slots gst).
  - destruct Hsim as (h2 & Hh2 & Hpres2).
    erewrite proc_bind_ret by (unfold Heap.run_mem; by rewrite Hh2).
    pose proof (owned_mono _ _ _ _ _ _ Hown1 Hpres2) as Hown_st.
    destruct (delete_sim _ _ _ _ _ Hown_st) as (h3 & Hh3 & Hpres3).
    erewrite proc_bind_ret by (unfold Heap.run_mem; by rewrite Hh3).
    rewrite solve_loop_None in Hrun. unfold io_ret in Hrun. simplify_eq.
    exists h3. split; [by destruct n|done].
Qed.

Lemma solve_sim (depth width : nat) h s g w w' :
  rep h s g →
  solve depth width g w = (w', Ret tt) →
  ∃ h', Heap.solve depth width s w h = (w', Ret (tt, h')) ∧ preserved h h'.
Proof.
  revert h s g w w'. induction depth as [|depth IH]; intros h s g w w' Hrep Hrun;
    [done|].
  simpl in Hrun. simpl.
  apply io_bind_inv in Hrun as (w1 & ok & Hok & Hrun).
  erewrite proc_bind_ret
    by (eapply reads_run; [by apply isSolved_reads|exact Hok]).
  destruct ok; simpl in *.
  - apply io_bind_inv in Hrun as (w2 & full & Hfull & Hrun).
    erewrite proc_bind_ret
      by (eapply reads_run; [by apply isSolved_reads|exact Hfull]).
    apply io_bind_inv in Hrun as (w3 & [] & Hout & Hrun).
    erewrite proc_bind_ret.
    2:{ eapply (reads_run h _ (if full then output g else io_ret tt));
          [|exact Hout].
        destruct full; [by apply output_reads|apply reads_ret]. }
    apply io_bind_inv in Hrun as (w4 & nx & Hfirst & Hrun).
    unfold lift in Hfirst.
    assert (w4 = w3 ∧ first g = Ret nx) as [-> Hnx] by (by simplify_eq).
    pose proof (first_sim h s g Hrep) as Hsim. rewrite Hnx in Hsim.
    destruct nx as [g'|].
    + destruct Hsim as (h1 & r & slots & Hh1 & Hown).
      erewrite proc_bind_ret by (unfold Heap.run_mem; by rewrite Hh1).
      eapply (solve_loop_sim (solve depth width)); [|exact Hown|exact Hrun].
      intros s0 g0 w0 w0' h0. apply IH.
    + destruct Hsim as (h1 & Hh1 & Hpres).
      erewrite proc_bind_ret by (unfold Heap.run_mem; by rewrite Hh1).
      rewrite solve_loop_None in Hrun. unfold io_ret in Hrun. simplify_eq.
      exists h1. split; [by destruct width|done].
  - unfold io_ret in Hrun. simplify_eq. exists h. split; [done|].
    apply preserved_refl.
Qed.

Lemma owned_apart h h' r slots g : owned h h' r slots g → apart h h' r.
Proof.
  intros (_ & Hfresh & Hobj & _ & Hfr & Hnd). split; [done|].
  eexists. split; [done|]. by split.
Qed.

(** C8.  Let the object at [s] in the store [h] stand for the board state
    [g].  Then [first(s)] and [next(s)] do on the store what [first] and
    [next] do on [g], and when they return, every object that was in the
    store before the call - the state [s], its placements, and any state
    [s] was itself copied from - is still there with the same content.
    A returned state is a new object whose placements are new objects,
    different from each other, and it stands for the successor; a NULL
    result leaves the store's objects as they were.  On every board
    derived from the empty one the calls return ([next]: with at least one
    placement), and so does the whole search below [s]: it writes what the
    search on values writes and, with all its copies made, used and given
    back, leaves every object of the store as it was.  The copies are
    made by [first] and [next] alone, and these write to the copy only:
    no state is written to once a copy has been made of it. *)
Theorem first_next_leave_receiver (h : Heap.heap) (s : Heap.loc)
  (g : GameState) :
  rep h s g →
  transition_frame (first g) (Heap.first s h) h s g
  ∧ transition_frame (next g) (Heap.next s h) h s g
  ∧ (reachable g →
     (∃ r, first g = Ret r)
     ∧ (1 ≤ nextOnBoard g → ∃ r, next g = Ret r)
     ∧ ∀ w, ∃ w' h',
         solve 10 27 g w = (w', Ret tt)
         ∧ Heap.solve 10 27 s w h = (w', Ret (tt, h'))
         ∧ preserved h h' ∧ rep h' s g).
Proof.
  intros Hrep. split; [|split].
  - pose proof (first_sim h s g Hrep) as H. unfold transition_frame.
    destruct (first g) as [[g'|]| | |]; try done.
    + destruct H as (h' & r & slots & Hrun & Hown). exists h', r.
      pose proof (owned_preserved _ _ _ _ _ Hown) as Hpres.
      split; [done|]. split; [done|]. split; [by eapply preserved_rep|].
      split; [by eapply owned_rep|by eapply owned_apart].
    + destruct H as (h' & Hrun & Hpres). exists h'.
      split; [done|]. split; [done|]. by eapply preserved_rep.
  - pose proof (next_sim h s g Hrep) as H. unfold transition_frame.
    destruct (next g) as [[g'|]| | |]; try done.
    + destruct H as (h' & r & slots & Hrun & Hown). exists h', r.
      pose proof (owned_preserved _ _ _ _ _ Hown) as Hpres.
      split; [done|]. split; [done|]. split; [by eapply preserved_rep|].
      split; [by eapply owned_rep|by eapply owned_apart].
    + destruct H as (h' & Hrun & Hpres). exists h'.
      split; [done|]. split; [done|]. by eapply preserved_rep.
  - intros Hreach. destruct (reachable_Inv g Hreach) as [placed HI].
    split; [|split].
    + destruct (first_Inv _ _ HI) as [[Hf _]|(s' & c & Hf & _)]; by eexists.
    + intros Hpos. rewrite (inv_next _ _ HI) in Hpos.
      destruct placed as [|pc placed _] using rev_ind; [simpl in Hpos; lia|].
      destruct (next_Inv _ _ _ HI) as [[Hn _]|(s' & pc' & Hn & _)]; by eexists.
    + intros w.
      destruct (solve_Inv 10 27 g placed w HI) as [w' Hw']; [lia|lia|].
      destruct (solve_sim 10 27 h s g w w' Hrep Hw') as (h' & Hrun & Hpres).
      exists w', h'. split; [done|]. split; [done|]. split; [done|].
      by eapply preserved_rep.
Qed.

Lemma first_next_leave_receiver_witness :
  transition_frame (next sample_game) (Heap.next 1%positive sample_heap)
    sample_heap 1%positive sample_game.
Proof.
  apply (first_next_leave_receiver sample_heap 1%positive sample_game).
  exists (Some 1%positive :: list.replicate 8 None).
  split; [reflexivity|]. repeat constructor.
Defined.

(** ** What the program prints *)

(** X3.  The six lines the program prints, in the order it finds them. *)
Theorem main_prints_six_lines :
  ∃ w,
    main 10 27 = (w, Ret tt)
    ∧ length (reported w) = 6%nat
    ∧ stdout w
      = String.concat ""
          (map (λ l, l +:+ newline)
             [ "[P9,P7,P2,P1,P8,P6,P5,P4,P3]";
               "[P3,P1,P4,P5,P9,P2,P7,P6,P8]";
               "[P8,P5,P6,P7,P3,P4,P1,P2,P9]";
               "[P1,P3,P7,P6,P5,P9,P4,P8,P2]";
               "[P2,P6,P8,P4,P1,P7,P3,P9,P5]";
               "[P5,P4,P9,P3,P2,P8,P6,P7,P1]" ]%string).
Proof.
  exists main_world. split; [exact main_run|]. split; reflexivity.
Qed.

(** * The search as a whole *)

(** ** What the checks compute *)

Lemma matchesNeighbor_Inv_value s placed r p1 p2 w :
  Inv s placed → r ∈ NEIGHBORMAP →
  placed !! N.to_nat (NMAP_FIRST r) = Some p1 →
  placed !! N.to_nat (NMAP_SECOND r) = Some p2 →
  matchesNeighbor p1 p2 w = (w, Ret (pair_matches (NMAP_COMMON_EDGE r) p1 p2)).
Proof.
  intros HI Hr H1 H2.
  destruct (matchesNeighbor_Inv s placed r p1 p2 w HI Hr H1 H2) as [b Hb].
  rewrite Hb. f_equal. f_equal.
  destruct (inv_card _ _ HI p1) as (c1 & Hc1 & _);
    [by eapply list_elem_of_lookup_2|].
  apply matchesNeighbor_ret in Hb as [_ [[Hnone _]|(c & e1 & e2 & Hin & He1 & He2 & ->)]];
    [congruence|].
  assert (c = NMAP_COMMON_EDGE r) as ->.
  { destruct r as [[a b] c']. unfold NMAP_FIRST, NMAP_SECOND, NMAP_COMMON_EDGE in *.
    simpl in *.
    rewrite (inv_pos _ _ HI _ _ H1), (inv_pos _ _ HI _ _ H2), !N2Nat.id in Hin.
    pose proof NEIGHBORMAP_keys_NoDup as Hnd.
    apply list_elem_of_lookup in Hin as [i Hi].
    apply list_elem_of_lookup in Hr as [j Hj].
    assert (i = j) as ->.
    { assert (NEIGHBORMAP.*1 !! i = Some (a, b)) as Ha
        by (by rewrite list_lookup_fmap, Hi).
      assert (NEIGHBORMAP.*1 !! j = Some (a, b)) as Hb
        by (rewrite list_lookup_fmap; exact (f_equal (fmap fst) Hj)).
      exact (NoDup_lookup _ i j (a, b) Hnd Ha Hb). }
    pose proof (eq_trans (eq_sym Hi) Hj) as Hij. by inversion Hij. }
  unfold pair_matches. by rewrite He1, He2.
Qed.

Lemma isSolved_loop_value rows s placed partial w :
  Inv s placed → (∀ r, r ∈ rows → r ∈ NEIGHBORMAP) →
  isSolved_loop rows s partial w
  = (w, Ret (forallb (row_ok placed partial) rows)).
Proof.
  intros HI. induction rows as [|r rows IH]; intros Hrows; simpl; [done|].
  assert (r ∈ NEIGHBORMAP) as Hr by (apply Hrows; by left).
  specialize (IH (λ r' Hr', Hrows r' (list_elem_of_further _ _ _ Hr'))).
  destruct (NEIGHBORMAP_ordered r Hr) as (Hlt & Hlt9 & _).
  rewrite (inv_board _ _ HI).
  rewrite !slot_at_board_of
    by (try apply (inv_len _ _ HI); unfold CARDS_IN_DECK in *; lia).
  unfold io_bind at 1 2. unfold lift at 1 2. unfold row_ok at 1.
  destruct (placed !! N.to_nat (NMAP_FIRST r)) as [p1|] eqn:H1;
    destruct (placed !! N.to_nat (NMAP_SECOND r)) as [p2|] eqn:H2;
    try (destruct partial; [exact IH|done]).
  rewrite (io_bind_ret _ _ _ _ _
             (matchesNeighbor_Inv_value _ _ _ _ _ w HI Hr H1 H2)).
  destruct (pair_matches _ p1 p2); [exact IH|done].
Qed.

Lemma isSolved_value s placed partial w :
  Inv s placed →
  isSolved s partial w = (w, Ret (forallb (row_ok placed partial) NEIGHBORMAP)).
Proof. intros HI. by apply isSolved_loop_value. Qed.

(** ** The candidates [first] and [next] go through *)

Lemma free_from_step placed (a : N) :
  a < CARDS_IN_DECK →
  free_from placed a
  = (if decide (Some a ∉ card <$> placed) then [a] else [])
    ++ free_from placed (a + 1).
Proof.
  intros Ha. unfold free_from, CARDS_IN_DECK in *.
  replace (N.to_nat 9 - N.to_nat a)%nat
    with (S (N.to_nat 9 - N.to_nat (a + 1))) by lia.
  cbn [seq]. rewrite fmap_cons, N2Nat.id.
  replace (S (N.to_nat a)) with (N.to_nat (a + 1)) by lia.
  rewrite filter_cons. by destruct (decide _).
Qed.

Lemma free_from_end placed (a : N) : CARDS_IN_DECK ≤ a → free_from placed a = [].
Proof.
  intros Ha. unfold free_from, CARDS_IN_DECK in *.
  by replace (N.to_nat 9 - N.to_nat a)%nat with 0%nat by lia.
Qed.

Lemma free_from_scan placed (a j : N) :
  a ≤ j → j < CARDS_IN_DECK →
  (∀ k, a ≤ k → k < j → Some k ∈ card <$> placed) →
  Some j ∉ card <$> placed →
  free_from placed a = j :: free_from placed (j + 1).
Proof.
  intros Haj Hj. remember (N.to_nat (j - a)) as d eqn:Hd.
  revert a Haj Hd. induction d as [|d IH]; intros a Haj Hd Hall Hfree.
  - assert (a = j) as -> by lia.
    rewrite free_from_step by done. by rewrite decide_True.
  - rewrite free_from_step by lia.
    rewrite decide_False by (intros Hn; apply Hn, Hall; lia).
    simpl. apply IH; [lia|lia| |done].
    intros k Hk1 Hk2. apply Hall; lia.
Qed.

Lemma free_from_none placed (a : N) :
  (∀ k, a ≤ k → k < CARDS_IN_DECK → Some k ∈ card <$> placed) →
  free_from placed a = [].
Proof.
  remember (N.to_nat (CARDS_IN_DECK - a)) as d eqn:Hd.
  revert a Hd. induction d as [|d IH]; intros a Hd Hall.
  - apply free_from_end. lia.
  - rewrite free_from_step by lia.
    rewrite decide_False by (intros Hn; apply Hn, Hall; lia).
    simpl. apply IH; [lia|]. intros k Hk1 Hk2. apply Hall; lia.
Qed.

Lemma elem_of_free_from placed (a c : N) :
  c ∈ free_from placed a ↔ a ≤ c ∧ c < CARDS_IN_DECK ∧ Some c ∉ card <$> placed.
Proof.
  unfold free_from, CARDS_IN_DECK. rewrite list_elem_of_filter, list_elem_of_fmap.
  split.
  - intros (Hfree & n & -> & Hn). apply elem_of_seq in Hn. split; [lia|].
    split; [lia|done].
  - intros (H1 & H2 & H3). split; [done|]. exists (N.to_nat c).
    split; [by rewrite N2Nat.id|]. apply elem_of_seq. lia.
Qed.

Lemma Inv_child s placed pc : Inv s (placed ++ [pc]) → s = child placed pc.
Proof.
  intros HI. destruct s as [nb top board]. unfold child.
  pose proof (inv_board _ _ HI) as Hb. pose proof (inv_next _ _ HI) as Hn.
  pose proof (inv_top _ _ HI pc (last_snoc _ _)) as Ht. simpl in *.
  rewrite Ht, Hb, Hn, length_app. simpl. f_equal. lia.
Qed.

Lemma first_least s placed s' :
  Inv s placed → first s = Ret (Some s') →
  ¬ on_board s (topOfTheDeck s') ∧ ∀ j, j < topOfTheDeck s' → on_board s j.
Proof.
  intros HI. unfold first. rewrite (Inv_replicate _ _ HI).
  unfold addNewCard. simpl.
  change (mkGameState (nextOnBoard s) 0 (cardsOnBoard s)) with (set_top s 0).
  destruct (nextFromDeck (set_top s 0)) as [g' [c|]] eqn:Hn; [|done].
  apply nextFromDeck_some in Hn as (_ & Hc & Hfree & Hleast & ->).
  unfold store_slot. simpl.
  destruct (nextOnBoard s <? CARDS_IN_DECK); simpl; [|done].
  intros H. injection H as <-. simpl. split; [done|].
  intros j Hj. destruct (Hleast j) as (pc & Hpc); [simpl; lia|done|].
  by exists pc.
Qed.

Lemma first_exact s placed :
  Inv s placed →
  (first s = Ret None ∧ free_from placed 0 = [])
  ∨ ∃ c,
      let pc := mkPlayedCard 0 (N.of_nat (length placed)) (Some c) in
      first s = Ret (Some (child placed pc))
      ∧ Inv (child placed pc) (placed ++ [pc])
      ∧ free_from placed 0 = c :: free_from placed (c + 1).
Proof.
  intros HI.
  destruct (first_Inv _ _ HI) as [[Hf Hall]|(s' & c & Hf & Hlt & HI' & Hc)].
  - left. split; [done|]. apply free_from_none. intros k _ Hk.
    by apply (on_board_board_of s placed k (inv_board _ _ HI)), Hall.
  - right. exists c. rewrite (inv_next _ _ HI) in HI'.
    pose proof (Inv_child _ _ _ HI') as ->. simpl.
    split; [done|]. split; [done|].
    destruct (first_least _ _ _ HI Hf) as [Hfree Hleast]. simpl in *.
    rewrite (on_board_board_of s placed c (inv_board _ _ HI)) in Hfree.
    apply free_from_scan; [lia|done| |done].
    intros k _ Hk.
    by apply (on_board_board_of s placed k (inv_board _ _ HI)), Hleast.
Qed.

Lemma next_exact s placed pc c :
  Inv s (placed ++ [pc]) → card pc = Some c →
  (rotation pc < 2
   ∧ let pc' := mkPlayedCard (rotation pc + 1) (position pc) (card pc) in
     next s = Ret (Some (child placed pc'))
     ∧ Inv (child placed pc') (placed ++ [pc']))
  ∨ (rotation pc = 2 ∧ next s = Ret None ∧ free_from placed (c + 1) = [])
  ∨ (rotation pc = 2
     ∧ ∃ j, let pc' := mkPlayedCard 0 (position pc) (Some j) in
         next s = Ret (Some (child placed pc'))
         ∧ Inv (child placed pc') (placed ++ [pc'])
         ∧ free_from placed (c + 1) = j :: free_from placed (j + 1)).
Proof.
  intros HI Hc.
  pose proof (inv_len _ _ HI) as Hlen. rewrite length_app in Hlen. simpl in Hlen.
  assert (pc ∈ placed ++ [pc]) as Hpc by (apply elem_of_app; right; by left).
  pose proof (inv_rot _ _ HI pc Hpc) as Hrot.
  destruct (inv_card _ _ HI pc Hpc) as (c0 & Hc0 & Hc9).
  assert (c0 = c) as -> by congruence. clear Hc0.
  assert (card pc = Some (topOfTheDeck s)) as Htop
    by (apply (inv_top _ _ HI); apply last_snoc).
  assert (c = topOfTheDeck s) as -> by congruence.
  pose proof (inv_nodup _ _ HI) as Hnd. rewrite fmap_app in Hnd.
  apply NoDup_app in Hnd as (_ & Hdisj & _).
  assert (last_index s < CARDS_IN_DECK) as Hli.
  { rewrite (Inv_last_index _ _ _ HI). unfold CARDS_IN_DECK. lia. }
  assert (∀ k, on_board s k → k ≠ topOfTheDeck s → Some k ∈ card <$> placed)
    as Hon.
  { intros k Hk Hne.
    apply (on_board_board_of s _ k (inv_board _ _ HI)) in Hk.
    rewrite fmap_app in Hk. apply elem_of_app in Hk as [Hk|Hk]; [done|].
    apply list_elem_of_singleton in Hk. congruence. }
  unfold next. rewrite (Inv_replicate _ _ HI), (Inv_getLastAdded _ _ _ HI).
  simpl. unfold rotate, store_slot.
  destruct (N.ltb_spec (last_index s) CARDS_IN_DECK) as [_|]; [|lia].
  destruct (N.leb_spec 2 (rotation pc)) as [Hr|Hr]; simpl.
  - right. unfold replaceCard.
    destruct (nextFromDeck s) as [g' [j|]] eqn:Hn.
    + right. split; [lia|].
      apply nextFromDeck_some in Hn as (Hj1 & Hj2 & Hfree & Hleast & ->).
      unfold store_slot. simpl.
      destruct (N.ltb_spec (last_index s) CARDS_IN_DECK) as [_|]; [|lia].
      simpl. exists j.
      rewrite (on_board_board_of _ _ _ (inv_board _ _ HI)) in Hfree.
      assert (j ≠ topOfTheDeck s) as Hne.
      { intros ->. apply Hfree. rewrite <- Hc. by apply list_elem_of_fmap_2. }
      assert (Some j ∉ card <$> placed) as Hfree'.
      { intros Hin. apply Hfree. rewrite fmap_app. apply elem_of_app. by left. }
      assert (Inv (mkGameState (nextOnBoard s) j
                     (<[N.to_nat (last_index s)
                        := Some (mkPlayedCard 0 (position pc) (Some j))]>
                        (cardsOnBoard s)))
                  (placed ++ [mkPlayedCard 0 (position pc) (Some j)])) as HI'.
      { apply (Inv_set_last s placed pc); simpl;
          [done|done|by exists j|lia|done|done]. }
      rewrite <- (Inv_child _ _ _ HI'). split; [done|]. split; [done|].
      apply free_from_scan; [lia|done| |done].
      intros k Hk1 Hk2. apply Hon; [|lia]. apply Hleast; lia.
    + left. apply nextFromDeck_none in Hn as [-> Hall]. simpl.
      split; [lia|]. split; [done|]. apply free_from_none.
      intros k Hk1 Hk2. apply Hon; [|lia]. apply Hall; [lia|done].
  - left. split; [done|]. rewrite to_sint_succ by lia.
    assert (Inv (mkGameState (nextOnBoard s) (topOfTheDeck s)
                   (<[N.to_nat (last_index s)
                      := Some (mkPlayedCard (rotation pc + 1) (position pc)
                                 (card pc))]> (cardsOnBoard s)))
                (placed ++ [mkPlayedCard (rotation pc + 1) (position pc)
                              (card pc)])) as HI'.
    { apply (Inv_set_last s placed pc); simpl;
        [done|done|by exists (topOfTheDeck s)|lia| |done].
      intros Hin. by apply (Hdisj (card pc)); [|left]. }
    rewrite <- (Inv_child _ _ _ HI'). by destruct s.
Qed.

Lemma next_chain_exact n s placed pc c :
  Inv s (placed ++ [pc]) → card pc = Some c →
  27 ≤ N.of_nat n + chain_rank pc →
  next_chain n s
  = Ret (child placed
           <$> placements (position pc)
                 (filter (λ r, rotation pc < r) [0; 1; 2]) c
               ++ (free_from placed (c + 1)
                     ≫= placements (position pc) [0; 1; 2])).
Proof.
  revert s pc c. induction n as [|n IH]; intros s pc c HI Hc Hn.
  - pose proof (chain_rank_bound _ _ _ HI). lia.
  - assert (pc ∈ placed ++ [pc]) as Hpc by (apply elem_of_app; right; by left).
    pose proof (inv_rot _ _ HI pc Hpc) as Hrot.
    assert (chain_rank pc = 3 * c + rotation pc) as Hrank
      by (unfold chain_rank; by rewrite Hc).
    simpl.
    destruct (next_exact _ _ _ _ HI Hc)
      as [(Hr & Hnx & HI')|[(Hr & Hnx & Hfree)|(Hr & j & Hnx & HI' & Hfree)]];
      rewrite Hnx; simpl.
    + rewrite (IH _ _ c HI' Hc)
        by (unfold chain_rank in *; cbn [card rotation]; rewrite Hc in *; lia).
      simpl. f_equal.
      assert (rotation pc = 0 ∨ rotation pc = 1) as [->| ->] by lia;
        by rewrite Hc.
    + rewrite Hfree, Hr. done.
    + assert (c + 1 ≤ j) as Hj.
      { apply (elem_of_free_from placed (c + 1) j). rewrite Hfree. by left. }
      rewrite (IH _ _ j HI' eq_refl)
        by (unfold chain_rank in *; cbn [card rotation]; rewrite Hc in *; lia).
      simpl. rewrite Hfree, Hr. done.
Qed.

Lemma tried_exact n g placed :
  Inv g placed → (27 ≤ n)%nat →
  tried n g = Ret (child placed <$> candidates placed).
Proof.
  intros HI Hn. unfold tried, candidates.
  destruct (first_exact _ _ HI) as [[Hf Hfree]|(c & Hf & HI' & Hfree)];
    simpl in *; rewrite Hf, Hfree; simpl; [done|].
  rewrite (next_chain_exact n _ _ _ c HI' eq_refl)
    by (unfold chain_rank; cbn [card rotation]; lia).
  done.
Qed.

Lemma free_from_length placed :
  NoDup (card <$> placed) →
  (∀ pc, pc ∈ placed → ∃ c, card pc = Some c ∧ c < CARDS_IN_DECK) →
  (length (free_from placed 0) + length placed = 9)%nat.
Proof.
  intros Hnd Hcard. unfold free_from.
  set (deck := N.of_nat <$> seq (N.to_nat 0) (N.to_nat CARDS_IN_DECK - N.to_nat 0)).
  pose proof (filter_app_complement (λ c, Some c ∉ card <$> placed) deck) as Hp.
  apply Permutation_length in Hp. rewrite length_app in Hp.
  assert (Some <$> filter (λ c, ¬ (Some c ∉ card <$> placed)) deck
          ≡ₚ card <$> placed) as Hq.
  { apply NoDup_Permutation; [|done|].
    - apply (NoDup_fmap_2 _), NoDup_filter, (NoDup_fmap_2 _), NoDup_seq.
    - intros x. rewrite list_elem_of_fmap. split.
      + intros (c & -> & Hc). apply list_elem_of_filter in Hc as [Hc _].
        by apply dec_stable in Hc.
      + intros Hx. pose proof Hx as Hx'.
        apply list_elem_of_fmap in Hx' as (pc & -> & Hpc).
        destruct (Hcard pc Hpc) as (c & Hc & Hc9). rewrite Hc in *.
        exists c. split; [done|]. apply list_elem_of_filter. split; [tauto|].
        apply list_elem_of_fmap. exists (N.to_nat c).
        split; [by rewrite N2Nat.id|]. apply elem_of_seq.
        unfold CARDS_IN_DECK in *. lia. }
  apply Permutation_length in Hq. rewrite !length_fmap in Hq.
  rewrite Hq in Hp. rewrite Hp. unfold deck. by rewrite length_fmap, length_seq.
Qed.

Lemma candidates_length placed :
  NoDup (card <$> placed) →
  (∀ pc, pc ∈ placed → ∃ c, card pc = Some c ∧ c < CARDS_IN_DECK) →
  (length (candidates placed) + 3 * length placed = 27)%nat.
Proof.
  intros Hnd Hcard. pose proof (free_from_length placed Hnd Hcard) as H.
  unfold candidates.
  assert (∀ l : list N,
            length (l ≫= placements (N.of_nat (length placed)) [0; 1; 2])
            = (3 * length l)%nat) as Hl.
  { induction l as [|c l IH]; [done|].
    rewrite bind_cons, length_app, IH. simpl. lia. }
  rewrite Hl. lia.
Qed.

(** ** [solve] as a traversal of the candidates *)

Lemma solve_loop_run_all (rec : GameState → io unit) n st l (n' : nat) w :
  next_chain n st = Ret l → (length l < n')%nat →
  solve_loop rec n' (Some st) w = run_all rec (st :: l) w.
Proof.
  revert st l n' w. induction n as [|n IH]; intros st l n' w Hl Hn; [done|].
  simpl in Hl. destruct n' as [|n']; [lia|]. simpl.
  unfold io_bind at 1 3. destruct (rec st w) as [w1 [[]| | |]]; try done.
  unfold io_bind at 1. unfold lift at 1.
  destruct (next st) as [[s'|]| | |]; simpl in Hl; try done.
  - destruct (next_chain n s') as [l'| | |] eqn:Hl'; simpl in Hl; try done.
    injection Hl as <-. simpl in Hn. apply (IH s' l'); [done|lia].
  - injection Hl as <-. by rewrite solve_loop_None.
Qed.

Lemma solve_traversal (depth width : nat) g placed w :
  Inv g placed → (27 ≤ width)%nat →
  solve (S depth) width g w
  = if forallb (row_ok placed true) NEIGHBORMAP
    then ((if forallb (row_ok placed false) NEIGHBORMAP
           then output g else io_ret tt) >>
          run_all (solve depth width) (child placed <$> candidates placed)) w
    else (w, Ret tt).
Proof.
  intros HI Hw. cbn [solve].
  rewrite (io_bind_ret _ _ _ _ _ (isSolved_value g placed true w HI)).
  destruct (forallb (row_ok placed true) NEIGHBORMAP); cbn [negb]; [|done].
  rewrite (io_bind_ret _ _ _ _ _ (isSolved_value g placed false w HI)).
  generalize (forallb (row_ok placed false) NEIGHBORMAP). intros full.
  unfold io_bind at 1 3.
  destruct ((if full then output g else io_ret tt) w) as [w1 [[]| | |]];
    try done.
  unfold io_bind at 1. unfold lift at 1. unfold candidates.
  destruct (first_exact _ _ HI) as [[Hf Hfree]|(c & Hf & HI' & Hfree)];
    cbn zeta in *; rewrite Hf, Hfree.
  - by rewrite solve_loop_None.
  - destruct (next_chain_Inv width _ _ _ HI') as (l & Hl & Hlen);
      [unfold chain_rank; cbn [card rotation]; lia|].
    rewrite (solve_loop_run_all _ width _ l width w1 Hl) by lia.
    rewrite (next_chain_exact width _ _ _ c HI' eq_refl) in Hl
      by (unfold chain_rank; cbn [card rotation]; lia).
    injection Hl as <-. done.
Qed.

(** ** The log of reports only grows *)

Lemma grows_ret {A} (a : A) : grows (io_ret a).
Proof. intros w w' r H. by injection H as <- _. Qed.

Lemma grows_lift {A} (m : outcome A) : grows (lift m).
Proof. intros w w' r H. by injection H as <- _. Qed.

Lemma grows_printf s : grows (printf s).
Proof. intros w w' r H. by injection H as <- _. Qed.

Lemma grows_exit {A} : grows (@exit A).
Proof. intros w w' r H. by injection H as <- _. Qed.

Lemma grows_log g : grows (log_report g).
Proof. intros w w' r H. injection H as <- _. simpl. by apply prefix_app_r. Qed.

Lemma grows_bind {A B} (m : io A) (k : A → io B) :
  grows m → (∀ a, grows (k a)) → grows (io_bind m k).
Proof.
  intros Hm Hk w w' r H. unfold io_bind in H.
  destruct (m w) as [w1 [a| | |]] eqn:H1; specialize (Hm _ _ _ H1);
    try (by injection H as <- _).
  etrans; [exact Hm|]. by eapply Hk.
Qed.

Lemma grows_getCommonEdge_loop rows this other :
  grows (getCommonEdge_loop rows this other).
Proof.
  induction rows as [|r rows IH]; simpl.
  - apply grows_bind; [apply grows_printf|intros _; apply grows_exit].
  - destruct (_ && _); [apply grows_ret|done].
Qed.

Lemma grows_matchesNeighbor this other : grows (matchesNeighbor this other).
Proof.
  unfold matchesNeighbor. destruct (card this); [|apply grows_ret].
  apply grows_bind; [apply grows_getCommonEdge_loop|intros c].
  apply grows_bind; [apply grows_lift|intros e1].
  apply grows_bind; [apply grows_lift|intros e2].
  destruct (edges_interlock e1 e2); apply grows_ret.
Qed.

Lemma grows_isSolved_loop rows this partial :
  grows (isSolved_loop rows this partial).
Proof.
  induction rows as [|r rows IH]; simpl; [apply grows_ret|].
  apply grows_bind; [apply grows_lift|intros c1].
  apply grows_bind; [apply grows_lift|intros c2].
  destruct c1 as [p1|], c2 as [p2|];
    try (destruct partial; [exact IH|apply grows_ret]).
  apply grows_bind; [apply grows_matchesNeighbor|intros ok].
  destruct ok; [exact IH|apply grows_ret].
Qed.

Lemma grows_output_loop i order this : grows (output_loop i order this).
Proof.
  revert i. induction order as [|p order IH]; intros i; simpl;
    [apply grows_ret|].
  repeat (apply grows_bind; [apply grows_lift|intros ?]).
  apply grows_bind; [apply grows_printf|intros _].
  apply grows_bind; [|intros _; apply IH].
  destruct (i <? _); [apply grows_printf|apply grows_ret].
Qed.

Lemma grows_output this : grows (output this).
Proof.
  unfold output.
  apply grows_bind; [apply grows_log|intros _].
  apply grows_bind; [apply grows_printf|intros _].
  apply grows_bind; [apply grows_output_loop|intros _]. apply grows_printf.
Qed.

Lemma output_reports this w w' r :
  output this w = (w', r) → this ∈ reported w'.
Proof.
  unfold output. unfold io_bind at 1. simpl. intros H.
  assert (grows (printf "[" >> output_loop 0 PRINTORDER this >>
                 printf ("]" +:+ newline))) as Hg.
  { apply grows_bind; [apply grows_printf|intros _].
    apply grows_bind; [apply grows_output_loop|intros _]. apply grows_printf. }
  apply Hg in H. simpl in H. destruct H as [k ->].
  rewrite <- app_assoc. apply elem_of_app. right. by left.
Qed.

Lemma grows_solve_loop (rec : GameState → io unit) n st :
  (∀ s, grows (rec s)) → grows (solve_loop rec n st).
Proof.
  intros Hrec. revert st. induction n as [|n IH]; intros [s|]; simpl;
    try apply grows_ret; [apply grows_lift|].
  apply grows_bind; [apply Hrec|intros _].
  apply grows_bind; [apply grows_lift|intros nx]. apply IH.
Qed.

Lemma grows_solve depth width g : grows (solve depth width g).
Proof.
  revert g. induction depth as [|depth IH]; intros g; simpl;
    [apply grows_lift|].
  apply grows_bind; [apply grows_isSolved_loop|intros ok].
  destruct ok; simpl; [|apply grows_ret].
  apply grows_bind; [apply grows_isSolved_loop|intros full].
  apply grows_bind; [destruct full; [apply grows_output|apply grows_ret]|].
  intros _. apply grows_bind; [apply grows_lift|intros nx].
  by apply grows_solve_loop.
Qed.

Lemma grows_run_all (rec : GameState → io unit) l :
  (∀ s, grows (rec s)) → grows (run_all rec l).
Proof.
  intros Hrec. induction l as [|s l IH]; simpl; [apply grows_ret|].
  apply grows_bind; [apply Hrec|by intros _].
Qed.

Lemma run_all_reports (rec : GameState → io unit) l s w w' :
  (∀ s, grows (rec s)) → s ∈ l → run_all rec l w = (w', Ret tt) →
  ∃ w1 w2, rec s w1 = (w2, Ret tt) ∧ reported w2 `prefix_of` reported w'.
Proof.
  intros Hrec. revert w. induction l as [|x l IH]; intros w Hin H.
  - by apply elem_of_nil in Hin.
  - simpl in H. apply io_bind_inv in H as (w1 & [] & Hx & H).
    apply elem_of_cons in Hin as [->|Hin].
    + exists w, w1. split; [done|]. by apply (grows_run_all rec l Hrec) in H.
    + by apply (IH w1).
Qed.

(** ** Pruning is sound, and the search is complete *)

Lemma row_ok_prefix pre ext partial r :
  row_ok (pre ++ ext) partial r = true → row_ok pre true r = true.
Proof.
  unfold row_ok.
  destruct (pre !! N.to_nat (NMAP_FIRST r)) as [p1|] eqn:H1; [|done].
  destruct (pre !! N.to_nat (NMAP_SECOND r)) as [p2|] eqn:H2; [|done].
  by rewrite (lookup_app_l_Some _ _ _ _ H1), (lookup_app_l_Some _ _ _ _ H2).
Qed.

Lemma rows_ok_prefix pre ext partial rows :
  forallb (row_ok (pre ++ ext) partial) rows = true →
  forallb (row_ok pre true) rows = true.
Proof.
  rewrite !forallb_forall. intros H r Hr. eapply row_ok_prefix. by apply H.
Qed.

Lemma Inv_prefix g pre pc ext :
  Inv g (pre ++ pc :: ext) →
  Inv (child pre pc) (pre ++ [pc]) ∧ pc ∈ candidates pre.
Proof.
  intros HI.
  assert (pre ++ pc :: ext = (pre ++ [pc]) ++ ext) as E
    by (by rewrite <- app_assoc).
  pose proof (inv_len _ _ HI) as Hlen. rewrite length_app in Hlen. simpl in Hlen.
  assert (pc ∈ pre ++ pc :: ext) as Hpc by (apply elem_of_app; right; by left).
  destruct (inv_card _ _ HI pc Hpc) as (c & Hc & Hc9).
  pose proof (inv_rot _ _ HI pc Hpc) as Hrot.
  pose proof (inv_nodup _ _ HI) as Hnd.
  rewrite E, fmap_app in Hnd. apply NoDup_app in Hnd as (Hnd & _ & _).
  assert (position pc = N.of_nat (length pre)) as Hpos.
  { apply (inv_pos _ _ HI). by apply list_lookup_middle. }
  split.
  - split; simpl.
    + done.
    + rewrite length_app. simpl. lia.
    + rewrite length_app. simpl. lia.
    + intros i x Hl. apply (inv_pos _ _ HI). rewrite E.
      by apply lookup_app_l_Some.
    + intros x Hx. apply (inv_card _ _ HI). rewrite E. apply elem_of_app.
      by left.
    + intros x Hx. apply (inv_rot _ _ HI). rewrite E. apply elem_of_app.
      by left.
    + done.
    + intros x Hl. rewrite last_snoc in Hl. injection Hl as <-.
      by rewrite Hc.
  - unfold candidates. apply list_elem_of_bind. exists c. split.
    + unfold placements. destruct pc as [r p cd]. simpl in *. subst p cd.
      assert (r = 0 ∨ r = 1 ∨ r = 2) as [->|[->| ->]] by lia;
        [by left|right; by left|right; right; by left].
    + apply elem_of_free_from. split; [lia|]. split; [done|].
      rewrite fmap_app in Hnd. apply NoDup_app in Hnd as (_ & Hdisj & _).
      intros Hin. apply (Hdisj _ Hin). rewrite <- Hc. by left.
Qed.

Lemma solve_complete (depth width : nat) s pre ext g w w' :
  (27 ≤ width)%nat →
  Inv g (pre ++ ext) →
  forallb (row_ok (pre ++ ext) false) NEIGHBORMAP = true →
  Inv s pre →
  solve depth width s w = (w', Ret tt) →
  g ∈ reported w'.
Proof.
  intros Hw HIg Hsol. revert s pre ext w w' HIg Hsol.
  induction depth as [|depth IH]; intros s pre ext w w' HIg Hsol HIs H;
    [done|].
  rewrite (solve_traversal _ _ _ _ _ HIs Hw) in H.
  rewrite (rows_ok_prefix _ _ _ _ Hsol) in H.
  apply io_bind_inv in H as (w1 & [] & Hout & Hrun).
  destruct ext as [|pc ext].
  - rewrite app_nil_r in *. rewrite Hsol in Hout.
    assert (s = g) as ->.
    { destruct pre as [|pc pre _] using rev_ind.
      - exfalso. apply (isSolved_complete_full g [] w w) in HIg; [done|].
        by rewrite (isSolved_value _ _ _ _ HIg), Hsol.
      - by rewrite (Inv_child _ _ _ HIs), (Inv_child _ _ _ HIg). }
    apply output_reports in Hout.
    apply (grows_run_all _ _ (grows_solve depth width)) in Hrun as [k ->].
    apply elem_of_app. by left.
  - destruct (Inv_prefix _ _ _ _ HIg) as [HIc Hcand].
    destruct (run_all_reports _ _ (child pre pc) _ _
                (grows_solve depth width)
                (list_elem_of_fmap_2 _ _ _ Hcand) Hrun)
      as (w2 & w3 & Hrec & [k ->]).
    apply elem_of_app. left.
    apply (IH (child pre pc) (pre ++ [pc]) ext w2 w3);
      [by rewrite <- app_assoc|by rewrite <- app_assoc|done|done].
Qed.

Lemma Inv_check_sound g placed : Inv_check g placed = true → Inv g placed.
Proof.
  intros H. apply bool_decide_eq_true in H
    as (Hb & Hn & Hlen & Hpos & Hcard & Hrot & Hnd & Htop).
  split; try done.
  - intros i pc Hl.
    assert ((position <$> placed) !! i = Some (position pc)) as Hp
      by (by rewrite list_lookup_fmap, Hl).
    rewrite Hpos, list_lookup_fmap in Hp.
    destruct (seq 0 (length placed) !! i) as [k|] eqn:Hk; [|done].
    apply lookup_seq in Hk as [-> _]. simpl in Hp. congruence.
  - intros pc Hpc. rewrite Forall_forall in Hcard.
    destruct (Hcard pc Hpc) as [[c Hc] Hc9]. rewrite Hc in Hc9. by exists c.
  - intros pc Hpc. rewrite Forall_forall in Hrot. by apply Hrot.
  - intros pc Hl. destruct Htop as [Htop|Htop]; [congruence|].
    rewrite Hl in Htop. simpl in Htop. congruence.
Qed.

Lemma main_complete (depth width : nat) g placed w :
  (27 ≤ width)%nat → Inv g placed →
  isSolved g false w = (w, Ret true) →
  ∀ wm, main depth width = (wm, Ret tt) → g ∈ reported wm.
Proof.
  intros Hw HI Hsol wm Hm. unfold main in Hm.
  rewrite (isSolved_value _ _ _ _ HI) in Hsol.
  assert (forallb (row_ok placed false) NEIGHBORMAP = true) as Hrows
    by (by injection Hsol).
  by apply (solve_complete depth width empty_game [] placed g empty_world wm);
    [| | |apply Inv_empty|].
Qed.


Lemma row_ok_full placed partial r :
  length placed = 9%nat → r ∈ NEIGHBORMAP →
  row_ok placed partial r = row_ok placed true r.
Proof.
  intros Hfull Hr. destruct (NEIGHBORMAP_ordered r Hr) as (Hlt & Hlt9 & _).
  unfold row_ok, CARDS_IN_DECK in *.
  destruct (lookup_lt_is_Some_2 placed (N.to_nat (NMAP_FIRST r))) as [p1 ->];
    [lia|].
  by destruct (lookup_lt_is_Some_2 placed (N.to_nat (NMAP_SECOND r)))
    as [p2 ->]; [lia|].
Qed.

Lemma rows_ok_full placed partial rows :
  length placed = 9%nat → (∀ r, r ∈ rows → r ∈ NEIGHBORMAP) →
  forallb (row_ok placed partial) rows = forallb (row_ok placed true) rows.
Proof.
  intros Hfull. induction rows as [|r rows IH]; intros Hrows; [done|].
  simpl. rewrite (row_ok_full placed partial r Hfull) by (apply Hrows; by left).
  rewrite IH; [done|]. intros r' Hr'. apply Hrows. by right.
Qed.

Lemma rows_ok_not_full placed :
  (length placed < 9)%nat → forallb (row_ok placed false) NEIGHBORMAP = false.
Proof.
  intros Hlt. apply not_true_is_false. intros Hall.
  rewrite forallb_forall in Hall. specialize (Hall (5, 8, 0)).
  unfold row_ok in Hall.
  change (N.to_nat (NMAP_SECOND (5, 8, 0))) with 8%nat in Hall.
  rewrite (lookup_ge_None_2 placed 8) in Hall by lia.
  assert (In (5, 8, 0) NEIGHBORMAP) as Hin by (do 8 right; by left).
  destruct (placed !! N.to_nat (NMAP_FIRST (5, 8, 0)));
    by specialize (Hall Hin).
Qed.


Lemma candidates_NoDup placed : NoDup (candidates placed).
Proof.
  unfold candidates, free_from.
  apply NoDup_bind.
  - intros c1 c2 pc _ _ H1 H2. unfold placements in *.
    apply list_elem_of_fmap in H1 as (r1 & -> & _).
    apply list_elem_of_fmap in H2 as (r2 & E & _). by injection E.
  - intros c _. unfold placements. apply NoDup_fmap_2.
    + intros r1 r2 E. by injection E.
    + apply (bool_decide_unpack _). vm_compute. exact I.
  - apply NoDup_filter, (NoDup_fmap_2 _), NoDup_seq.
Qed.

(** ** More about the search *)

(** X4.  Pruning loses nothing.  On boards that satisfy the invariant, if
    a check (partial or complete) succeeds on a board, the partial check
    succeeds on every board that holds a prefix of its placements; neither
    call writes, exits or faults.  So a board on which [isSolved(true)]
    fails has no extension on which any check succeeds, and [solve] may
    return at once. *)
Theorem isSolved_prefix_closed (s s' : GameState) (pre ext : list PlayedCard)
  (partial : bool) (w w' : World) :
  Inv s pre → Inv s' (pre ++ ext) →
  isSolved s' partial w' = (w', Ret true) →
  isSolved s true w = (w, Ret true).
Proof.
  intros HI HI' H.
  rewrite (isSolved_value _ _ _ _ HI') in H.
  rewrite (isSolved_value _ _ _ _ HI). do 2 f_equal.
  apply (rows_ok_prefix pre ext partial). by injection H.
Qed.

Lemma isSolved_prefix_closed_witness :
  isSolved (child [] (mkPlayedCard 1 0 (Some 1))) true empty_world
  = (empty_world, Ret true).
Proof.
  apply (isSolved_prefix_closed _
           (child [mkPlayedCard 1 0 (Some 1)] (mkPlayedCard 0 1 (Some 0)))
           [mkPlayedCard 1 0 (Some 1)] [mkPlayedCard 0 1 (Some 0)]
           true empty_world empty_world).
  - apply Inv_check_sound. vm_compute. reflexivity.
  - apply Inv_check_sound. vm_compute. reflexivity.
  - vm_compute. reflexivity.
Defined.

(** X5.  The complete check needs a full board.  On a board that
    satisfies the invariant and has a free position, [isSolved(false)]
    returns false; on a full one it returns what [isSolved(true)]
    returns. *)
Theorem isSolved_complete_needs_full (s : GameState) (placed : list PlayedCard)
  (w : World) :
  Inv s placed →
  ((length placed < 9)%nat → isSolved s false w = (w, Ret false))
  ∧ (length placed = 9%nat → isSolved s false w = isSolved s true w).
Proof.
  intros HI. rewrite !(isSolved_value _ _ _ _ HI). split.
  - intros Hlt. by rewrite rows_ok_not_full.
  - intros Hfull. by rewrite (rows_ok_full placed false).
Qed.

Lemma isSolved_complete_needs_full_witness :
  isSolved (child [] (mkPlayedCard 1 0 (Some 1))) false empty_world
  = (empty_world, Ret false).
Proof.
  apply (isSolved_complete_needs_full _ [mkPlayedCard 1 0 (Some 1)]).
  - apply Inv_check_sound. vm_compute. reflexivity.
  - simpl. lia.
Defined.

(** X6.  What the loop of [solve] goes through.  Below a board that
    satisfies the invariant, [first] and then [next], called until it
    returns NULL, yield one board for every card that is not yet on the
    board, in the order of the deck, in rotation 0, then 1, then 2, at the
    next free position: three boards per free card, none twice, none left
    out.  27 rounds are enough. *)
Theorem tried_candidates (n : nat) (g : GameState) (placed : list PlayedCard) :
  Inv g placed → (27 ≤ n)%nat →
  tried n g = Ret (child placed <$> candidates placed)
  ∧ length (candidates placed) = (3 * (9 - length placed))%nat
  ∧ NoDup (candidates placed).
Proof.
  intros HI Hn. split; [by apply tried_exact|]. split.
  - pose proof (candidates_length placed (inv_nodup _ _ HI) (inv_card _ _ HI)).
    pose proof (inv_len _ _ HI). lia.
  - apply candidates_NoDup.
Qed.

Lemma tried_candidates_witness :
  tried 27 empty_game = Ret (child [] <$> candidates [])
  ∧ length (candidates []) = 27%nat
  ∧ NoDup (candidates []).
Proof. apply (tried_candidates 27 empty_game []); [apply Inv_empty|lia]. Defined.

(** X7.  [solve] is a depth-first traversal.  On a board that satisfies
    the invariant, one level of [solve] is: the partial check; if it
    succeeds, the complete check and the report; then [solve] on each
    candidate board for the next position, in order. *)
Theorem solve_visits_candidates (depth width : nat) (g : GameState)
  (placed : list PlayedCard) (w : World) :
  Inv g placed → (27 ≤ width)%nat →
  solve (S depth) width g w
  = (let* ok := isSolved g true in
     if negb ok then io_ret tt
     else
       let* full := isSolved g false in
       (if full then output g else io_ret tt) >>
       run_all (solve depth width) (child placed <$> candidates placed)) w.
Proof.
  intros HI Hw. rewrite (solve_traversal _ _ _ _ _ HI Hw).
  rewrite (io_bind_ret _ _ _ _ _ (isSolved_value g placed true w HI)).
  destruct (forallb (row_ok placed true) NEIGHBORMAP); cbn [negb]; [|done].
  by rewrite (io_bind_ret _ _ _ _ _ (isSolved_value g placed false w HI)).
Qed.

Lemma solve_visits_candidates_witness :
  solve 1 27 empty_game empty_world
  = (let* ok := isSolved empty_game true in
     if negb ok then io_ret tt
     else
       let* full := isSolved empty_game false in
       (if full then output empty_game else io_ret tt) >>
       run_all (solve 0 27) (child [] <$> candidates [])) empty_world.
Proof.
  apply (solve_visits_candidates 0 27 empty_game []); [apply Inv_empty|lia].
Defined.

(** X8.  The search is complete and exact.  The run of [main] reports a
    board if and only if the board satisfies the invariant (nine
    different cards of the deck, each at its position, turned at most
    twice) and passes the complete check; no board is reported twice. *)
Theorem main_reports_exactly_the_solutions :
  ∃ w,
    main 10 27 = (w, Ret tt)
    ∧ NoDup (reported w)
    ∧ ∀ g, g ∈ reported w
           ↔ ∃ placed, Inv g placed
                       ∧ ∀ w0, isSolved g false w0 = (w0, Ret true).
Proof.
  exists main_world. split; [exact main_run|]. split.
  { apply (bool_decide_unpack _). vm_compute. exact I. }
  intros g. split.
  - unfold main_world. cbn [reported]. intros Hin.
    repeat (apply elem_of_cons in Hin as [->|Hin];
            [match goal with
             | |- ∃ placed, Inv ?b placed ∧ _ => exists (placed_on b)
             end; split;
             [apply Inv_check_sound; vm_compute; reflexivity
             |intros w0; reflexivity]|]).
    by apply elem_of_nil in Hin.
  - intros (placed & HI & Hsol).
    apply (main_complete 10 27 g placed empty_world);
      [lia|done|apply Hsol|exact main_run].
Qed.

(** * The C++ file *)

(** ** The checks *)

Lemma Cpp_NEIGHBORMAP_entries : map_to_list Cpp.NEIGHBORMAP ≡ₚ Cpp_entries.
Proof.
  apply map_to_list_to_map. apply (bool_decide_unpack _). vm_compute. exact I.
Qed.

Lemma Cpp_entries_rows : row_of <$> Cpp_entries = NEIGHBORMAP.
Proof. reflexivity. Qed.

Lemma Cpp_entries_keys e :
  e ∈ Cpp_entries →
  Cpp.str_at e.1 0 = Ret (char_at e.1 0)
  ∧ Cpp.str_at e.1 1 = Ret (char_at e.1 1)
  ∧ row_of e ∈ NEIGHBORMAP
  ∧ e.1 = Cpp.to_string (row_of e).1.1 +:+ Cpp.to_string (row_of e).1.2.
Proof.
  revert e. apply Forall_forall. unfold Cpp_entries.
  repeat (apply Forall_cons; split;
          [split; [vm_compute; reflexivity|];
           split; [vm_compute; reflexivity|];
           split; [apply (bool_decide_unpack _); vm_compute; exact I
                  |reflexivity]|]).
  by apply Forall_nil.
Qed.

Lemma forallb_Permutation {A} (f : A → bool) l1 l2 :
  l1 ≡ₚ l2 → forallb f l1 = forallb f l2.
Proof.
  induction 1 as [|x l1 l2 _ IH|x y l|l1 l2 l3 _ IH1 _ IH2]; simpl.
  - done.
  - by rewrite IH.
  - by rewrite !andb_assoc, (andb_comm (f y)).
  - by rewrite IH1.
Qed.

Lemma Cpp_matchesNeighbor_Inv s placed r p1 p2 :
  Inv s placed → r ∈ NEIGHBORMAP →
  placed !! N.to_nat (NMAP_FIRST r) = Some p1 →
  placed !! N.to_nat (NMAP_SECOND r) = Some p2 →
  Cpp.matchesNeighbor p1 p2 Cpp.NEIGHBORMAP
  = (Cpp.NEIGHBORMAP, Ret (pair_matches (NMAP_COMMON_EDGE r) p1 p2)).
Proof.
  intros HI Hr H1 H2.
  destruct (inv_card _ _ HI p1) as (c1 & Hc1 & Hc19);
    [by eapply list_elem_of_lookup_2|].
  destruct (inv_card _ _ HI p2) as (c2 & Hc2 & Hc29);
    [by eapply list_elem_of_lookup_2|].
  apply deck_at_lt in Hc19 as [cd1 Hcd1], Hc29 as [cd2 Hcd2].
  destruct r as [[a b] c]. unfold NMAP_FIRST, NMAP_SECOND, NMAP_COMMON_EDGE in *.
  simpl in *.
  destruct (edge_of_valid c1 cd1 (rotated c (rotation p1)) Hcd1 (rotated_lt _ _))
    as (e1 & _ & He1).
  destruct (edge_of_valid c2 cd2 (rotated c (rotation p2)) Hcd2 (rotated_lt _ _))
    as (e2 & _ & He2).
  unfold Cpp.matchesNeighbor, pair_matches. rewrite Hc1.
  rewrite (inv_pos _ _ HI _ _ H1), (inv_pos _ _ HI _ _ H2), !N2Nat.id.
  rewrite (Cpp_index_table a b c Hr).
  rewrite <- Hc1, Hc2. rewrite Hc1, He1, He2. simpl.
  by destruct (edges_interlock e1 e2).
Qed.

Lemma Cpp_isSolved_loop_value entries s placed partial :
  Inv s placed → (∀ e, e ∈ entries → e ∈ Cpp_entries) →
  Cpp.isSolved_loop entries s partial Cpp.NEIGHBORMAP
  = (Cpp.NEIGHBORMAP,
     Ret (forallb (row_ok placed partial) (row_of <$> entries))).
Proof.
  intros HI. induction entries as [|[key c] entries IH]; intros Hin; [done|].
  destruct (Cpp_entries_keys (key, c)) as (Hk0 & Hk1 & Hr & Hkey);
    [apply Hin; by left|].
  specialize (IH (λ e He, Hin e (list_elem_of_further _ _ _ He))).
  destruct (NEIGHBORMAP_ordered _ Hr) as (Hlt & Hlt9 & _).
  cbn [Cpp.isSolved_loop fmap list_fmap forallb]. simpl in Hk0, Hk1.
  rewrite Hk0, Hk1. cbn [outcome_bind].
  rewrite (inv_board _ _ HI).
  rewrite !slot_at_board_of
    by (try apply (inv_len _ _ HI); unfold CARDS_IN_DECK in *;
        unfold row_of, NMAP_FIRST, NMAP_SECOND in *; simpl in *; lia).
  cbn [outcome_bind]. unfold row_ok at 1.
  change (NMAP_FIRST (row_of (key, c))) with (Cpp.digit (char_at key 0)).
  change (NMAP_SECOND (row_of (key, c))) with (Cpp.digit (char_at key 1)).
  destruct (placed !! N.to_nat (Cpp.digit (char_at key 0))) as [p1|] eqn:H1;
    destruct (placed !! N.to_nat (Cpp.digit (char_at key 1))) as [p2|] eqn:H2;
    try (destruct partial; [exact IH|done]).
  rewrite (Cpp_matchesNeighbor_Inv s placed (row_of (key, c)) p1 p2 HI Hr H1 H2).
  destruct (pair_matches _ p1 p2); [|done].
  by rewrite decide_True.
Qed.

Lemma Cpp_key_missing (a b : N) :
  a < 10 → b < 10 → (∀ c, (a, b, c) ∉ NEIGHBORMAP) →
  Cpp.NEIGHBORMAP !! (Cpp.to_string a +:+ Cpp.to_string b) = None.
Proof.
  intros Ha Hb Hno.
  assert (Forall (λ a, Forall (λ b,
            (∃ c, (a, b, c) ∈ NEIGHBORMAP)
            ∨ Cpp.NEIGHBORMAP !! (Cpp.to_string a +:+ Cpp.to_string b) = None)
            (N.of_nat <$> seq 0 10)) (N.of_nat <$> seq 0 10)) as Hall.
  { change (N.of_nat <$> seq 0 10) with [0; 1; 2; 3; 4; 5; 6; 7; 8; 9].
    repeat (apply Forall_cons; split;
            [repeat (apply Forall_cons; split;
                     [first [right; reflexivity
                            |left; eexists; unfold NEIGHBORMAP;
                             repeat first [apply list_elem_of_here
                                          |apply list_elem_of_further]]|]);
             by apply Forall_nil|]).
    by apply Forall_nil. }
  rewrite Forall_forall in Hall.
  assert (∀ n, n < 10 → n ∈ N.of_nat <$> seq 0 10) as Hin.
  { intros n Hn. apply list_elem_of_fmap. exists (N.to_nat n).
    split; [by rewrite N2Nat.id|]. apply elem_of_seq. lia. }
  specialize (Hall a (Hin a Ha)). rewrite Forall_forall in Hall.
  destruct (Hall b (Hin b Hb)) as [[c Hc]|Hnone]; [|done].
  by destruct (Hno c).
Qed.

(** ** The C++ file against the C file *)

(** X2.  A query that is not a row of the table.  For two positions below
    10 that no row of [NEIGHBORMAP] lists in this order (the same
    position twice, two positions that are not adjacent, or two adjacent
    ones asked from the higher position), the C [matchesNeighbor] writes
    the diagnostic and ends the process, while the C++ method finds no
    key, inserts the key with common edge 0 into its map and returns the
    comparison of the labels at edge 0 as if the positions were
    adjacent. *)
Theorem Cpp_matchesNeighbor_not_in_table (this other : PlayedCard) (w : World) :
  is_Some (card this) →
  position this < 10 → position other < 10 →
  (∀ c, (position this, position other, c) ∉ NEIGHBORMAP) →
  matchesNeighbor this other w = (not_neighbors_world w, Exited)
  ∧ Cpp.NEIGHBORMAP !! Cpp_key this other = None
  ∧ Cpp.matchesNeighbor this other Cpp.NEIGHBORMAP
    = (<[Cpp_key this other := 0]> Cpp.NEIGHBORMAP,
       compare_edges 0 this other).
Proof.
  intros [c Hc] Hp Hq Hno.
  pose proof (Cpp_key_missing _ _ Hp Hq Hno) as Hkey.
  split; [|split; [done|]].
  - unfold matchesNeighbor. rewrite Hc.
    unfold getCommonEdge.
    rewrite (io_bind_exited _ _ w (not_neighbors_world w)); [done|].
    by apply getCommonEdge_loop_miss.
  - unfold Cpp.matchesNeighbor, Cpp.index, compare_edges, Cpp_key.
    rewrite Hc, Hkey. f_equal.
    destruct (edge_of (Some c) _) as [e1| | |]; simpl; try done.
    destruct (edge_of (card other) _) as [e2| | |]; simpl; try done.
    by destruct (edges_interlock e1 e2).
Qed.

Lemma Cpp_matchesNeighbor_not_in_table_witness :
  matchesNeighbor (mkPlayedCard 0 1 (Some 1)) (mkPlayedCard 0 0 (Some 0))
    empty_world
  = (not_neighbors_world empty_world, Exited)
  ∧ Cpp.NEIGHBORMAP !! "10"%string = None
  ∧ Cpp.matchesNeighbor (mkPlayedCard 0 1 (Some 1)) (mkPlayedCard 0 0 (Some 0))
      Cpp.NEIGHBORMAP
    = (<["10"%string := 0]> Cpp.NEIGHBORMAP, Ret false).
Proof.
  apply (Cpp_matchesNeighbor_not_in_table
           (mkPlayedCard 0 1 (Some 1)) (mkPlayedCard 0 0 (Some 0)) empty_world).
  - by exists 1.
  - simpl. lia.
  - simpl. lia.
  - intros c Hin. simpl in Hin. apply (NEIGHBORMAP_no_reverse 0 1 0 c); [|done].
    apply (bool_decide_unpack _). vm_compute. exact I.
Defined.



(** * Outside the search *)

(** ** Calls outside the bounds *)

Lemma io_bind_fault_run {A B} (m : io A) (k : A → io B) w w' :
  m w = (w', Fault) → io_bind m k w = (w', Fault).
Proof. intros H. unfold io_bind. by rewrite H. Qed.

Lemma output_loop_partial s placed (i : N) order (p : sint) w :
  Inv s placed →
  Forall (λ q, q < CARDS_IN_DECK) order →
  p ∈ order → (length placed ≤ N.to_nat p)%nat →
  ∃ w', output_loop i order s w = (w', Fault).
Proof.
  intros HI Hord. revert i w.
  induction Hord as [|q order Hq _ IH]; intros i w Hin Hp.
  - by apply elem_of_nil in Hin.
  - simpl. rewrite (inv_board _ _ HI), slot_at_board_of
      by (try apply (inv_len _ _ HI); done).
    unfold io_bind at 1. unfold lift at 1.
    destruct (placed !! N.to_nat q) as [pc|] eqn:Hpc.
    + apply elem_of_cons in Hin as [->|Hin].
      { apply lookup_lt_Some in Hpc. lia. }
      destruct (inv_card _ _ HI pc) as (c & Hc & Hc9);
        [by eapply list_elem_of_lookup_2|].
      apply deck_at_lt in Hc9 as [cd Hcd].
      unfold io_bind at 1 2 3. unfold lift at 1 2 3. simpl.
      rewrite Hc. simpl. rewrite Hcd. simpl.
      unfold io_bind at 1. simpl. unfold io_bind at 1.
      destruct (i <? CARDS_IN_DECK - 1); simpl; by apply IH.
    + by exists w.
Qed.

(** ** Calls the search never makes *)

(** X10.  [output] is for full boards only.  On a board that satisfies
    the invariant, [output] returns when all nine positions are filled,
    and dereferences a NULL slot when one is free (position 8, the last
    of [PRINTORDER], is then empty; an earlier empty position of the
    order faults first). *)
Theorem output_needs_full (g : GameState) (placed : list PlayedCard) (w : World) :
  Inv g placed →
  (length placed = 9%nat → ∃ w', output g w = (w', Ret tt))
  ∧ ((length placed < 9)%nat → ∃ w', output g w = (w', Fault)).
Proof.
  intros HI. split; [by apply output_Inv|]. intros Hlt.
  unfold output. unfold io_bind at 1. simpl. unfold io_bind at 1. simpl.
  destruct (output_loop_partial g placed 0 PRINTORDER 8
              (mkWorld (stdout w +:+ "[") (reported w ++ [g])) HI)
    as [w' Hw'].
  - unfold PRINTORDER, CARDS_IN_DECK. repeat (constructor; [lia|]). constructor.
  - unfold PRINTORDER. do 8 right. by left.
  - change (N.to_nat 8) with 8%nat. lia.
  - exists w'. by apply io_bind_fault_run.
Qed.

Lemma output_needs_full_witness :
  ∃ w', output empty_game empty_world = (w', Fault).
Proof.
  apply (output_needs_full empty_game [] empty_world Inv_empty). simpl. lia.
Defined.

(** X11.  [first] and [next] outside the board.  With a [nextOnBoard]
    that fits a byte: [next] on a board that has no placement yet reads
    [cardsOnBoard[255]] ([nextOnBoard - 1] wraps), and with [nextOnBoard]
    above 9 it reads past the array as well; [first] on a board whose
    [nextOnBoard] is 9 or more either finds no free card and returns
    NULL, or writes the new placement past the array. *)
Theorem first_next_out_of_bounds (g : GameState) :
  nextOnBoard g < 256 →
  ((nextOnBoard g = 0 ∨ 9 < nextOnBoard g) → next g = Fault)
  ∧ (9 ≤ nextOnBoard g → first g = Ret None ∨ first g = Fault).
Proof.
  intros Hbyte. split.
  - intros Hn. unfold next, getLastAdded, last_index, replicate, slot_at.
    cbn [nextOnBoard cardsOnBoard].
    assert (CARDS_IN_DECK ≤ to_sint (Z.of_N (nextOnBoard g) - 1)) as Hge.
    { unfold CARDS_IN_DECK. destruct Hn as [-> |Hn]; [by vm_compute|].
      rewrite to_sint_pred by lia. lia. }
    by destruct (N.ltb_spec (to_sint (Z.of_N (nextOnBoard g) - 1))
                   CARDS_IN_DECK) as [Hlt|_]; [lia|].
  - intros Hn. unfold first, addNewCard.
    destruct (nextFromDeck _) as [g' [c|]] eqn:Hnx; [|by left].
    right. apply nextFromDeck_some in Hnx as (_ & _ & _ & _ & ->).
    unfold store_slot. cbn [position set_top nextOnBoard replicate].
    by destruct (N.ltb_spec (nextOnBoard g) CARDS_IN_DECK) as [Hlt|_];
      [unfold CARDS_IN_DECK in Hlt; lia|].
Qed.

Lemma first_next_out_of_bounds_witness : next empty_game = Fault.
Proof.
  apply (first_next_out_of_bounds empty_game); [by vm_compute|by left].
Defined.

(** * Nothing is left behind in the store *)

(** ** Reading a run backwards *)

Lemma mem_bind_inv {A B} (m : Heap.mem A) (k : A → Heap.mem B) h h' b :
  Heap.mem_bind m k h = Ret (b, h') →
  ∃ a h1, m h = Ret (a, h1) ∧ k a h1 = Ret (b, h').
Proof.
  unfold Heap.mem_bind. destruct (m h) as [[a h1]| | |]; intros H;
    try discriminate.
  by exists a, h1.
Qed.

Lemma load_state_inv l h g h' :
  Heap.load_state l h = Ret (g, h') → h' = h ∧ Heap.states h !! l = Some g.
Proof.
  unfold Heap.load_state. destruct (Heap.states h !! l); intros H;
    by simplify_eq.
Qed.

Lemma store_state_inv l g h u h' :
  Heap.store_state l g h = Ret (u, h') →
  h' = Heap.mkHeap (Heap.cards h) (<[l := g]> (Heap.states h)).
Proof.
  unfold Heap.store_state. destruct (Heap.states h !! l); intros H;
    by simplify_eq.
Qed.

Lemma load_card_inv l h pc h' :
  Heap.load_card l h = Ret (pc, h') → h' = h ∧ Heap.cards h !! l = Some pc.
Proof.
  unfold Heap.load_card. destruct (Heap.cards h !! l); intros H;
    by simplify_eq.
Qed.

Lemma store_card_inv l pc h u h' :
  Heap.store_card l pc h = Ret (u, h') →
  h' = Heap.mkHeap (<[l := pc]> (Heap.cards h)) (Heap.states h).
Proof.
  unfold Heap.store_card. destruct (Heap.cards h !! l); intros H;
    by simplify_eq.
Qed.

Lemma free_card_inv l h u h' :
  Heap.free_card l h = Ret (u, h') →
  h' = Heap.mkHeap (base.delete l (Heap.cards h)) (Heap.states h).
Proof.
  unfold Heap.free_card. destruct (Heap.cards h !! l); intros H;
    by simplify_eq.
Qed.

Lemma free_state_inv l h u h' :
  Heap.free_state l h = Ret (u, h') →
  h' = Heap.mkHeap (Heap.cards h) (base.delete l (Heap.states h)).
Proof.
  unfold Heap.free_state. destruct (Heap.states h !! l); intros H;
    by simplify_eq.
Qed.

Lemma mem_lift_inv {A} (m : outcome A) h a h' :
  Heap.mem_lift m h = Ret (a, h') → h' = h ∧ m = Ret a.
Proof.
  unfold Heap.mem_lift. destruct m; simpl; intros H; by simplify_eq.
Qed.

(** ** The frame of each operation *)

Lemma touches_refl L R h : touches L R h h.
Proof. by split. Qed.

Lemma touches_trans L R h1 h2 h3 :
  touches L R h1 h2 → touches L R h2 h3 → touches L R h1 h3.
Proof.
  intros [Hc1 Hs1] [Hc2 Hs2]. split.
  - intros l Hl. by rewrite Hc2, Hc1.
  - intros r Hr. by rewrite Hs2, Hs1.
Qed.

Lemma touches_mono L R L' R' h h' :
  (∀ l, l ∈ L → l ∈ L') → (∀ r, r ∈ R → r ∈ R') →
  touches L R h h' → touches L' R' h h'.
Proof.
  intros HL HR [Hc Hs]. split.
  - intros l Hl. apply Hc. intros Hin. by apply Hl, HL.
  - intros r Hr. apply Hs. intros Hin. by apply Hr, HR.
Qed.

Lemma replicate_slots_touches src h dst h' :
  Heap.replicate_slots src h = Ret (dst, h') →
  Heap.states h' = Heap.states h
  ∧ ∀ l, l ∉ slot_locs dst → Heap.cards h' !! l = Heap.cards h !! l.
Proof.
  revert h dst h'. induction src as [|[l|] src IH]; intros h dst h' H; simpl in H.
  - by injection H as <- <-.
  - apply mem_bind_inv in H as (l' & h1 & Hm & H).
    injection Hm as <- <-.
    apply mem_bind_inv in H as (pc & h2 & Hl & H).
    apply load_card_inv in Hl as [-> Hl].
    apply mem_bind_inv in H as ([] & h3 & Hs & H).
    apply store_card_inv in Hs as ->. simpl in H.
    apply mem_bind_inv in H as (rest & h4 & Hrest & H).
    injection H as <- <-. apply IH in Hrest as [Hs Hc].
    rewrite slot_locs_cons_Some. split; simpl in *; [done|].
    intros l0 Hl0. apply not_elem_of_cons in Hl0 as [Hne Hl0].
    rewrite Hc by done. by rewrite !lookup_insert_ne.
  - by injection H as <- <-.
Qed.

Lemma replicate_touches s h r h1 :
  Heap.replicate s h = Ret (r, h1) →
  ∃ n t dst,
    Heap.states h1 = <[r := Heap.mkState n t dst]> (Heap.states h)
    ∧ touches (slot_locs dst) [r] h h1.
Proof.
  unfold Heap.replicate. intros H.
  apply mem_bind_inv in H as (r0 & h0 & Hc & H). injection Hc as <- <-.
  apply mem_bind_inv in H as (src & h2 & Hl & H).
  apply load_state_inv in Hl as [-> _].
  apply mem_bind_inv in H as (dst & h3 & Hrep & H).
  apply mem_bind_inv in H as ([] & h4 & Hst & H).
  apply store_state_inv in Hst as ->. injection H as <- <-.
  apply replicate_slots_touches in Hrep as [Hs Hc]. simpl in *.
  exists (Heap.nextOnBoard src), (Heap.topOfTheDeck src), dst.
  rewrite Hs, insert_insert_eq. split; [done|]. split; simpl.
  - done.
  - intros r Hr. apply lookup_insert_ne.
    intros <-. apply Hr. by left.
Qed.

Lemma isCardOnBoard_loop_same slots value h b h' :
  Heap.isCardOnBoard_loop slots value h = Ret (b, h') → h' = h.
Proof.
  revert h. induction slots as [|[l|] slots IH]; intros h H; simpl in H.
  - by injection H as _ <-.
  - apply mem_bind_inv in H as (pc & h1 & Hl & H).
    apply load_card_inv in Hl as [-> _].
    destruct (card pc) as [c|]; [|by apply IH].
    destruct (bool_decide (Some c = value)); [by injection H as _ <-|].
    by apply IH.
  - by apply IH.
Qed.

Lemma isCardOnBoard_same r value h b h' :
  Heap.isCardOnBoard r value h = Ret (b, h') → h' = h.
Proof.
  unfold Heap.isCardOnBoard. intros H.
  apply mem_bind_inv in H as (g & h1 & Hl & H).
  apply load_state_inv in Hl as [-> _].
  by apply isCardOnBoard_loop_same in H.
Qed.

Lemma nextFromDeck_loop_touches n i r h a h' :
  Heap.nextFromDeck_loop n i r h = Ret (a, h') →
  touches [] [r] h h'
  ∧ ∀ obj, Heap.states h !! r = Some obj →
      ∃ t, Heap.states h' !! r
           = Some (Heap.mkState (Heap.nextOnBoard obj) t (Heap.cardsOnBoard obj)).
Proof.
  revert i h. induction n as [|n IH]; intros i h H; simpl in H.
  - injection H as _ <-. split; [apply touches_refl|].
    intros [nb t slots] Hobj. by exists t.
  - apply mem_bind_inv in H as (found & h1 & Hf & H).
    apply isCardOnBoard_same in Hf as ->.
    destruct found; [by apply IH in H|].
    apply mem_bind_inv in H as (g & h1 & Hl & H).
    apply load_state_inv in Hl as [-> Hg].
    apply mem_bind_inv in H as ([] & h1 & Hs & H).
    apply store_state_inv in Hs as ->. injection H as _ <-. split.
    + split; simpl; [done|]. intros r' Hr'. apply lookup_insert_ne.
      intros <-. apply Hr'. by left.
    + intros obj Hobj. simpl. rewrite lookup_insert_eq. exists i.
      congruence.
Qed.

Lemma nextFromDeck_touches r h a h' :
  Heap.nextFromDeck r h = Ret (a, h') →
  touches [] [r] h h'
  ∧ ∀ obj, Heap.states h !! r = Some obj →
      ∃ t, Heap.states h' !! r
           = Some (Heap.mkState (Heap.nextOnBoard obj) t (Heap.cardsOnBoard obj)).
Proof.
  unfold Heap.nextFromDeck. intros H.
  apply mem_bind_inv in H as (g & h1 & Hl & H).
  apply load_state_inv in Hl as [-> Hg].
  destruct (CARDS_IN_DECK <=? Heap.topOfTheDeck g).
  - injection H as _ <-. split; [apply touches_refl|].
    intros [nb t slots] Hobj. by exists t.
  - by apply nextFromDeck_loop_touches in H.
Qed.

Lemma addNewCard_touches r h ok h' obj :
  Heap.addNewCard r h = Ret (ok, h') →
  Heap.states h !! r = Some obj →
  if ok then
    ∃ l nb t,
      Heap.states h' !! r
      = Some (Heap.mkState nb t
                (<[N.to_nat (Heap.nextOnBoard obj) := Some l]>
                   (Heap.cardsOnBoard obj)))
      ∧ Heap.nextOnBoard obj < CARDS_IN_DECK
      ∧ touches [l] [r] h h'
  else
    touches [] [r] h h'
    ∧ ∃ t, Heap.states h' !! r
           = Some (Heap.mkState (Heap.nextOnBoard obj) t (Heap.cardsOnBoard obj)).
Proof.
  unfold Heap.addNewCard. intros H Hobj.
  apply mem_bind_inv in H as (fromdeck & h1 & Hn & H).
  apply nextFromDeck_touches in Hn as [[Hc1 Hs1] Hobj1].
  destruct (Hobj1 obj Hobj) as [t Hobj'].
  destruct fromdeck as [j|].
  - apply mem_bind_inv in H as (l & h2 & Hm & H). injection Hm as <- <-.
    apply mem_bind_inv in H as (g & h3 & Hl & H).
    apply load_state_inv in Hl as [-> Hg]. simpl in Hg.
    assert (g = Heap.mkState (Heap.nextOnBoard obj) t (Heap.cardsOnBoard obj))
      as -> by congruence.
    cbn [Heap.nextOnBoard Heap.topOfTheDeck Heap.cardsOnBoard] in H.
    apply mem_bind_inv in H as ([] & h3 & Hs & H).
    apply store_card_inv in Hs as ->. simpl in H.
    apply mem_bind_inv in H as ([] & h3 & Hs & H).
    destruct (Heap.nextOnBoard obj <? CARDS_IN_DECK) eqn:Hlt;
      [|by apply mem_lift_inv in Hs as [_ ?]].
    apply store_state_inv in Hs as ->. simpl in H.
    apply mem_bind_inv in H as (g & h3 & Hl & H).
    apply load_state_inv in Hl as [-> Hg']. simpl in Hg'.
    rewrite lookup_insert_eq in Hg'. injection Hg' as <-.
    cbn [Heap.nextOnBoard Heap.topOfTheDeck Heap.cardsOnBoard] in H.
    apply mem_bind_inv in H as ([] & h3 & Hs & H).
    apply store_state_inv in Hs as ->. simpl in H.
    injection H as <- <-. simpl.
    eexists _, _, _. split; [apply lookup_insert_eq|].
    split; [by apply N.ltb_lt|]. split; simpl.
    + intros l Hl. rewrite !lookup_insert_ne;
        [apply Hc1, not_elem_of_nil| |]; intros <-; apply Hl; by left.
    + intros r' Hr'. rewrite !lookup_insert_ne; [by apply Hs1| |];
        intros <-; apply Hr'; by left.
  - injection H as <- <-. split; [by split|]. by exists t.
Qed.

Lemma slot_at_locs slots (i : sint) l :
  Heap.slot_at slots i = Ret (Some l) → l ∈ slot_locs slots.
Proof.
  unfold Heap.slot_at. destruct (i <? CARDS_IN_DECK); [|done].
  destruct (slots !! N.to_nat i) as [p|] eqn:Hp; [|done]. simpl.
  intros H. injection H as ->. apply slot_locs_elem.
  by eapply list_elem_of_lookup_2.
Qed.

Lemma getLastAdded_same r h p h' :
  Heap.getLastAdded r h = Ret (p, h') →
  h' = h
  ∧ ∃ obj, Heap.states h !! r = Some obj
           ∧ ∀ l, p = Some l → l ∈ slot_locs (Heap.cardsOnBoard obj).
Proof.
  unfold Heap.getLastAdded. intros H.
  apply mem_bind_inv in H as (g & h1 & Hl & H).
  apply load_state_inv in Hl as [-> Hg].
  apply mem_lift_inv in H as [-> H]. split; [done|].
  exists g. split; [done|]. intros l ->. by eapply slot_at_locs.
Qed.

Lemma rotate_touches p h ok h' :
  Heap.rotate p h = Ret (ok, h') → ∃ l, p = Some l ∧ touches [l] [] h h'.
Proof.
  unfold Heap.rotate. intros H.
  apply mem_bind_inv in H as (l & h1 & Hd & H).
  apply mem_lift_inv in Hd as [-> Hd].
  destruct p as [l0|]; [|done]. injection Hd as ->. exists l. split; [done|].
  apply mem_bind_inv in H as (pc & h1 & Hl & H).
  apply load_card_inv in Hl as [-> _].
  destruct (2 <=? rotation pc).
  - injection H as _ <-. apply touches_refl.
  - apply mem_bind_inv in H as ([] & h1 & Hs & H).
    apply store_card_inv in Hs as ->. injection H as _ <-.
    split; simpl; [|done]. intros l' Hl'. apply lookup_insert_ne.
    intros <-. apply Hl'. by left.
Qed.

Lemma replaceCard_touches r l h ok h' :
  Heap.replaceCard r l h = Ret (ok, h') → touches [l] [r] h h'.
Proof.
  unfold Heap.replaceCard. intros H.
  apply mem_bind_inv in H as (fromdeck & h1 & Hn & H).
  apply nextFromDeck_touches in Hn as [[Hc1 Hs1] _].
  destruct fromdeck as [j|].
  - apply mem_bind_inv in H as (pc & h2 & Hl & H).
    apply load_card_inv in Hl as [-> _].
    apply mem_bind_inv in H as ([] & h2 & Hs & H).
    apply store_card_inv in Hs as ->. injection H as _ <-.
    split; simpl; [|done]. intros l' Hl'.
    rewrite lookup_insert_ne; [apply Hc1, not_elem_of_nil|].
    intros <-. apply Hl'. by left.
  - injection H as _ <-. split; [|done]. intros l' _.
    apply Hc1, not_elem_of_nil.
Qed.

Lemma delete_slots_inv slots h u h' :
  Heap.delete_slots slots h = Ret (u, h') →
  Heap.states h' = Heap.states h
  ∧ (∀ l, l ∈ slot_locs slots → Heap.cards h' !! l = None)
  ∧ (∀ l, l ∉ slot_locs slots → Heap.cards h' !! l = Heap.cards h !! l).
Proof.
  revert h. induction slots as [|[l|] slots IH]; intros h H; simpl in H.
  - injection H as _ <-. split; [done|]. split; [|done].
    intros l Hl. by apply elem_of_nil in Hl.
  - apply mem_bind_inv in H as ([] & h1 & Hf & H).
    apply free_card_inv in Hf as ->.
    apply IH in H as (Hs & Hin & Hout). simpl in *.
    rewrite slot_locs_cons_Some. split; [done|]. split.
    + intros l' Hl'.
      destruct (decide (l' ∈ slot_locs slots)) as [Hl2|Hl2]; [by apply Hin|].
      apply elem_of_cons in Hl' as [->|Hl']; [|done].
      rewrite Hout by done. apply lookup_delete_eq.
    + intros l' Hl'. apply not_elem_of_cons in Hl' as [Hne Hl'].
      rewrite Hout by done. by apply lookup_delete_ne.
  - rewrite slot_locs_cons_None. by apply IH.
Qed.

Lemma delete_inv r h u h' :
  Heap.delete r h = Ret (u, h') →
  ∃ obj,
    Heap.states h !! r = Some obj
    ∧ Heap.states h' = base.delete r (Heap.states h)
    ∧ (∀ l, l ∈ slot_locs (Heap.cardsOnBoard obj) → Heap.cards h' !! l = None)
    ∧ (∀ l, l ∉ slot_locs (Heap.cardsOnBoard obj) →
            Heap.cards h' !! l = Heap.cards h !! l).
Proof.
  unfold Heap.delete. intros H.
  apply mem_bind_inv in H as (g & h1 & Hl & H).
  apply load_state_inv in Hl as [-> Hg].
  apply mem_bind_inv in H as ([] & h1 & Hd & H).
  apply delete_slots_inv in Hd as (Hs & Hin & Hout).
  apply free_state_inv in H as ->. simpl. exists g. by rewrite Hs.
Qed.

(** [delete] on a state of one's own gives back exactly the store the
    state was built on. *)
Lemma delete_exact h0 h r slots g :
  owned h0 h r slots g → touches (slot_locs slots) [r] h0 h →
  Heap.delete r h = Ret (tt, h0).
Proof.
  intros Hown [Hc Hs].
  destruct (delete_sim _ _ _ _ _ Hown) as (h' & Hrun & _). rewrite Hrun.
  apply delete_inv in Hrun as (obj & Hobj & Hs' & Hin & Hout).
  destruct Hown as (_ & Hfresh & Hobj' & _ & Hfr & _).
  rewrite Hobj' in Hobj. injection Hobj as <-. simpl in *.
  do 2 f_equal. destruct h' as [cs' ss'], h0 as [cs0 ss0]. simpl in *.
  f_equal.
  - apply map_eq. intros l.
    destruct (decide (l ∈ slot_locs slots)) as [Hl|Hl].
    + rewrite Hin by done. rewrite Forall_forall in Hfr. by rewrite Hfr.
    + rewrite Hout by done. by apply Hc.
  - subst ss'. apply map_eq. intros r'.
    destruct (decide (r' = r)) as [->|Hne].
    + by rewrite lookup_delete_eq.
    + rewrite lookup_delete_ne by done. apply Hs.
      by intros ->%list_elem_of_singleton.
Qed.

(** ** [first] and [next] allocate their result and nothing else *)

Lemma slot_locs_insert_new slots (i : nat) l l' :
  slots !! i = Some None →
  l' = l ∨ l' ∈ slot_locs slots →
  l' ∈ slot_locs (<[i := Some l]> slots).
Proof.
  intros Hi Hl'. apply slot_locs_elem.
  destruct Hl' as [->|Hl'].
  - apply list_elem_of_lookup. exists i. apply list_lookup_insert_eq.
    by eapply lookup_lt_Some.
  - apply slot_locs_elem, list_elem_of_lookup in Hl' as [j Hj].
    apply list_elem_of_lookup. exists j.
    rewrite list_lookup_insert_ne; [done|]. intros ->. congruence.
Qed.

Lemma touches_step L R h0 h1 h2 L' :
  touches L R h0 h1 → touches L' R h1 h2 →
  (∀ l, l ∈ L' → l ∈ L) → touches L R h0 h2.
Proof.
  intros H1 H2 HL. eapply touches_trans; [exact H1|].
  by eapply touches_mono; [| |exact H2].
Qed.

Lemma owned_slots h0 h r slots g obj :
  owned h0 h r slots g → Heap.states h !! r = Some obj →
  Heap.cardsOnBoard obj = slots.
Proof. intros (_ & _ & Hobj & _) H. rewrite Hobj in H. by injection H as <-. Qed.

Lemma next_slot_null cs slots g placed :
  Inv g placed →
  Forall2 (slot_rep cs) slots (cardsOnBoard (replicate g)) →
  nextOnBoard g < CARDS_IN_DECK →
  slots !! N.to_nat (nextOnBoard g) = Some None.
Proof.
  intros HI Hrep Hlt. rewrite (Inv_replicate _ _ HI), (inv_board _ _ HI) in Hrep.
  rewrite (inv_next _ _ HI) in *. rewrite Nat2N.id.
  assert (board_of placed !! length placed = Some None) as Hb
    by (apply board_of_lookup_null; unfold CARDS_IN_DECK in *; lia).
  by destruct (Forall2_lookup_r _ _ _ _ _ Hrep Hb) as ([l0|] & Hl0 & Hr0).
Qed.

Lemma first_tight h s g placed :
  rep h s g → Inv g placed →
  match first g with
  | Ret (Some g') =>
      ∃ h' r slots,
        Heap.first s h = Ret (Some r, h')
        ∧ owned h h' r slots g'
        ∧ touches (slot_locs slots) [r] h h'
  | Ret None => Heap.first s h = Ret (None, h)
  | _ => True
  end.
Proof.
  intros Hrep HI.
  destruct (replicate_sim h s g Hrep) as ([cs ss] & r & slots & Hrun & Hown).
  destruct (replicate_touches _ _ _ _ Hrun) as (n & t & dst & Hst & Htouch).
  assert (dst = slots) as ->.
  { apply (owned_slots _ _ _ _ _ (Heap.mkState n t dst) Hown).
    rewrite Hst. apply lookup_insert_eq. }
  clear Hst.
  unfold first, Heap.first.
  erewrite mem_bind_ret by exact Hrun.
  pose proof Hown as (_ & _ & Hobj & Hrep1 & Hfr & Hnd). simpl in Hobj, Hrep1.
  erewrite mem_bind_ret by (by apply load_state_run).
  cbn [Heap.nextOnBoard Heap.topOfTheDeck Heap.cardsOnBoard].
  erewrite mem_bind_ret by (by eapply store_state_run).
  set (g1 := mkGameState (nextOnBoard (replicate g)) 0
               (cardsOnBoard (replicate g))).
  set (h2 := Heap.mkHeap cs
               (<[r := Heap.mkState (nextOnBoard g1) (topOfTheDeck g1) slots]> ss)).
  assert (owned h h2 r slots g1) as Hown1
    by by apply (owned_store_state h cs ss r slots (replicate g)).
  assert (touches (slot_locs slots) [r] h h2) as Htouch1.
  { eapply touches_trans; [exact Htouch|]. split; simpl; [done|].
    intros r' Hr'. apply lookup_insert_ne. intros <-. apply Hr'. by left. }
  pose proof (addNewCard_sim _ _ _ _ _ _ Hown1) as Hadd.
  simpl in Hadd. simpl.
  destruct (addNewCard g1) as [[g2 ok]| | |]; simpl; try done.
  destruct Hadd as (h3 & slots3 & Hrun3 & Hown3).
  fold h2. erewrite mem_bind_ret by exact Hrun3.
  pose proof (addNewCard_touches r h2 ok h3 _ Hrun3 (lookup_insert_eq _ _ _))
    as Hadd. cbn [Heap.nextOnBoard Heap.cardsOnBoard] in Hadd.
  destruct ok.
  - destruct Hadd as (l & nb & t' & Hobj3 & Hlt & Htouch3).
    apply (owned_slots _ _ _ _ _ _ Hown3) in Hobj3. simpl in Hobj3.
    exists h3, r, slots3. split; [done|]. split; [done|].
    assert (slots !! N.to_nat (nextOnBoard g1) = Some None) as Hnull
      by (by apply (next_slot_null cs slots g placed)).
    subst slots3.
    eapply touches_trans.
    + eapply touches_mono; [| |exact Htouch1]; [|done].
      intros l' Hl'. apply slot_locs_insert_new; [done|by right].
    + eapply touches_mono; [| |exact Htouch3]; [|done].
      intros l' Hl'%list_elem_of_singleton.
      apply slot_locs_insert_new; [done|by left].
  - destruct Hadd as (Htouch3 & t' & Hobj3).
    apply (owned_slots _ _ _ _ _ _ Hown3) in Hobj3. simpl in Hobj3.
    subst slots3.
    erewrite mem_bind_ret; [reflexivity|].
    apply (delete_exact h h3 r slots g2 Hown3).
    eapply touches_step; [exact Htouch1|exact Htouch3|].
    intros l Hl. by apply elem_of_nil in Hl.
Qed.

Lemma next_tight h s g :
  rep h s g →
  match next g with
  | Ret (Some g') =>
      ∃ h' r slots,
        Heap.next s h = Ret (Some r, h')
        ∧ owned h h' r slots g'
        ∧ touches (slot_locs slots) [r] h h'
  | Ret None => Heap.next s h = Ret (None, h)
  | _ => True
  end.
Proof.
  intros Hrep.
  destruct (replicate_sim h s g Hrep) as ([cs ss] & r & slots & Hrun & Hown).
  destruct (replicate_touches _ _ _ _ Hrun) as (n & t & dst & Hst & Htouch).
  assert (dst = slots) as ->.
  { apply (owned_slots _ _ _ _ _ (Heap.mkState n t dst) Hown).
    rewrite Hst. apply lookup_insert_eq. }
  clear Hst.
  unfold next, Heap.next.
  erewrite mem_bind_ret by exact Hrun.
  set (g1 := replicate g) in *.
  pose proof (getLastAdded_sim _ _ _ _ _ _ Hown) as Hlast.
  destruct (getLastAdded g1) as [[pc|]| | |]; simpl; try done.
  destruct Hlast as (l & Hrun1 & Hslot & Hl & Hlt).
  assert (l ∈ slot_locs slots) as Hin
    by (apply slot_locs_elem; by eapply list_elem_of_lookup_2).
  erewrite mem_bind_ret by exact Hrun1.
  pose proof (rotate_run cs ss l pc Hl) as Hrot. unfold rotate.
  destruct (2 <=? rotation pc); simpl.
  - erewrite mem_bind_ret by exact Hrot. cbn beta iota.
    rewrite (mem_bind_ret _ _ _ (Heap.mkHeap cs ss) l) by reflexivity.
    pose proof (replaceCard_sim _ _ _ _ _ _ _ _ _ Hown Hlt Hslot Hl) as Hrepl.
    destruct (replaceCard g1 (last_index g1) pc) as [[g2 ok]| | |]; try done.
    destruct Hrepl as (h2 & Hrun2 & Hown2).
    erewrite mem_bind_ret by exact Hrun2. simpl.
    assert (touches (slot_locs slots) [r] h h2) as Htouch2.
    { eapply touches_step;
        [exact Htouch|exact (replaceCard_touches _ _ _ _ _ Hrun2)|].
      by intros l' ->%list_elem_of_singleton. }
    destruct ok.
    + by exists h2, r, slots.
    + erewrite mem_bind_ret; [reflexivity|].
      by apply (delete_exact h h2 r slots g2).
  - erewrite mem_bind_ret by exact Hrot. cbn beta iota.
    unfold store_slot.
    destruct (N.ltb_spec (last_index g1) CARDS_IN_DECK) as [_|]; [|lia].
    simpl. eexists _, r, slots. split; [done|]. split.
    + by apply (owned_store_card h cs ss r slots g1).
    + eapply touches_trans; [exact Htouch|]. split; simpl; [|done].
      intros l' Hl'. apply lookup_insert_ne. by intros <-.
Qed.

(** ** The search gives back what it allocates *)

Lemma solve_loop_tight (prec : GameState → io unit)
  (hrec : Heap.loc → Heap.proc unit) (n : nat) h0 h st slots gst placed pc w w' :
  (∀ s g placed w w' h, rep h s g → Inv g placed → prec g w = (w', Ret tt) →
                        hrec s w h = (w', Ret (tt, h))) →
  owned h0 h st slots gst → touches (slot_locs slots) [st] h0 h →
  Inv gst (placed ++ [pc]) →
  solve_loop prec n (Some gst) w = (w', Ret tt) →
  Heap.solve_loop hrec n (Some st) w h = (w', Ret (tt, h0)).
Proof.
  intros Hrec. revert h st slots gst pc w.
  induction n as [|n IH]; intros h st slots gst pc w Hown Htouch HI Hrun;
    [done|].
  simpl in Hrun. apply io_bind_inv in Hrun as (w1 & [] & Hrun1 & Hrun).
  apply io_bind_inv in Hrun as (w2 & nx & Hnext & Hrun).
  unfold lift in Hnext.
  assert (w2 = w1 ∧ next gst = Ret nx) as [-> Hnx] by (by simplify_eq).
  pose proof (Hrec st gst _ w w1 h (owned_rep _ _ _ _ _ Hown) HI Hrun1) as Hh1.
  pose proof (next_tight h st gst (owned_rep _ _ _ _ _ Hown)) as Hsim.
  rewrite Hnx in Hsim. simpl.
  erewrite proc_bind_ret by exact Hh1.
  destruct nx as [g'|].
  - destruct Hsim as (h2 & r & slots_r & Hh2 & Hown2 & Htouch2).
    erewrite proc_bind_ret by (unfold Heap.run_mem; by rewrite Hh2).
    pose proof (owned_mono _ _ _ _ _ _ Hown (owned_preserved _ _ _ _ _ Hown2))
      as Hown_st.
    destruct (delete_frees _ _ _ _ _ Hown_st)
      as (h3 & Hh3 & Hpres3 & Hcards & Hstates).
    erewrite proc_bind_ret by (unfold Heap.run_mem; by rewrite Hh3).
    destruct (next_Inv _ _ _ HI) as [[Hnone _]|(s' & pc' & Hs' & HI' & _)];
      [congruence|].
    assert (s' = g') as -> by congruence.
    apply (IH h3 r slots_r g' pc' w1); [| |done|done].
    + by eapply (owned_after_delete h0 h h2 h3 st slots gst).
    + apply delete_inv in Hh3 as (obj & Hobj & Hst & Hin & _).
      apply (owned_slots _ _ _ _ _ _ Hown_st) in Hobj.
      rewrite Hobj in Hin. clear obj Hobj.
      destruct Hown as (_ & Hfresh & _ & _ & Hfr & _).
      destruct Htouch as [Hc Hs], Htouch2 as [Hc2 Hs2].
      rewrite Forall_forall in Hfr. split.
      * intros l Hl. destruct (decide (l ∈ slot_locs slots)) as [Hl'|Hl'].
        -- rewrite Hin by done. symmetry. by apply Hfr.
        -- rewrite Hcards, Hc2 by done. by apply Hc.
      * intros r' Hr'. destruct (decide (r' = st)) as [->|Hne].
        -- rewrite Hst, lookup_delete_eq. by rewrite Hfresh.
        -- rewrite Hstates, Hs2 by done. apply Hs.
           by intros ->%list_elem_of_singleton.
  - erewrite proc_bind_ret by (unfold Heap.run_mem; by rewrite Hsim).
    erewrite proc_bind_ret
      by (unfold Heap.run_mem; by rewrite (delete_exact _ _ _ _ _ Hown Htouch)).
    rewrite solve_loop_None in Hrun. unfold io_ret in Hrun. simplify_eq.
    by destruct n.
Qed.

Lemma solve_tight (depth width : nat) h s g placed w w' :
  rep h s g → Inv g placed →
  solve depth width g w = (w', Ret tt) →
  Heap.solve depth width s w h = (w', Ret (tt, h)).
Proof.
  revert h s g placed w w'.
  induction depth as [|depth IH]; intros h s g placed w w' Hrep HI Hrun;
    [done|].
  simpl in Hrun. simpl.
  apply io_bind_inv in Hrun as (w1 & ok & Hok & Hrun).
  erewrite proc_bind_ret
    by (eapply reads_run; [by apply isSolved_reads|exact Hok]).
  destruct ok; simpl in *.
  - apply io_bind_inv in Hrun as (w2 & full & Hfull & Hrun).
    erewrite proc_bind_ret
      by (eapply reads_run; [by apply isSolved_reads|exact Hfull]).
    apply io_bind_inv in Hrun as (w3 & [] & Hout & Hrun).
    erewrite proc_bind_ret.
    2:{ eapply (reads_run h _ (if full then output g else io_ret tt));
          [|exact Hout].
        destruct full; [by apply output_reads|apply reads_ret]. }
    apply io_bind_inv in Hrun as (w4 & nx & Hfirst & Hrun).
    unfold lift in Hfirst.
    assert (w4 = w3 ∧ first g = Ret nx) as [-> Hnx] by (by simplify_eq).
    pose proof (first_tight h s g placed Hrep HI) as Hsim. rewrite Hnx in Hsim.
    destruct nx as [g'|].
    + destruct Hsim as (h1 & r & slots & Hh1 & Hown & Htouch).
      erewrite proc_bind_ret by (unfold Heap.run_mem; by rewrite Hh1).
      destruct (first_Inv _ _ HI) as [[Hnone _]|(s' & c & Hs' & _ & HI' & _)];
        [congruence|].
      assert (s' = g') as -> by congruence.
      eapply (solve_loop_tight (solve depth width));
        [|exact Hown|exact Htouch|exact HI'|exact Hrun].
      intros s0 g0 placed0 w0 w0' h0. apply IH.
    + erewrite proc_bind_ret by (unfold Heap.run_mem; by rewrite Hsim).
      rewrite solve_loop_None in Hrun. unfold io_ret in Hrun. simplify_eq.
      by destruct width.
  - unfold io_ret in Hrun. by simplify_eq.
Qed.

Lemma main_tight (depth width : nat) h w' :
  main depth width = (w', Ret tt) →
  Heap.main depth width empty_world h = (w', Ret (tt, h)).
Proof.
  intros Hrun. destruct h as [cs ss]. unfold Heap.main.
  set (game := fresh (dom ss)).
  set (zero := Heap.mkState 0 0 (list.replicate (N.to_nat CARDS_IN_DECK) None)).
  assert (ss !! game = None) as Hfresh by apply fresh_state_None.
  assert (owned (Heap.mkHeap cs ss) (Heap.mkHeap cs (<[game := zero]> ss)) game
            (list.replicate (N.to_nat CARDS_IN_DECK) None) empty_game) as Hown.
  { split; [split; [done|by apply insert_subseteq]|]. split; [done|].
    split; [apply lookup_insert_eq|]. split; [by apply Forall2_replicate|].
    rewrite slot_locs_nulls. split; constructor. }
  assert (touches (slot_locs (list.replicate (N.to_nat CARDS_IN_DECK) None))
            [game] (Heap.mkHeap cs ss) (Heap.mkHeap cs (<[game := zero]> ss)))
    as Htouch.
  { split; simpl; [done|]. intros r Hr. apply lookup_insert_ne.
    intros <-. apply Hr. by left. }
  rewrite (proc_bind_ret _ _ _ _ empty_world
             (Heap.mkHeap cs (<[game := zero]> ss)) game) by reflexivity.
  erewrite proc_bind_ret
    by exact (solve_tight depth width _ game empty_game [] empty_world w'
                (owned_rep _ _ _ _ _ Hown) Inv_empty Hrun).
  unfold Heap.run_mem. by rewrite (delete_exact _ _ _ _ _ Hown Htouch).
Qed.

(** X12.  [first] and [next] allocate their result and nothing else.  On
    a store in which [s] stands for a board that satisfies the invariant:
    when the transition returns a state, the store afterwards is the
    store before plus that state object and the placements in its slots
    (all of them new addresses); when it returns NULL, the copy it worked
    on has been deleted and the store is exactly the store before.  With
    every board deleted after use, a call of [solve] returns the store
    exactly as it found it. *)
Theorem first_next_allocate_result (h : Heap.heap) (s : Heap.loc)
  (g : GameState) (placed : list PlayedCard) :
  rep h s g → Inv g placed →
  transition_exact (first g) (Heap.first s h) h
  ∧ transition_exact (next g) (Heap.next s h) h
  ∧ ∀ depth width w w',
      solve depth width g w = (w', Ret tt) →
      Heap.solve depth width s w h = (w', Ret (tt, h)).
Proof.
  intros Hrep HI. split; [|split].
  - pose proof (first_tight h s g placed Hrep HI) as H.
    pose proof (first_sim h s g Hrep) as H'. unfold transition_exact.
    by destruct (first g) as [[g'|]| | |].
  - pose proof (next_tight h s g Hrep) as H.
    pose proof (next_sim h s g Hrep) as H'. unfold transition_exact.
    by destruct (next g) as [[g'|]| | |].
  - intros depth width w w'. by apply (solve_tight depth width h s g placed).
Qed.

Lemma first_next_allocate_result_witness :
  transition_exact (next sample_game) (Heap.next 1%positive sample_heap)
    sample_heap.
Proof.
  apply (first_next_allocate_result sample_heap 1%positive sample_game
           [mkPlayedCard 0 0 (Some 0)]).
  - exists (Some 1%positive :: list.replicate 8 None).
    split; [reflexivity|]. repeat constructor.
  - apply Inv_check_sound. vm_compute. reflexivity.
Defined.

(** X1.  The program leaves no object behind.  Run on a store of objects
    and pointers (malloc, free, writes through pointers), started in any
    store, [main] returns, writes what [main] on values writes, and the
    store at the end is the store at the start: every state and every
    placement allocated during the search has been freed, and no object
    that was there before has been written to. *)
Theorem main_restores_store :
  ∃ w,
    main 10 27 = (w, Ret tt)
    ∧ ∀ h, Heap.main 10 27 empty_world h = (w, Ret (tt, h)).
Proof.
  exists main_world. split; [exact main_run|].
  intros h. exact (main_tight 10 27 h main_world main_run).
Qed.

(** * The C++ program *)

Section Cpp_run.

Variable order : gmap string sint → list (string * sint).
Hypothesis order_enumerates : ∀ m, order m ≡ₚ map_to_list m.

Lemma Cpp_isSolved_value g placed partial :
  Inv g placed →
  Cpp.isSolved (order Cpp.NEIGHBORMAP) g partial Cpp.NEIGHBORMAP
  = (Cpp.NEIGHBORMAP, Ret (forallb (row_ok placed partial) NEIGHBORMAP)).
Proof.
  intros HI. pose proof (order_enumerates Cpp.NEIGHBORMAP) as Hord.
  rewrite Cpp_NEIGHBORMAP_entries in Hord. unfold Cpp.isSolved.
  rewrite (Cpp_isSolved_loop_value _ g placed partial HI)
    by (intros e He; by rewrite <- Hord).
  do 2 f_equal. rewrite <- Cpp_entries_rows.
  apply forallb_Permutation. by rewrite Hord.
Qed.

Lemma Cpp_solve_loop_agrees (prec : GameState → io unit)
  (crec : GameState → Cpp.proc unit) (n : nat) gst placed pc w w' :
  (∀ g placed w w', Inv g placed → prec g w = (w', Ret tt) →
                    crec g w Cpp.NEIGHBORMAP = (w', Cpp.NEIGHBORMAP, Ret tt)) →
  Inv gst (placed ++ [pc]) →
  solve_loop prec n (Some gst) w = (w', Ret tt) →
  Cpp.solve_loop crec n (Some gst) w Cpp.NEIGHBORMAP
  = (w', Cpp.NEIGHBORMAP, Ret tt).
Proof.
  intros Hrec. revert gst pc w.
  induction n as [|n IH]; intros gst pc w HI Hrun; [done|].
  simpl in Hrun. apply io_bind_inv in Hrun as (w1 & [] & Hrun1 & Hrun).
  apply io_bind_inv in Hrun as (w2 & nx & Hnext & Hrun).
  unfold lift in Hnext.
  assert (w2 = w1 ∧ next gst = Ret nx) as [-> Hnx] by (by simplify_eq).
  simpl. unfold Cpp.proc_bind at 1. rewrite (Hrec _ _ _ _ HI Hrun1).
  unfold Cpp.proc_bind at 1, Cpp.run_io, lift. rewrite Hnx.
  destruct nx as [g'|].
  - destruct (next_Inv _ _ _ HI) as [[Hnone _]|(s' & pc' & Hs' & HI' & _)];
      [congruence|].
    assert (s' = g') as -> by congruence. by apply (IH g' pc').
  - rewrite solve_loop_None in Hrun. unfold io_ret in Hrun. simplify_eq.
    by destruct n.
Qed.

Lemma Cpp_solve_agrees (depth width : nat) g placed w w' :
  Inv g placed → solve depth width g w = (w', Ret tt) →
  Cpp.solve order depth width g w Cpp.NEIGHBORMAP
  = (w', Cpp.NEIGHBORMAP, Ret tt).
Proof.
  revert g placed w w'.
  induction depth as [|depth IH]; intros g placed w w' HI Hrun; [done|].
  cbn [solve] in Hrun. cbn [Cpp.solve].
  rewrite (io_bind_ret _ _ _ _ _ (isSolved_value g placed true w HI)) in Hrun.
  unfold Cpp.proc_bind at 1, Cpp.run_map.
  rewrite (Cpp_isSolved_value g placed true HI).
  destruct (forallb (row_ok placed true) NEIGHBORMAP); cbn [negb] in *;
    [|unfold io_ret in Hrun; by simplify_eq].
  rewrite (io_bind_ret _ _ _ _ _ (isSolved_value g placed false w HI)) in Hrun.
  unfold Cpp.proc_bind at 1.
  rewrite (Cpp_isSolved_value g placed false HI).
  apply io_bind_inv in Hrun as (w3 & [] & Hout & Hrun).
  unfold Cpp.proc_bind at 1.
  assert ((if forallb (row_ok placed false) NEIGHBORMAP
           then Cpp.run_io (output g) else Cpp.proc_ret tt)
            w Cpp.NEIGHBORMAP = (w3, Cpp.NEIGHBORMAP, Ret tt)) as ->.
  { destruct (forallb (row_ok placed false) NEIGHBORMAP).
    - unfold Cpp.run_io. by rewrite Hout.
    - unfold io_ret in Hout. by simplify_eq. }
  apply io_bind_inv in Hrun as (w4 & nx & Hfirst & Hrun).
  unfold lift in Hfirst.
  assert (w4 = w3 ∧ first g = Ret nx) as [-> Hnx] by (by simplify_eq).
  unfold Cpp.proc_bind at 1, Cpp.run_io, lift. rewrite Hnx.
  destruct nx as [g'|].
  - destruct (first_Inv _ _ HI) as [[Hnone _]|(s' & c & Hs' & _ & HI' & _)];
      [congruence|].
    assert (s' = g') as -> by congruence.
    eapply (Cpp_solve_loop_agrees (solve depth width)); [|exact HI'|exact Hrun].
    intros g0 placed0 w0 w0'. apply IH.
  - rewrite solve_loop_None in Hrun. unfold io_ret in Hrun. simplify_eq.
    by destruct width.
Qed.

Lemma Cpp_main_agrees (depth width : nat) w' :
  main depth width = (w', Ret tt) →
  Cpp.main order depth width = (w', Cpp.NEIGHBORMAP, Ret tt).
Proof. intros H. by apply (Cpp_solve_agrees depth width empty_game []), H; apply Inv_empty. Qed.

End Cpp_run.

(** X13.  The C++ program prints what the C program prints.  Whatever
    the order in which the [unordered_map] yields its entries, the run of
    the C++ [main] returns with the standard output (and the reports) of
    the C run, and the map at the end is the map at the start: no call
    of [matchesNeighbor] in the search misses its key. *)
Theorem Cpp_main_prints_the_same
  (order : gmap string sint → list (string * sint)) :
  (∀ m, order m ≡ₚ map_to_list m) →
  ∃ w,
    main 10 27 = (w, Ret tt)
    ∧ Cpp.main order 10 27 = (w, Cpp.NEIGHBORMAP, Ret tt).
Proof.
  intros Hord. exists main_world. split; [exact main_run|].
  exact (Cpp_main_agrees order Hord 10 27 main_world main_run).
Qed.

Lemma Cpp_main_prints_the_same_witness :
  ∃ w,
    main 10 27 = (w, Ret tt)
    ∧ Cpp.main map_to_list 10 27 = (w, Cpp.NEIGHBORMAP, Ret tt).
Proof. apply (Cpp_main_prints_the_same map_to_list). by intros m. Defined.

(** * The report *)

(** ** The line of a full board *)

Lemma string_length_append (a b : string) :
  String.length (a +:+ b) = (String.length a + String.length b)%nat.
Proof. induction a as [|c a IH]; simpl; [done|]. by rewrite IH. Qed.

Lemma concat_names_length (names : list string) :
  Forall (λ n, String.length n = 2%nat) names →
  (String.length (String.concat "," names) + 1 = 3 * length names)%nat
  ∨ names = [].
Proof.
  induction 1 as [|n names Hn Hall IH]; [by right|]. left.
  destruct names as [|n' names]; [simpl; lia|].
  destruct IH as [IH|]; [|done].
  change (String.concat "," (n :: n' :: names))
    with (n +:+ "," +:+ String.concat "," (n' :: names)).
  rewrite !string_length_append. cbn [length String.length] in *. lia.
Qed.

Lemma full_board_cards (placed : list PlayedCard) :
  length placed = 9%nat →
  NoDup (card <$> placed) →
  (∀ pc, pc ∈ placed → ∃ c, card pc = Some c ∧ c < CARDS_IN_DECK) →
  card <$> placed ≡ₚ (λ n, Some (N.of_nat n)) <$> seq 0 9.
Proof.
  intros Hlen Hnd Hcard.
  apply submseteq_length_Permutation; [|by rewrite !length_fmap, Hlen].
  apply NoDup_submseteq; [done|]. intros x Hx.
  apply list_elem_of_fmap in Hx as (pc & -> & Hpc).
  destruct (Hcard pc Hpc) as (c & -> & Hc).
  apply list_elem_of_fmap. exists (N.to_nat c).
  split; [by rewrite N2Nat.id|]. apply elem_of_seq.
  unfold CARDS_IN_DECK in Hc. lia.
Qed.

Lemma printed_names_full g placed :
  Inv g placed → length placed = 9%nat →
  ∃ picked,
    picked ≡ₚ placed
    ∧ mapM (λ pc : PlayedCard, name_of (card pc)) picked
      = printed_names g.
Proof.
  intros HI Hfull.
  exists ((λ p : sint, default (mkPlayedCard 0 0 None) (placed !! N.to_nat p))
            <$> PRINTORDER).
  split.
  - assert (PRINTORDER ≡ₚ N.of_nat <$> seq 0 9) as Hperm
      by (apply (bool_decide_unpack _); vm_compute; exact I).
    etrans; [apply fmap_Permutation; exact Hperm|].
    assert (∀ l k : list PlayedCard, l = k → l ≡ₚ k) as Heq by (by intros ?? ->).
    apply Heq, list_eq. intros i. rewrite !list_lookup_fmap.
    destruct (decide (i < 9)%nat) as [Hi|Hi].
    + rewrite lookup_seq_lt by done. simpl. rewrite Nat2N.id.
      destruct (lookup_lt_is_Some_2 placed i) as [pc Hpc]; [lia|].
      by rewrite Hpc.
    + rewrite lookup_seq_ge by lia. symmetry. apply lookup_ge_None. lia.
  - unfold printed_names. rewrite (inv_board _ _ HI).
    unfold PRINTORDER.
    assert (∀ p, p < CARDS_IN_DECK →
              name_of (card (default (mkPlayedCard 0 0 None)
                               (placed !! N.to_nat p)))
              = (slot ← board_of placed !! N.to_nat p;
                 pc ← slot; c ← card pc; name <$> deck_at c)) as Hp.
    { intros p Hp. unfold CARDS_IN_DECK in Hp.
      destruct (lookup_lt_is_Some_2 placed (N.to_nat p)) as [pc Hpc]; [lia|].
      by rewrite Hpc, (board_of_lookup_placed _ _ _ Hpc). }
    cbn [fmap list_fmap mapM].
    by rewrite !Hp by (by vm_compute).
Qed.

Lemma mapM_total {A B} (f : A → option B) (d : B) (l : list A) :
  Forall (λ x, is_Some (f x)) l →
  mapM f l = Some ((λ x, default d (f x)) <$> l).
Proof.
  induction 1 as [|x l [y Hy] _ IH]; [done|].
  cbn [mapM fmap list_fmap]. rewrite Hy. simpl. rewrite IH. by simpl.
Qed.

(** ** [output] and the checks as functions of the board *)

(** X14.  The output contract, for every full board.  For a board that
    satisfies the invariant and has all nine positions filled, [output]
    writes one line: an opening bracket, the names of the cards at the
    positions of [PRINTORDER] separated by commas, a closing bracket and a
    newline; the names are P1, ..., P9, each once; the line is 29
    characters long; the board is logged as reported and the call
    returns. *)
Theorem output_full_board (g : GameState) (placed : list PlayedCard)
  (w : World) :
  Inv g placed → length placed = 9%nat →
  ∃ names,
    printed_names g = Some names
    ∧ names ≡ₚ name <$> Deck
    ∧ output g w
      = (mkWorld (stdout w +:+ solution_line names) (reported w ++ [g]), Ret tt)
    ∧ String.length (solution_line names) = 29%nat.
Proof.
  intros HI Hfull.
  destruct (printed_names_full g placed HI Hfull) as (picked & Hperm & Hmap).
  pose proof (full_board_cards placed Hfull (inv_nodup _ _ HI) (inv_card _ _ HI))
    as Hcards.
  assert (card <$> picked ≡ₚ (λ n, Some (N.of_nat n)) <$> seq 0 9) as Hpicked
    by (by rewrite Hperm).
  assert (Forall (λ pc, is_Some (name_of (card pc))) picked) as Hsome.
  { apply Forall_fmap with (f := card) (P := λ c, is_Some (name_of c)).
    rewrite Hpicked. repeat (constructor; [by eexists|]). constructor. }
  rewrite (mapM_total _ ""%string picked Hsome) in Hmap.
  set (names := (λ pc, default ""%string (name_of (card pc))) <$> picked) in *.
  assert (names ≡ₚ name <$> Deck) as Hnames.
  { unfold names.
    rewrite (list_fmap_compose card (λ c, default ""%string (name_of c))).
    by rewrite Hpicked. }
  exists names. split; [done|]. split; [done|].
  split; [by apply output_printed|].
  assert (Forall (λ n, String.length n = 2%nat) names) as Hlen.
  { rewrite Hnames. repeat (constructor; [reflexivity|]). constructor. }
  assert (length names = 9%nat) as Hnine by (by rewrite Hnames).
  destruct (concat_names_length names Hlen) as [Hc| ->]; [|done].
  unfold solution_line. rewrite !string_length_append.
  cbn [String.length newline]. lia.
Qed.

Lemma output_full_board_witness :
  ∃ names,
    printed_names (hd empty_game (reported main_world)) = Some names
    ∧ names ≡ₚ name <$> Deck
    ∧ output (hd empty_game (reported main_world)) empty_world
      = (mkWorld (stdout empty_world +:+ solution_line names)
           (reported empty_world ++ [hd empty_game (reported main_world)]),
         Ret tt)
    ∧ String.length (solution_line names) = 29%nat.
Proof.
  apply (output_full_board _ (placed_on (hd empty_game (reported main_world)))).
  - apply Inv_check_sound. vm_compute. reflexivity.
  - reflexivity.
Defined.

(** X15.  The checks and the report do not write to the store.  On a
    store in which [s] stands for the board [g], [isSolved] and [output]
    return what they return on values, write the same to standard output,
    and leave the store as it is; a fault or an exit on values is the
    same on the store. *)
Theorem checks_read_only (h : Heap.heap) (s : Heap.loc) (g : GameState)
  (partial : bool) (w : World) :
  rep h s g →
  Heap.isSolved s partial w h = attach h (isSolved g partial w)
  ∧ Heap.output s w h = attach h (output g w).
Proof.
  intros Hrep. split.
  - by apply isSolved_reads.
  - by apply output_reads.
Qed.

Lemma checks_read_only_witness :
  Heap.isSolved 1%positive true empty_world sample_heap
  = attach sample_heap (isSolved sample_game true empty_world)
  ∧ Heap.output 1%positive empty_world sample_heap
    = attach sample_heap (output sample_game empty_world).
Proof.
  apply (checks_read_only sample_heap 1%positive sample_game true empty_world).
  exists (Some 1%positive :: list.replicate 8 None).
  split; [reflexivity|]. repeat constructor.
Defined.



(** ** A copy and its deletion *)

(** X16.  [replicate] and [delete] cancel.  On a store in which [s] stands
    for a board (any board, with or without empty positions between its
    placements), [replicate] returns a state of its own that stands for
    the copy, and [delete] of that state gives back the store as it was
    before the copy was made: every placement the copy loop allocated is
    freed again, and the original is untouched. *)
Theorem replicate_delete_cancel (h : Heap.heap) (s : Heap.loc) (g : GameState) :
  rep h s g →
  ∃ r h1,
    Heap.replicate s h = Ret (r, h1)
    ∧ rep h1 r (replicate g)
    ∧ rep h1 s g
    ∧ apart h h1 r
    ∧ Heap.delete r h1 = Ret (tt, h).
Proof.
  intros Hrep.
  destruct (replicate_sim h s g Hrep) as (h1 & r & slots & Hrun & Hown).
  destruct (replicate_touches _ _ _ _ Hrun) as (n & t & dst & Hst & Htouch).
  assert (dst = slots) as ->.
  { apply (owned_slots _ _ _ _ _ (Heap.mkState n t dst) Hown).
    rewrite Hst. apply lookup_insert_eq. }
  exists r, h1. split; [done|]. split; [by eapply owned_rep|].
  split; [eapply preserved_rep; [by eapply owned_preserved|done]|].
  split; [by eapply owned_apart|]. by eapply delete_exact.
Qed.

Lemma replicate_delete_cancel_witness :
  ∃ r h1,
    Heap.replicate 1%positive sample_heap = Ret (r, h1)
    ∧ rep h1 r (replicate sample_game)
    ∧ rep h1 1%positive sample_game
    ∧ apart sample_heap h1 r
    ∧ Heap.delete r h1 = Ret (tt, sample_heap).
Proof.
  apply (replicate_delete_cancel sample_heap 1%positive sample_game).
  exists (Some 1%positive :: list.replicate 8 None).
  split; [reflexivity|]. repeat constructor.
Defined.
